(** * pr-parser: a shallow embedding of the title parser, the filename
      parser, the image extractors and the grouping engine.

    Strings are sequences of characters ([list ascii]).  The embedding is
    exact on ASCII text: the whitespace class is the ASCII part of the
    JavaScript [\s] class (which is also what [trim] removes), and case
    conversion acts on the letters [a-z] / [A-Z] only.  Numbers are
    modelled by [N] (exact integers); [parseInt] of a digit run is its
    decimal value. *)

From Stdlib Require Import List Ascii NArith ZArith Bool Arith Lia.
From Stdlib Require String.
Import String.StringSyntax.
Delimit Scope string_scope with string.
From Stdlib Require Import Sorting.Sorted Sorting.Permutation.
Import ListNotations.

Set Implicit Arguments.

Local Open Scope list_scope.

(** ** Strings *)

Definition jsstring := list ascii.

(** String literals: [js "abc"] is the character sequence a, b, c. *)
Definition js (s : String.string) : jsstring := String.list_ascii_of_string s.
Arguments js s%_string /.

(** The double-quote character, U+0022. *)
Definition dquote : ascii := ascii_of_nat 34.

Definition ascii_eqb (a b : ascii) : bool := Ascii.eqb a b.

Definition jsstring_eqb (a b : jsstring) : bool :=
  if list_eq_dec ascii_dec a b then true else false.

(** *** Character classes *)

Definition code (c : ascii) : nat := nat_of_ascii c.

Definition inRange (lo hi : nat) (c : ascii) : bool :=
  (lo <=? code c) && (code c <=? hi).

(** [\s] restricted to ASCII: TAB, LF, VT, FF, CR and SPACE. *)
Definition isSpace (c : ascii) : bool :=
  inRange 9 13 c || (code c =? 32).

(** [\d] *)
Definition isDigit (c : ascii) : bool := inRange 48 57 c.

Definition isUpper (c : ascii) : bool := inRange 65 90 c.
Definition isLower (c : ascii) : bool := inRange 97 122 c.

(** [[A-Za-z]] *)
Definition isAlpha (c : ascii) : bool := isUpper c || isLower c.

(** [[a-z0-9]] under the [i] flag *)
Definition isAlnum (c : ascii) : bool := isAlpha c || isDigit c.

(** Line terminators, which [.] does not match: LF and CR. *)
Definition isLineTerminator (c : ascii) : bool :=
  (code c =? 10) || (code c =? 13).

Definition toLowerChar (c : ascii) : ascii :=
  if isUpper c then ascii_of_nat (code c + 32) else c.

Definition toUpperChar (c : ascii) : ascii :=
  if isLower c then ascii_of_nat (code c - 32) else c.

(** [String.prototype.toLowerCase] / [toUpperCase] *)
Definition toLowerCase (s : jsstring) : jsstring := map toLowerChar s.
Definition toUpperCase (s : jsstring) : jsstring := map toUpperChar s.

(** *** Scanning helpers *)

Fixpoint takeWhile (p : ascii -> bool) (s : jsstring) : jsstring :=
  match s with
  | [] => []
  | c :: t => if p c then c :: takeWhile p t else []
  end.

Fixpoint dropWhile (p : ascii -> bool) (s : jsstring) : jsstring :=
  match s with
  | [] => []
  | c :: t => if p c then dropWhile p t else s
  end.

Definition isEmpty (s : jsstring) : bool :=
  match s with [] => true | _ => false end.

(** [String.prototype.trim] *)
Definition trimStart (s : jsstring) : jsstring := dropWhile isSpace s.
Definition trimEnd (s : jsstring) : jsstring := rev (dropWhile isSpace (rev s)).
Definition trim (s : jsstring) : jsstring := trimEnd (trimStart s).

(** Strips [p] from the front of [s], comparing characters up to ASCII
    case, as a literal does in a regular expression with the [i] flag. *)
Fixpoint stripPrefixCI (p s : jsstring) : option jsstring :=
  match p with
  | [] => Some s
  | a :: p' =>
      match s with
      | [] => None
      | c :: s' =>
          if ascii_eqb (toLowerChar a) (toLowerChar c)
          then stripPrefixCI p' s' else None
      end
  end.

(** [parseInt] on a run of decimal digits. *)
Definition digitValue (c : ascii) : N := N.of_nat (code c - 48).

Definition parseInt (ds : jsstring) : N :=
  fold_left (fun acc c => (10 * acc + digitValue c)%N) ds 0%N.

(** [String.prototype.split(/\s+/)]: the pieces between maximal runs of
    whitespace, empty leading and trailing pieces included; the empty
    string splits into one empty piece. *)
Fixpoint splitWsFrom (inSeparator : bool) (s : jsstring) : list jsstring :=
  match s with
  | [] => [[]]
  | c :: t =>
      if isSpace c then
        if inSeparator then splitWsFrom true t
        else [] :: splitWsFrom true t
      else
        match splitWsFrom false t with
        | p :: ps => (c :: p) :: ps
        | [] => [[c]]
        end
  end.

Definition splitWs (s : jsstring) : list jsstring := splitWsFrom false s.

(** [Array.prototype.join] *)
Fixpoint join (sep : jsstring) (ws : list jsstring) : jsstring :=
  match ws with
  | [] => []
  | [w] => w
  | w :: rest => w ++ sep ++ join sep rest
  end.

(** ** Filename parser ([src/images/mod.ts], [parseFilename]) *)

Inductive Timing := Before | After | Standalone.

Definition Timing_eqb (a b : Timing) : bool :=
  match a, b with
  | Before, Before | After, After | Standalone, Standalone => true
  | _, _ => false
  end.

Record ParsedFilename := {
  pf_order : N;
  pf_timing : Timing;
  formattedAlt : jsstring
}.

(** [/^(\d+)\.?\s*/]: the captured digit run and what follows the match. *)
Definition matchOrderPrefix (s : jsstring) : option (jsstring * jsstring) :=
  match takeWhile isDigit s with
  | [] => None
  | ds =>
      let r := dropWhile isDigit s in
      let r' := match r with
                | c :: t => if ascii_eqb c "."%char then t else r
                | [] => r
                end in
      Some (ds, dropWhile isSpace r')
  end.

(** [(?:\.[a-z0-9]+)?\s*$] with the [i] flag, tried at the front of [s]. *)
Definition matchTimingTail (s : jsstring) : bool :=
  forallb isSpace s ||
  match s with
  | c :: e =>
      ascii_eqb c "."%char &&
      negb (isEmpty (takeWhile isAlnum e)) &&
      forallb isSpace (dropWhile isAlnum e)
  | [] => false
  end.

(** [/\s+WORD(?:\.[a-z0-9]+)?\s*$/i] tried at the front of [s]. *)
Definition matchTimingHere (word s : jsstring) : bool :=
  match s with
  | c :: _ =>
      isSpace c &&
      match stripPrefixCI word (dropWhile isSpace s) with
      | Some r => matchTimingTail r
      | None => false
      end
  | [] => false
  end.

(** The leftmost match of the timing pattern in [s]; as the pattern is
    anchored at the end of the string the match is the rest of the string,
    and the result is the text before it (what [replace] by the empty
    string leaves). *)
Fixpoint searchTiming (word s : jsstring) : option jsstring :=
  if matchTimingHere word s then Some []
  else match s with
       | [] => None
       | c :: t => option_map (cons c) (searchTiming word t)
       end.

Definition underscoresToSpaces (s : jsstring) : jsstring :=
  map (fun c => if ascii_eqb c "_"%char then " "%char else c) s.

Definition parseFilename (filename : jsstring) : ParsedFilename :=
  let prefixMatch := matchOrderPrefix filename in
  let order := match prefixMatch with
               | Some (ds, _) => parseInt ds
               | None => 0%N
               end in
  let withoutPrefix := match prefixMatch with
                       | Some (_, rest) => rest
                       | None => filename
                       end in
  let normalized := underscoresToSpaces withoutPrefix in
  let beforeMatch := searchTiming (js "before") normalized in
  let afterMatch := searchTiming (js "after") normalized in
  match beforeMatch, afterMatch with
  | Some content, _ =>
      {| pf_order := order; pf_timing := Before; formattedAlt := trim content |}
  | None, Some content =>
      {| pf_order := order; pf_timing := After; formattedAlt := trim content |}
  | None, None =>
      {| pf_order := order; pf_timing := Standalone;
         formattedAlt := trim normalized |}
  end.

(** ** Title parser ([src/pr-title/mod.ts], [parsePRTitle]) *)

Definition span (p : ascii -> bool) (s : jsstring) : jsstring * jsstring :=
  (takeWhile p s, dropWhile p s).

Definition notSlash (c : ascii) : bool := negb (ascii_eqb c "/"%char).

(** [(.+)$]: a non-empty rest up to the end of the input in which every
    character is matched by [.], that is, no line terminator. *)
Definition matchDotPlusEnd (s : jsstring) : bool :=
  negb (isEmpty s) && forallb (fun c => negb (isLineTerminator c)) s.

(** [(?:-[^/]+)?] followed by [\/]: the text between the digits and the
    first slash is empty, or a hyphen and at least one more character. *)
Definition slashSlugMiddle (m : jsstring) : bool :=
  match m with
  | [] => true
  | c :: x => ascii_eqb c "-"%char && negb (isEmpty x)
  end.

(** [/^([A-Za-z]+)-(\d+)(?:-[^/]+)?\/(.+)$/]: the three captures. *)
Definition slashSlugMatch (s : jsstring)
  : option (jsstring * jsstring * jsstring) :=
  let (letters, r1) := span isAlpha s in
  match letters, r1 with
  | _ :: _, c :: r2 =>
      if ascii_eqb c "-"%char then
        let (digits, r3) := span isDigit r2 in
        match digits with
        | [] => None
        | _ :: _ =>
            let (middle, r4) := span notSlash r3 in
            match r4 with
            | _ :: rest =>
                if slashSlugMiddle middle && matchDotPlusEnd rest
                then Some (letters, digits, rest) else None
            | [] => None
            end
        end
      else None
  | _, _ => None
  end.

(** [/^([A-Za-z]+)-(\d+)-(.+)$/]: the three captures. *)
Definition hyphenSlugMatch (s : jsstring)
  : option (jsstring * jsstring * jsstring) :=
  let (letters, r1) := span isAlpha s in
  match letters, r1 with
  | _ :: _, c :: r2 =>
      if ascii_eqb c "-"%char then
        let (digits, r3) := span isDigit r2 in
        match digits, r3 with
        | _ :: _, d :: rest =>
            if ascii_eqb d "-"%char && matchDotPlusEnd rest
            then Some (letters, digits, rest) else None
        | _, _ => None
        end
      else None
  | _, _ => None
  end.

Definition isSlugSeparator (c : ascii) : bool :=
  ascii_eqb c "_"%char || ascii_eqb c "-"%char.

(** [replace] of [/[_-]+/g] by a space: every maximal run of underscores and hyphens
    becomes one space. *)
Fixpoint replaceSeparatorRuns (inRun : bool) (s : jsstring) : jsstring :=
  match s with
  | [] => []
  | c :: t =>
      if isSlugSeparator c then
        if inRun then replaceSeparatorRuns true t
        else " "%char :: replaceSeparatorRuns true t
      else c :: replaceSeparatorRuns false t
  end.

(** The slug with its separator runs replaced, split on whitespace,
    without the empty pieces ([filter(Boolean)]). *)
Definition explodeSlug (featureSlug : jsstring) : list jsstring :=
  filter (fun w => negb (isEmpty w))
         (splitWs (replaceSeparatorRuns false featureSlug)).

(** The [words] array of [parsePRTitle], from the trimmed title. *)
Definition titleWords (trimmed : jsstring) : list jsstring :=
  let m := match slashSlugMatch trimmed with
           | Some r => Some r
           | None => hyphenSlugMatch trimmed
           end in
  match m with
  | Some (ticketPrefix, ticketNumber, featureSlug) =>
      ticketPrefix :: ticketNumber :: explodeSlug featureSlug
  | None => splitWs trimmed
  end.

(** The ticket identifier and the remaining words, from a non-empty
    [words] array. *)
Definition resolveTicket (words : list jsstring) : jsstring * list jsstring :=
  let firstWord := toLowerCase (nth 0 words []) in
  let secondWord := if 1 <? length words then toLowerCase (nth 1 words [])
                    else [] in
  if jsstring_eqb firstWord (js "no") && jsstring_eqb secondWord (js "ticket")
  then (js "[no-ticket]", skipn 2 words)
  else if jsstring_eqb firstWord (js "noticket")
  then (js "[no-ticket]", skipn 1 words)
  else if 2 <=? length words
  then (js "[" ++ toUpperCase (nth 0 words []) ++ js "-"
          ++ toUpperCase (nth 1 words []) ++ js "]", skipn 2 words)
  else (js "[" ++ toUpperCase (nth 0 words []) ++ js "]", []).

(** [/^\d+$/.test(w)] *)
Definition isAllDigits (w : jsstring) : bool :=
  negb (isEmpty w) && forallb isDigit w.

Definition isPartWord (w : jsstring) : bool :=
  jsstring_eqb (toLowerCase w) (js "part").

(** The test of the loop body at index [i]. *)
Definition isPartAt (featureWords : list jsstring) (i : nat) : bool :=
  isPartWord (nth i featureWords []) &&
  isAllDigits (nth (S i) featureWords []).

(** [for (let i = ...; i >= 0; i--)]: tries the indices [n-1], ..., [0] and
    stops at the first one that passes the test. *)
Fixpoint scanPart (featureWords : list jsstring) (n : nat) : option nat :=
  match n with
  | 0 => None
  | S i => if isPartAt featureWords i then Some i
           else scanPart featureWords i
  end.

(** The part suffix, if any, and the feature words left. *)
Definition extractPart (remainingWords : list jsstring)
  : option jsstring * list jsstring :=
  match scanPart remainingWords (length remainingWords - 1) with
  | Some i =>
      (Some (js "[PART-" ++ nth (S i) remainingWords [] ++ js "]"),
       firstn i remainingWords ++ skipn (i + 2) remainingWords)
  | None => (None, remainingWords)
  end.

(** [s.charAt(0).toUpperCase() + s.slice(1)] *)
Definition capitalize (s : jsstring) : jsstring :=
  match s with
  | [] => []
  | c :: t => toUpperChar c :: t
  end.

(** What [parsePRTitle] returns once [words] is known. *)
Definition formatTitle (words : list jsstring) : jsstring :=
  match words with
  | [] => []
  | _ :: _ =>
      let (ticketId, remainingWords) := resolveTicket words in
      match remainingWords with
      | [] => ticketId
      | _ :: _ =>
          let (partSuffix, featureWords) := extractPart remainingWords in
          match partSuffix, featureWords with
          | Some suffix, [] => ticketId ++ js " " ++ suffix
          | Some suffix, _ :: _ =>
              ticketId ++ js " " ++ suffix ++ js " "
                ++ capitalize (join (js " ") featureWords)
          | None, _ =>
              ticketId ++ js " " ++ capitalize (join (js " ") featureWords)
          end
      end
  end.

Definition parsePRTitle (title : jsstring) : jsstring :=
  formatTitle (titleWords (trim title)).

(** ** Image records ([src/types/mod.ts]) *)

Record ImageInfo := {
  alt : jsstring;
  src : jsstring;
  category : jsstring;
  timing : Timing;
  order : N
}.

(** The record both extractors push for a label and a source. *)
Definition imageOf (originalAlt source : jsstring) : ImageInfo :=
  let parsed := parseFilename originalAlt in
  {| alt := formattedAlt parsed;
     src := source;
     category := formattedAlt parsed;
     timing := pf_timing parsed;
     order := pf_order parsed |}.

(** ** [Array.prototype.sort] with a comparator

    The sort is stable: an element is placed before the first element of
    the sorted rest that the comparator does not put before it. *)
Section Sort.
Variable A : Type.
Variable cmp : A -> A -> Z.

Fixpoint insertSorted (x : A) (l : list A) : list A :=
  match l with
  | [] => [x]
  | y :: t => if (cmp x y <=? 0)%Z then x :: l else y :: insertSorted x t
  end.

Definition sortBy (l : list A) : list A := fold_right insertSorted [] l.
End Sort.

(** [(a, b) => a.order - b.order] *)
Definition compareOrder (a b : ImageInfo) : Z :=
  (Z.of_N (order a) - Z.of_N (order b))%Z.

(** ** Tag mode ([parseImages]) *)

Definition notGt (c : ascii) : bool := negb (ascii_eqb c ">"%char).
Definition notQuote (c : ascii) : bool := negb (ascii_eqb c dquote).

(** [/<img[^>]+>/i] tried at the front of [s]: the matched tag and the text
    after it. *)
Definition matchImgTagHere (s : jsstring) : option (jsstring * jsstring) :=
  match stripPrefixCI (js "<img") s with
  | Some r =>
      let (body, r2) := span notGt r in
      match body, r2 with
      | _ :: _, c :: rest => Some (firstn 4 s ++ body ++ [c], rest)
      | _, _ => None
      end
  | None => None
  end.

(** The [exec] loop of the global pattern: the successive matches from left
    to right, each search resuming after the previous match.  [fuel] bounds
    the number of steps; the length of the text is enough. *)
Fixpoint scanImgTags (fuel : nat) (s : jsstring) : list jsstring :=
  match fuel with
  | 0 => []
  | S f =>
      match s with
      | [] => []
      | _ :: t =>
          match matchImgTagHere s with
          | Some (tag, rest) => tag :: scanImgTags f rest
          | None => scanImgTags f t
          end
      end
  end.

(** The attribute pattern [NAME=Q([^Q]+)Q] with the [i] flag, where Q is
    the double quote, tried at the front of [s]: the capture. *)
Definition matchAttrHere (name s : jsstring) : option jsstring :=
  match stripPrefixCI (name ++ [("="%char : ascii); dquote]) s with
  | Some r =>
      let (value, r2) := span notQuote r in
      match value, r2 with
      | _ :: _, _ :: _ => Some value
      | _, _ => None
      end
  | None => None
  end.

(** [imgTag.match] of the attribute pattern: the capture of the leftmost
    match. *)
Fixpoint findAttr (name s : jsstring) : option jsstring :=
  match matchAttrHere name s with
  | Some v => Some v
  | None => match s with
            | [] => None
            | _ :: t => findAttr name t
            end
  end.

(** The body of the loop for one tag. *)
Definition imageOfTag (imgTag : jsstring) : list ImageInfo :=
  match findAttr (js "alt") imgTag, findAttr (js "src") imgTag with
  | Some originalAlt, Some source => [imageOf originalAlt source]
  | _, _ => []
  end.

(** The records in document order, before the sort. *)
Definition extractTagImages (htmlContent : jsstring) : list ImageInfo :=
  flat_map imageOfTag (scanImgTags (length htmlContent) htmlContent).

Definition parseImages (htmlContent : jsstring) : list ImageInfo :=
  sortBy compareOrder (extractTagImages htmlContent).

(** ** Link mode ([parseImagesMarkdown]) *)

(** [content.indexOf] of the marker (an exclamation mark and an opening
    bracket) from [index] on: the text after the marker. *)
Fixpoint afterMarker (s : jsstring) : option jsstring :=
  match s with
  | [] => None
  | c :: t =>
      match t with
      | d :: r =>
          if ascii_eqb c "!"%char && ascii_eqb d "["%char then Some r
          else afterMarker t
      | [] => None
      end
  end.

(** [readUntil] from [altStart] with the predicate: the character is a
    closing bracket and the one before it is not a backslash.  Gives the
    label and the text from the closing bracket on; [prev] is the character
    before the current one. *)
Fixpoint readLabel (prev : ascii) (s : jsstring) : option (jsstring * jsstring) :=
  match s with
  | [] => None
  | c :: t =>
      if ascii_eqb c "]"%char && negb (ascii_eqb prev "\"%char)
      then Some ([], s)
      else match readLabel c t with
           | Some (value, r) => Some (c :: value, r)
           | None => None
           end
  end.

(** [while (cursor < content.length && depth > 0)]: the final depth, the
    characters passed over and the text left. *)
Fixpoint scanParens (depth : nat) (s : jsstring) : nat * jsstring * jsstring :=
  match depth with
  | 0 => (0, [], s)
  | S _ =>
      match s with
      | [] => (depth, [], [])
      | c :: t =>
          let depth' := if ascii_eqb c "("%char then S depth
                        else if ascii_eqb c ")"%char then depth - 1
                        else depth in
          match scanParens depth' t with
          | (d, passed, rest) => (d, c :: passed, rest)
          end
      end
  end.

(** [inner.indexOf] of the closing angle bracket *)
Fixpoint indexOfGt (s : jsstring) : option nat :=
  match s with
  | [] => None
  | c :: t => if ascii_eqb c ">"%char then Some 0
              else option_map S (indexOfGt t)
  end.

(** The source named by the text between the parentheses. *)
Definition linkSource (inner : jsstring) : jsstring :=
  match inner with
  | c :: _ =>
      if ascii_eqb c "<"%char then
        match indexOfGt inner with
        | Some close =>
            if 1 <? close then trim (firstn (close - 1) (skipn 1 inner))
            else []
        | None => []
        end
      else nth 0 (splitWs inner) []
  | [] => nth 0 (splitWs inner) []
  end.

(** One turn of the [while] loop on the text from [index] on: [None] when
    the loop breaks, otherwise the records pushed and the text from the
    next [index] on. *)
Definition linkStep (s : jsstring) : option (list ImageInfo * jsstring) :=
  match afterMarker s with
  | None => None
  | Some afterStart =>
      match readLabel "["%char afterStart with
      | None => None
      | Some (originalAlt, fromBracket) =>
          let cursor := dropWhile isSpace (skipn 1 fromBracket) in
          match cursor with
          | c :: innerStart =>
              if ascii_eqb c "("%char then
                match scanParens 1 innerStart with
                | (0, passed, rest) =>
                    let inner := trim (removelast passed) in
                    let source := linkSource inner in
                    Some (if negb (isEmpty originalAlt) && negb (isEmpty source)
                          then [imageOf originalAlt source] else [],
                          rest)
                | (S _, _, _) => Some ([], afterStart)
                end
              else Some ([], afterStart)
          | [] => Some ([], afterStart)
          end
      end
  end.

(** The [while (index < content.length)] loop.  [fuel] bounds the number
    of turns; the length of the text is enough. *)
Fixpoint linkLoop (fuel : nat) (s : jsstring) : list ImageInfo :=
  match fuel with
  | 0 => []
  | S f =>
      match s with
      | [] => []
      | _ :: _ =>
          match linkStep s with
          | None => []
          | Some (found, next) => found ++ linkLoop f next
          end
      end
  end.

(** The records in document order, before the sort. *)
Definition extractLinkImages (markdownContent : jsstring) : list ImageInfo :=
  linkLoop (length markdownContent) markdownContent.

Definition parseImagesMarkdown (markdownContent : jsstring) : list ImageInfo :=
  sortBy compareOrder (extractLinkImages markdownContent).

Definition parseImagesFromClipboard (clipboardContent : jsstring) : list ImageInfo :=
  let trimmed := trim clipboardContent in
  if jsstring_eqb (firstn 4 trimmed) (js "<img") then parseImages trimmed
  else parseImagesMarkdown trimmed.

(** ** Grouping engine ([groupImagesByCategory]) *)

(** The object stored under a category: two optional slots and an order. *)
Module Group.
Record t := {
  before : option ImageInfo;
  after : option ImageInfo;
  order : N
}.
End Group.

(** A JavaScript [Map] with string keys: the entries in insertion order,
    at most one per key. *)
Definition GroupMap := list (jsstring * Group.t).

(** [Map.prototype.has] *)
Fixpoint mapHas (k : jsstring) (m : GroupMap) : bool :=
  match m with
  | [] => false
  | (k', _) :: t => jsstring_eqb k k' || mapHas k t
  end.

(** [Map.prototype.get] *)
Fixpoint mapGet (k : jsstring) (m : GroupMap) : option Group.t :=
  match m with
  | [] => None
  | (k', g) :: t => if jsstring_eqb k k' then Some g else mapGet k t
  end.

(** [Map.prototype.set]: a new key goes last, an existing key keeps its
    place. *)
Fixpoint mapSet (k : jsstring) (g : Group.t) (m : GroupMap) : GroupMap :=
  match m with
  | [] => [(k, g)]
  | (k', g') :: t =>
      if jsstring_eqb k k' then (k', g) :: t else (k', g') :: mapSet k g t
  end.

(** Assignments to the object obtained by [get]: the object stored under
    [k] is changed in place. *)
Fixpoint mapModify (k : jsstring) (f : Group.t -> Group.t) (m : GroupMap)
  : GroupMap :=
  match m with
  | [] => []
  | (k', g') :: t =>
      if jsstring_eqb k k' then (k', f g') :: t
      else (k', g') :: mapModify k f t
  end.

(** [group[image.timing] = image] *)
Definition setSlot (image : ImageInfo) (g : Group.t) : Group.t :=
  match timing image with
  | Before => {| Group.before := Some image; Group.after := Group.after g;
                 Group.order := Group.order g |}
  | After => {| Group.before := Group.before g; Group.after := Some image;
                Group.order := Group.order g |}
  | Standalone => g
  end.

(** [group.order = Math.min(group.order, image.order)] *)
Definition lowerOrder (image : ImageInfo) (g : Group.t) : Group.t :=
  {| Group.before := Group.before g; Group.after := Group.after g;
     Group.order := N.min (Group.order g) (order image) |}.

Record Grouping := {
  standaloneImages : list ImageInfo;
  pairedGroups : GroupMap
}.

(** [{ order: image.order }] *)
Definition freshGroup (image : ImageInfo) : Group.t :=
  {| Group.before := None; Group.after := None; Group.order := order image |}.

(** The body of the [for] loop. *)
Definition groupStep (acc : Grouping) (image : ImageInfo) : Grouping :=
  match timing image with
  | Standalone =>
      {| standaloneImages := standaloneImages acc ++ [image];
         pairedGroups := pairedGroups acc |}
  | _ =>
      let created :=
        if mapHas (category image) (pairedGroups acc) then pairedGroups acc
        else mapSet (category image) (freshGroup image) (pairedGroups acc) in
      {| standaloneImages := standaloneImages acc;
         pairedGroups :=
           mapModify (category image)
                     (fun g => lowerOrder image (setSlot image g)) created |}
  end.

Definition emptyGrouping : Grouping :=
  {| standaloneImages := []; pairedGroups := [] |}.

Definition groupImagesByCategory (images : list ImageInfo) : Grouping :=
  fold_left groupStep images emptyGrouping.

(** The records of a grouping as one sequence: the standalone records,
    then, group by group in the order of the map, the record of the
    before slot and the record of the after slot. *)
Definition slotRecords (g : Group.t) : list ImageInfo :=
  match Group.before g with Some r => [r] | None => [] end ++
  match Group.after g with Some r => [r] | None => [] end.

Definition flattenGrouping (g : Grouping) : list ImageInfo :=
  standaloneImages g ++ flat_map (fun kg => slotRecords (snd kg)) (pairedGroups g).

(** The slot of a group that a timing names. *)
Definition slotOf (t : Timing) (g : Group.t) : option ImageInfo :=
  match t with
  | Before => Group.before g
  | After => Group.after g
  | Standalone => None
  end.

(** What the records in the slots of the group under key [k] must be. *)
Definition slotsAgree (k : jsstring) (g : Group.t) : Prop :=
  (forall r, Group.before g = Some r -> timing r = Before /\ category r = k) /\
  (forall r, Group.after g = Some r -> timing r = After /\ category r = k).

Definition someSlotFilled (g : Group.t) : Prop :=
  Group.before g <> None \/ Group.after g <> None.

Definition groupWellFormed (kg : jsstring * Group.t) : Prop :=
  someSlotFilled (snd kg) /\ slotsAgree (fst kg) (snd kg).

(** The order that the records in the slots give: their minimum (the
    stored order when both slots are empty). *)
Definition slotOrder (g : Group.t) : N :=
  match Group.before g, Group.after g with
  | Some b, Some a => N.min (order b) (order a)
  | Some b, None => order b
  | None, Some a => order a
  | None, None => Group.order g
  end.

Definition withSlotOrder (g : Group.t) : Group.t :=
  {| Group.before := Group.before g; Group.after := Group.after g;
     Group.order := slotOrder g |}.

Definition withSlotOrders (G : Grouping) : Grouping :=
  {| standaloneImages := standaloneImages G;
     pairedGroups := map (fun kg => (fst kg, withSlotOrder (snd kg)))
                         (pairedGroups G) |}.

(** A record contributes to the group of category [c] when its timing is
    before or after and its category is [c]. *)
Definition contributes (c : jsstring) (r : ImageInfo) : Prop :=
  timing r <> Standalone /\ category r = c.

(** ** Sample records, as the extractors build them *)

Definition firstBefore : ImageInfo := imageOf (js "1 x_before") (js "a.png").
Definition secondBefore : ImageInfo := imageOf (js "2 x_before") (js "b.png").
Definition thirdAfter : ImageInfo := imageOf (js "3 x_after") (js "c.png").
Definition loneImage : ImageInfo := imageOf (js "4 y") (js "d.png").

(** Ascending order of the [order] field. *)
Definition orderLe (a b : ImageInfo) : Prop := (order a <= order b)%N.

Definition hasOrder (k : N) (r : ImageInfo) : bool := (order r =? k)%N.

(** ** The slash-slug shape

    The shape in the words of the specification: letters, a hyphen, digits,
    an optional segment that starts with a hyphen and has no slash, a
    slash, and a non-empty rest. *)
Definition slashSlugShape (letters digits segment rest : jsstring) : Prop :=
  letters <> [] /\ forallb isAlpha letters = true /\
  digits <> [] /\ forallb isDigit digits = true /\
  (segment = [] \/
   exists x, segment = "-"%char :: x /\ forallb notSlash x = true) /\
  rest <> [].

(** The shape that the pattern of the code accepts: the segment, when
    there is one, has a character after its hyphen, and the rest has no
    line terminator. *)
Definition slashSlugAccepted (letters digits segment rest : jsstring) : Prop :=
  letters <> [] /\ forallb isAlpha letters = true /\
  digits <> [] /\ forallb isDigit digits = true /\
  (segment = [] \/
   exists x, segment = "-"%char :: x /\ x <> [] /\ forallb notSlash x = true) /\
  rest <> [] /\ forallb (fun c => negb (isLineTerminator c)) rest = true.

Definition slashSlug (letters digits segment rest : jsstring) : jsstring :=
  letters ++ js "-" ++ digits ++ segment ++ js "/" ++ rest.

(** The feature name after the ticket identifier and the part suffix. *)
Definition featureSuffix (featureWords : list jsstring) : jsstring :=
  match featureWords with
  | [] => []
  | _ :: _ => js " " ++ capitalize (join (js " ") featureWords)
  end.

(** A slug with a line feed in its rest: it has the shape that the
    specification words, not the shape that the pattern accepts. *)
Definition twoLineSlug : jsstring :=
  slashSlug (js "MB") (js "95") [] (js "a" ++ [ascii_of_nat 10] ++ js "b").

(** ** Timing words *)

(** The word before or the word after, in any case. *)
Definition isTimingWord (w : jsstring) : Prop :=
  toLowerCase w = js "before" \/ toLowerCase w = js "after".

Definition timingOfWord (w : jsstring) : Timing :=
  if jsstring_eqb (toLowerCase w) (js "before") then Before else After.

Definition isSpaceOrUnderscore (c : ascii) : bool :=
  isSpace c || ascii_eqb c "_"%char.

(** ** The two documents of one image *)

(** The tag with the label as the alt attribute and the source as the src
    attribute, both between double quotes. *)
Definition tagDocument (A U : jsstring) : jsstring :=
  js "<img alt=" ++ dquote :: A ++ dquote :: js " src=" ++ dquote :: U
    ++ dquote :: js ">".

(** The link: an exclamation mark, the label between brackets, the source
    between parentheses. *)
Definition linkDocument (A U : jsstring) : jsstring :=
  js "![" ++ A ++ js "](" ++ U ++ js ")".

(** No closing bracket of [s] is unescaped: each one comes after a
    backslash; [prev] is the character before [s]. *)
Fixpoint bracketsEscaped (prev : ascii) (s : jsstring) : bool :=
  match s with
  | [] => true
  | c :: t =>
      negb (ascii_eqb c "]"%char && negb (ascii_eqb prev "\"%char))
      && bracketsEscaped c t
  end.

Definition notParen (c : ascii) : bool :=
  negb (ascii_eqb c "("%char) && negb (ascii_eqb c ")"%char).

(** The labels and the sources in the words of the specification. *)
Definition claimedLabel (A : jsstring) : Prop :=
  A <> [] /\ forallb notQuote A = true /\ bracketsEscaped "["%char A = true.

Definition claimedSource (U : jsstring) : Prop :=
  U <> [] /\ forallb (fun c => negb (isSpace c)) U = true
  /\ forallb notParen U = true.

(** [s] ends with [p], up to ASCII case. *)
Definition endsWithCI (p s : jsstring) : bool :=
  jsstring_eqb (toLowerCase (skipn (length s - length p) s)) (toLowerCase p).

(** The labels on which the two modes agree: moreover no closing angle
    bracket, no backslash at the end, and the label does not end with the
    name of the src attribute and an equals sign. *)
Definition agreeingLabel (A : jsstring) : Prop :=
  claimedLabel A /\ forallb notGt A = true
  /\ last A "["%char <> "\"%char
  /\ endsWithCI (js "src=") A = false.

(** The sources on which the two modes agree: moreover no double quote, no
    closing angle bracket, and no opening angle bracket at the start. *)
Definition agreeingSource (U : jsstring) : Prop :=
  claimedSource U /\ forallb notQuote U = true /\ forallb notGt U = true
  /\ hd " "%char U <> "<"%char.


(** ** Where the embedding is exact

    The character classes of the embedding are the ASCII parts of the
    classes of the code: outside ASCII the whitespace class of the code
    (and with it [trim] and the splitting on whitespace) has further
    members, the dot of a pattern refuses two further line separators, and
    the case conversions change further letters and may change the length.
    The order of a record is a double in the code: the value of a digit run
    is held exactly up to 2^53.  Properties whose inputs reach these
    classes are stated for ASCII text and for exact numbers. *)

Definition isAsciiChar (c : ascii) : bool := Nat.ltb (code c) 128.

Definition isAsciiText (s : jsstring) : Prop := forallb isAsciiChar s = true.

(** The integers that a double holds exactly: up to 2^53. *)
Definition isExactNumber (n : N) : Prop := (n <= 9007199254740992)%N.

(** The order prefix of a label, when it has one, is held exactly. *)
Definition hasExactOrder (label : jsstring) : Prop :=
  isExactNumber (pf_order (parseFilename label)).

(** ** Further definitions used to state properties of the parsers *)


Definition notUnderscore (c : ascii) : bool := negb (ascii_eqb c "_"%char).


(** The optional dot of the order prefix. *)
Definition isOptionalDot (dot : jsstring) : Prop :=
  dot = [] \/ dot = ["."%char].

(** The first character of [s], when there is one, fails [p]. *)
Definition headFails (p : ascii -> bool) (s : jsstring) : Prop :=
  match s with
  | [] => True
  | c :: _ => p c = false
  end.

(** The last character of [s], when there is one, fails [p]. *)
Definition lastFails (p : ascii -> bool) (s : jsstring) : Prop :=
  headFails p (rev s).

(** A word as whitespace splitting yields it: not empty, no whitespace. *)
Definition isWord (w : jsstring) : Prop :=
  w <> [] /\ forallb (fun c => negb (isSpace c)) w = true.

Definition notHyphen (c : ascii) : bool := negb (ascii_eqb c "-"%char).

(** The hyphen slug: letters, a hyphen, digits, a hyphen and the rest. *)
Definition hyphenSlug (letters digits rest : jsstring) : jsstring :=
  letters ++ js "-" ++ digits ++ js "-" ++ rest.

(** ** Documents of several images *)

Definition notLt (c : ascii) : bool := negb (ascii_eqb c "<"%char).
Definition notBang (c : ascii) : bool := negb (ascii_eqb c "!"%char).

(** The record of a pair of a label and a source. *)
Definition imageOfPair (p : jsstring * jsstring) : ImageInfo :=
  imageOf (fst p) (snd p).

(** One tag per pair, each followed by the separator [sep]. *)
Definition tagDocuments (sep : jsstring) (l : list (jsstring * jsstring)) : jsstring :=
  flat_map (fun p => tagDocument (fst p) (snd p) ++ sep) l.

(** One link per pair, each followed by the separator [sep]. *)
Definition linkDocuments (sep : jsstring) (l : list (jsstring * jsstring)) : jsstring :=
  flat_map (fun p => linkDocument (fst p) (snd p) ++ sep) l.

Definition agreeingPair (p : jsstring * jsstring) : Prop :=
  agreeingLabel (fst p) /\ agreeingSource (snd p).

(** A label and a source in ASCII, the order of the label held exactly. *)
Definition exactPair (p : jsstring * jsstring) : Prop :=
  isAsciiText (fst p) /\ hasExactOrder (fst p) /\ isAsciiText (snd p).

(** ** Links *)

(** The parentheses of [s] are balanced when read at nesting depth
    [depth]: no closing parenthesis is read at depth zero and the depth is
    zero at the end. *)
Fixpoint parensBalanced (depth : nat) (s : jsstring) : bool :=
  match s with
  | [] => depth =? 0
  | c :: t =>
      if ascii_eqb c "("%char then parensBalanced (S depth) t
      else if ascii_eqb c ")"%char then
        match depth with
        | 0 => false
        | S d => parensBalanced d t
        end
      else parensBalanced depth t
  end.

(** A link: the marker, the label, the closing bracket, optional
    whitespace, and the text [inner] between parentheses. *)
Definition linkForm (A gap inner : jsstring) : jsstring :=
  js "![" ++ A ++ "]"%char :: gap ++ "("%char :: inner ++ [")"%char].

(** The label ends at the bracket that follows it: it has no unescaped
    closing bracket and does not end with a backslash. *)
Definition closedLabel (A : jsstring) : Prop :=
  bracketsEscaped "["%char A = true /\ last A "["%char <> "\"%char.

(** The records that a link with the label [A] and the text [inner]
    between its parentheses gives. *)
Definition linkRecords (A inner : jsstring) : list ImageInfo :=
  if negb (isEmpty A) && negb (isEmpty (linkSource (trim inner)))
  then [imageOf A (linkSource (trim inner))] else [].

(** Sample labels and sources. *)
Definition samplePairs : list (jsstring * jsstring) :=
  [(js "2 Login_after", js "shots/b.png"); (js "1. Login_before", js "shots/a.png")].

Definition lineFeed : jsstring := [ascii_of_nat 10].

(** ** Grouping *)

Definition isStandalone (r : ImageInfo) : bool := Timing_eqb (timing r) Standalone.

(** [r] has the category [c] and the timing [t]. *)
Definition matchesSlot (c : jsstring) (t : Timing) (r : ImageInfo) : bool :=
  jsstring_eqb (category r) c && Timing_eqb (timing r) t.

(** The keys of [ks] without repetition, each at the place of its first
    occurrence. *)
Fixpoint firstSeen (ks : list jsstring) : list jsstring :=
  match ks with
  | [] => []
  | k :: t => k :: filter (fun k' => negb (jsstring_eqb k' k)) (firstSeen t)
  end.

(** The orders of the groups, in the order of the map. *)
Definition groupOrders (m : GroupMap) : list N :=
  map (fun kg => Group.order (snd kg)) m.

(** ** Category titles ([src/images/mod.ts], [formatCategoryTitle]) *)

(** [String.prototype.split] with the underscore as separator: the pieces
    between the underscores, empty pieces included. *)
Fixpoint splitUnderscore (s : jsstring) : list jsstring :=
  match s with
  | [] => [[]]
  | c :: t =>
      if ascii_eqb c "_"%char then [] :: splitUnderscore t
      else match splitUnderscore t with
           | p :: ps => (c :: p) :: ps
           | [] => [[c]]
           end
  end.

Definition formatCategoryTitle (category : jsstring) : jsstring :=
  join (js " ") (map capitalize (splitUnderscore category)).

(** ** Table renderer ([src/table/mod.ts], [generateTable]) *)

Definition newline : jsstring := [ascii_of_nat 10].

(** [([, a], [, b]) => a.order - b.order] *)
Definition compareGroupOrder (a b : jsstring * Group.t) : Z :=
  (Z.of_N (Group.order (snd a)) - Z.of_N (Group.order (snd b)))%Z.

Definition rowOpen : jsstring := js "  <tr>" ++ newline.
Definition rowClose : jsstring := js "  </tr>" ++ newline.

Definition headerCell (title : jsstring) : jsstring :=
  js "    <th>" ++ title ++ js "</th>" ++ newline.

Definition emptyHeaderCell : jsstring := js "    <th></th>" ++ newline.

Definition imageCell (image : ImageInfo) : jsstring :=
  js "    <td><img src=" ++ dquote :: src image ++ dquote :: js " alt="
    ++ dquote :: alt image ++ dquote :: js " width=" ++ dquote :: js "400"
    ++ dquote :: js "></td>" ++ newline.

Definition emptyCell : jsstring := js "    <td></td>" ++ newline.

(** The body of the first loop, for the images at [i] and [i + 1]. *)
Definition standaloneRowPair (image1 : ImageInfo) (image2 : option ImageInfo)
  : jsstring :=
  rowOpen
    ++ headerCell (formatCategoryTitle (category image1))
    ++ match image2 with
       | Some i2 => headerCell (formatCategoryTitle (category i2))
       | None => emptyHeaderCell
       end
    ++ rowClose
    ++ rowOpen
    ++ imageCell image1
    ++ match image2 with
       | Some i2 => imageCell i2
       | None => emptyCell
       end
    ++ rowClose.

(** [for (let i = 0; i < standaloneImages.length; i += 2)] *)
Fixpoint standaloneRows (standaloneImages : list ImageInfo) : jsstring :=
  match standaloneImages with
  | [] => []
  | [image1] => standaloneRowPair image1 None
  | image1 :: image2 :: rest =>
      standaloneRowPair image1 (Some image2) ++ standaloneRows rest
  end.

Definition slotCell (slot : option ImageInfo) : jsstring :=
  match slot with
  | Some image => imageCell image
  | None => emptyCell
  end.

(** The body of the second loop. *)
Definition groupRows (entry : jsstring * Group.t) : jsstring :=
  rowOpen
    ++ (js "    <th colspan=" ++ dquote :: js "2" ++ dquote :: js ">"
          ++ formatCategoryTitle (fst entry) ++ js "</th>" ++ newline)
    ++ rowClose
    ++ rowOpen
    ++ (js "    <th>Before</th>" ++ newline)
    ++ (js "    <th>After</th>" ++ newline)
    ++ rowClose
    ++ rowOpen
    ++ slotCell (Group.before (snd entry))
    ++ slotCell (Group.after (snd entry))
    ++ rowClose.

Definition tableOpen : jsstring :=
  js "<details><summary>Click to expand...</summary>" ++ newline
    ++ js "<table>" ++ newline.

Definition tableClose : jsstring := js "</table></details>".

Definition generateTable (standaloneImages : list ImageInfo)
    (pairedGroups : GroupMap) : jsstring :=
  let sortedPairedGroups := sortBy compareGroupOrder pairedGroups in
  tableOpen
    ++ standaloneRows standaloneImages
    ++ flat_map groupRows sortedPairedGroups
    ++ tableClose.

(** [x] occurs in [s] as a contiguous part. *)
Definition isInfix (x s : jsstring) : Prop :=
  exists a b, s = a ++ x ++ b.

(** ** The conversion command ([convertClipboard])

    The command is modelled by the sequence of its calls into the clipboard
    module and the system module.  What the command cannot see in its own
    text is a parameter: what [pbpaste] returns (or that it fails), whether
    [pbcopy] succeeds, and whether the program runs from the application
    bundle.  The two failures are the ones that the clipboard module
    raises; the commands of the system module are taken to complete. *)

Record System := {
  pbpaste : option jsstring;
  pbcopyWorks : bool;
  isRunningFromApp : bool
}.

Inductive DialogType := InfoDialog | ErrorDialog.

Inductive Event :=
| ShowProgress (message : jsstring)
| ShowDialog (message title : jsstring) (type : DialogType)
| WriteClipboard (content : jsstring)
| PasteResult
| ConsoleError (errorMessage : jsstring)
| Exit (code : Z).

(** How a piece of the command ends: with a value, with a raised error, or
    with the process gone ([Deno.exit]). *)
Inductive Result (A : Type) :=
| Value (a : A)
| Throw (message : jsstring)
| Halt.
Arguments Throw {A} message.
Arguments Halt {A}.

(** A piece of the command: the calls it made, and how it ended. *)
Definition Run (A : Type) : Type := list Event * Result A.

Definition ret (A : Type) (a : A) : Run A := ([], Value a).

Definition bind (A B : Type) (m : Run A) (k : A -> Run B) : Run B :=
  match m with
  | (events, Value a) => let (more, r) := k a in (events ++ more, r)
  | (events, Throw message) => (events, Throw message)
  | (events, Halt) => (events, Halt)
  end.

Notation "x <- m ;; k" := (bind m (fun x => k))
  (at level 61, m at next level, right associativity).
Notation "m ;; k" := (bind m (fun _ => k))
  (at level 61, right associativity).

Definition emit (e : Event) : Run unit := ([e], Value tt).
Definition throw (A : Type) (message : jsstring) : Run A := ([], Throw message).
Definition exit (A : Type) (code : Z) : Run A := ([Exit code], Halt).

Definition showProgress (message : jsstring) : Run unit := emit (ShowProgress message).
Definition showDialog (message title : jsstring) (type : DialogType) : Run unit :=
  emit (ShowDialog message title type).
Definition pasteResult : Run unit := emit PasteResult.

Definition readClipboard (sys : System) : Run jsstring :=
  match pbpaste sys with
  | Some output => ret output
  | None => throw jsstring (js "Failed to read clipboard")
  end.

Definition writeClipboard (sys : System) (content : jsstring) : Run unit :=
  emit (WriteClipboard content) ;;
  if pbcopyWorks sys then ret tt else throw unit (js "Failed to write to clipboard").

(** [s.startsWith(prefix)] *)
Definition startsWith (prefix s : jsstring) : bool :=
  jsstring_eqb (firstn (length prefix) s) prefix.

Fixpoint digitsOf (u : Decimal.uint) : jsstring :=
  match u with
  | Decimal.Nil => []
  | Decimal.D0 u => "0"%char :: digitsOf u
  | Decimal.D1 u => "1"%char :: digitsOf u
  | Decimal.D2 u => "2"%char :: digitsOf u
  | Decimal.D3 u => "3"%char :: digitsOf u
  | Decimal.D4 u => "4"%char :: digitsOf u
  | Decimal.D5 u => "5"%char :: digitsOf u
  | Decimal.D6 u => "6"%char :: digitsOf u
  | Decimal.D7 u => "7"%char :: digitsOf u
  | Decimal.D8 u => "8"%char :: digitsOf u
  | Decimal.D9 u => "9"%char :: digitsOf u
  end.

(** A count inside a template string: its decimal digits. *)
Definition decimal (n : nat) : jsstring := digitsOf (Nat.to_uint n).

(** The end of both successful modes. *)
Definition finish (sys : System) : Run unit :=
  if isRunningFromApp sys then pasteResult ;; exit unit 0%Z else ret tt.

(** The body of the [try]. *)
Definition convertBody (sys : System) : Run unit :=
  showProgress (js "Reading clipboard content...") ;;
  clipboardContent <- readClipboard sys ;;
  if isEmpty (trim clipboardContent) then
    showDialog (js "Clipboard is empty. Please copy some content first.")
               (js "No Content") ErrorDialog
  else
    let trimmedClipboard := trim clipboardContent in
    let isImageSnippet :=
      startsWith (js "<img") trimmedClipboard || startsWith (js "![") trimmedClipboard in
    if negb isImageSnippet then
      showProgress (js "Parsing PR title...") ;;
      let formattedTitle := parsePRTitle clipboardContent in
      if isEmpty formattedTitle then
        showDialog (js "Could not parse PR title. Please check the format.")
                   (js "Parse Error") ErrorDialog
      else
        showProgress (js "Writing formatted title to clipboard...") ;;
        writeClipboard sys formattedTitle ;;
        showDialog (js "Successfully formatted PR title!" ++ newline ++ newline
                      ++ js "Result: " ++ formattedTitle)
                   (js "Success") InfoDialog ;;
        finish sys
    else
      showProgress (js "Parsing images...") ;;
      let images := parseImagesFromClipboard clipboardContent in
      if (length images =? 0)%nat then
        showDialog (js "No valid images found in clipboard content. Make sure your clipboard starts with <img ...> tags or Markdown images like ![alt](src).")
                   (js "No Images Found") ErrorDialog
      else
        showProgress (js "Found " ++ decimal (length images)
                        ++ js " images, grouping by category...") ;;
        let grouping := groupImagesByCategory images in
        showProgress (js "Generating table...") ;;
        let tableHtml := generateTable (standaloneImages grouping) (pairedGroups grouping) in
        showProgress (js "Writing result to clipboard...") ;;
        writeClipboard sys tableHtml ;;
        let totalCategories :=
          (length (standaloneImages grouping) + length (pairedGroups grouping))%nat in
        showDialog (js "Successfully converted clipboard content to table format!"
                      ++ newline ++ js "Processed " ++ decimal totalCategories
                      ++ js " categories with " ++ decimal (length images)
                      ++ js " images.")
                   (js "Success") InfoDialog ;;
        finish sys.

(** The [catch] block. *)
Definition handleError (sys : System) (errorMessage : jsstring) : list Event :=
  ShowDialog (js "An error occurred: " ++ errorMessage) (js "Error") ErrorDialog
  :: (if isRunningFromApp sys then [Exit 1%Z]
      else [ConsoleError errorMessage; Exit 1%Z]).

(** The calls of one run of the command, in order. *)
Definition convertClipboard (sys : System) : list Event :=
  match convertBody sys with
  | (events, Throw errorMessage) => events ++ handleError sys errorMessage
  | (events, _) => events
  end.

Definition isDialog (e : Event) : bool :=
  match e with ShowDialog _ _ _ => true | _ => false end.

Definition isWrite (e : Event) : bool :=
  match e with WriteClipboard _ => true | _ => false end.

Definition isExit (e : Event) : bool :=
  match e with Exit _ => true | _ => false end.

Definition hasTitle (title : jsstring) (e : Event) : bool :=
  match e with ShowDialog _ t _ => jsstring_eqb t title | _ => false end.

Definition isSuccessDialog (e : Event) : bool :=
  match e with ShowDialog _ _ InfoDialog => true | _ => false end.

(** The contents that a run hands to [pbcopy]. *)
Definition written (events : list Event) : list jsstring :=
  flat_map (fun e => match e with WriteClipboard content => [content] | _ => [] end) events.

Definition exitsWith (code : Z) (e : Event) : bool :=
  match e with Exit c => (c =? code)%Z | _ => false end.

Definition isPaste (e : Event) : bool :=
  match e with PasteResult => true | _ => false end.

(** The clipboard text is taken for an image snippet. *)
Definition isImageSnippet (clipboardContent : jsstring) : bool :=
  startsWith (js "<img") (trim clipboardContent)
  || startsWith (js "![") (trim clipboardContent).

(** * Properties *)

(** ** The examples of the documentation and of the test suite *)

Example parseFilename_doc1 :
  parseFilename (js "1. Feature_1_before")
  = {| pf_order := 1; pf_timing := Before; formattedAlt := js "Feature 1" |}.
Proof. reflexivity. Qed.

Example parseFilename_doc4 :
  parseFilename (js "4feature54_after")
  = {| pf_order := 4; pf_timing := After; formattedAlt := js "feature54" |}.
Proof. reflexivity. Qed.

Example parseFilename_ext :
  parseFilename (js "OTFB card after.JPG")
  = {| pf_order := 0; pf_timing := After; formattedAlt := js "OTFB card" |}.
Proof. reflexivity. Qed.

Example parseFilename_standalone :
  parseFilename (js "3 Feature 32")
  = {| pf_order := 3; pf_timing := Standalone; formattedAlt := js "Feature 32" |}.
Proof. reflexivity. Qed.

Example parsePRTitle_t1 :
  parsePRTitle (js "Mb 80 group by parking lot") = js "[MB-80] Group by parking lot".
Proof. reflexivity. Qed.

Example parsePRTitle_t2 :
  parsePRTitle (js "Saas 1234 feature name part 1") = js "[SAAS-1234] [PART-1] Feature name".
Proof. reflexivity. Qed.

Example parsePRTitle_t3 :
  parsePRTitle (js "no ticket feature name") = js "[no-ticket] Feature name".
Proof. reflexivity. Qed.

Example parsePRTitle_t4 :
  parsePRTitle (js "Noticket feature name") = js "[no-ticket] Feature name".
Proof. reflexivity. Qed.

Example parsePRTitle_t5 : parsePRTitle (js "MB 123") = js "[MB-123]".
Proof. reflexivity. Qed.

Example parsePRTitle_t6 :
  parsePRTitle (js "  Saas  1234   feature   name  ") = js "[SAAS-1234] Feature name".
Proof. reflexivity. Qed.

Example parsePRTitle_t7 :
  parsePRTitle (js "MB-95-remove-minimum-constraint-on-start-date")
  = js "[MB-95] Remove minimum constraint on start date".
Proof. reflexivity. Qed.

Example parsePRTitle_t8 : parsePRTitle (js "Mb 80 part 2") = js "[MB-80] [PART-2]".
Proof. reflexivity. Qed.

Example parsePRTitle_t9 :
  parsePRTitle (js "Mb 80 this is part of the feature") = js "[MB-80] This is part of the feature".
Proof. reflexivity. Qed.

Example parsePRTitle_t10 :
  parsePRTitle (js "Mb 80 part 1 of the feature part 2") = js "[MB-80] [PART-2] Part 1 of the feature".
Proof. reflexivity. Qed.

Example parsePRTitle_t11 :
  parsePRTitle (js "MB-95-preferred-times/remove-minimum-constraint-on-start-date")
  = js "[MB-95] Remove minimum constraint on start date".
Proof. reflexivity. Qed.

Example parsePRTitle_t12 : parsePRTitle (js "") = js "[]".
Proof. reflexivity. Qed.

Example parseImagesMarkdown_parentheses :
  parseImagesMarkdown (js "![X after](https://example.com/a_(b).png)")
  = [{| alt := js "X"; src := js "https://example.com/a_(b).png";
        category := js "X"; timing := After; order := 0 |}].
Proof. reflexivity. Qed.

Example parseImagesMarkdown_two_lines :
  parseImagesMarkdown
    (js "![OTFB card before.png](url1.jpg)" ++ [ascii_of_nat 10; ascii_of_nat 10]
       ++ js "![OTFB card after.png](url2.jpg)")
  = [{| alt := js "OTFB card"; src := js "url1.jpg"; category := js "OTFB card";
        timing := Before; order := 0 |};
     {| alt := js "OTFB card"; src := js "url2.jpg"; category := js "OTFB card";
        timing := After; order := 0 |}].
Proof. reflexivity. Qed.

Example parseImagesMarkdown_angle_brackets :
  map src (parseImagesMarkdown (js "![a](<x y.png> title) ![b](  u  t) ![](v) ![c] (w)"))
  = [js "x y.png"; js "u"; js "w"].
Proof. reflexivity. Qed.

Example parseImages_sorts_by_prefix :
  map (fun r => (order r, alt r, timing r))
      (parseImages (tagDocument (js "4feature54_after") (js "4.jpg") ++ js " "
                      ++ tagDocument (js "2.Feature 25_before") (js "2.jpg") ++ js " "
                      ++ tagDocument (js "3 Feature 32") (js "3.jpg") ++ js " "
                      ++ tagDocument (js "1. Feature_1_before") (js "1.jpg")))
  = [(1%N, js "Feature 1", Before); (2%N, js "Feature 25", Before);
     (3%N, js "Feature 32", Standalone); (4%N, js "feature54", After)].
Proof. reflexivity. Qed.

Example parseImages_without_prefix :
  map (fun r => (order r, alt r, timing r))
      (parseImages (tagDocument (js "standalone1") (js "img1.jpg")
                      ++ tagDocument (js "category_before") (js "img3.jpg")
                      ++ tagDocument (js "category_after") (js "img4.jpg")))
  = [(0%N, js "standalone1", Standalone); (0%N, js "category", Before);
     (0%N, js "category", After)].
Proof. reflexivity. Qed.

Example parseImagesFromClipboard_both :
  parseImagesFromClipboard (tagDocument (js "1. Feature_1_before") (js "1.jpg"))
  = parseImagesFromClipboard (linkDocument (js "1. Feature_1_before") (js "1.jpg")).
Proof. reflexivity. Qed.

Example groupImagesByCategory_pair :
  groupImagesByCategory [firstBefore; loneImage; thirdAfter]
  = {| standaloneImages := [loneImage];
       pairedGroups := [(js "x", {| Group.before := Some firstBefore;
                                    Group.after := Some thirdAfter;
                                    Group.order := 1 |})] |}.
Proof. reflexivity. Qed.

Example formatCategoryTitle_test :
  formatCategoryTitle (js "Feature 1") = js "Feature 1" /\
  formatCategoryTitle (js "my_long_category") = js "My Long Category".
Proof. split; reflexivity. Qed.

Example generateTable_one_of_each :
  generateTable [loneImage]
    [(js "x", {| Group.before := Some firstBefore; Group.after := None;
                 Group.order := 1 |})]
  = tableOpen
      ++ js "  <tr>" ++ newline
      ++ js "    <th>Y</th>" ++ newline
      ++ js "    <th></th>" ++ newline
      ++ js "  </tr>" ++ newline
      ++ js "  <tr>" ++ newline
      ++ imageCell loneImage
      ++ js "    <td></td>" ++ newline
      ++ js "  </tr>" ++ newline
      ++ js "  <tr>" ++ newline
      ++ (js "    <th colspan=" ++ dquote :: js "2" ++ dquote :: js ">X</th>") ++ newline
      ++ js "  </tr>" ++ newline
      ++ js "  <tr>" ++ newline
      ++ js "    <th>Before</th>" ++ newline
      ++ js "    <th>After</th>" ++ newline
      ++ js "  </tr>" ++ newline
      ++ js "  <tr>" ++ newline
      ++ imageCell firstBefore
      ++ js "    <td></td>" ++ newline
      ++ js "  </tr>" ++ newline
      ++ js "</table></details>".
Proof. reflexivity. Qed.

(** Runs of the command. *)

Example convertClipboard_title_run :
  convertClipboard {| pbpaste := Some (js "feat/abc-12-add login");
                      pbcopyWorks := true; isRunningFromApp := false |}
  = [ShowProgress (js "Reading clipboard content...");
     ShowProgress (js "Parsing PR title...");
     ShowProgress (js "Writing formatted title to clipboard...");
     WriteClipboard (parsePRTitle (js "feat/abc-12-add login"));
     ShowDialog (js "Successfully formatted PR title!" ++ newline ++ newline
                   ++ js "Result: " ++ parsePRTitle (js "feat/abc-12-add login"))
                (js "Success") InfoDialog].
Proof. vm_compute. reflexivity. Qed.

Example convertClipboard_read_failure :
  convertClipboard {| pbpaste := None; pbcopyWorks := true; isRunningFromApp := true |}
  = [ShowProgress (js "Reading clipboard content...");
     ShowDialog (js "An error occurred: Failed to read clipboard") (js "Error") ErrorDialog;
     Exit 1%Z].
Proof. vm_compute. reflexivity. Qed.

Example convertClipboard_image_counts :
  existsb (fun e =>
    match e with
    | ShowDialog message _ _ =>
        jsstring_eqb message
          (js "Successfully converted clipboard content to table format!"
             ++ newline ++ js "Processed 2 categories with 3 images.")
    | _ => false
    end)
    (convertClipboard
       {| pbpaste := Some (js "![1 x_before](a.png) ![2 x_after](b.png) ![3 y](c.png)");
          pbcopyWorks := true; isRunningFromApp := true |}) = true.
Proof. vm_compute. reflexivity. Qed.
(** ** Strings and maps: basic facts *)

Lemma jsstring_eqb_spec (a b : jsstring) : reflect (a = b) (jsstring_eqb a b).
Proof.
  unfold jsstring_eqb. destruct (list_eq_dec ascii_dec a b); constructor; assumption.
Qed.

Lemma jsstring_eqb_refl (a : jsstring) : jsstring_eqb a a = true.
Proof. destruct (jsstring_eqb_spec a a); congruence. Qed.

Lemma jsstring_eqb_eq (a b : jsstring) : jsstring_eqb a b = true <-> a = b.
Proof. destruct (jsstring_eqb_spec a b); split; congruence. Qed.

Lemma jsstring_eqb_neq (a b : jsstring) : jsstring_eqb a b = false <-> a <> b.
Proof. destruct (jsstring_eqb_spec a b); split; congruence. Qed.

Lemma Timing_eqb_spec (a b : Timing) : reflect (a = b) (Timing_eqb a b).
Proof. destruct a, b; constructor; congruence. Qed.

Lemma mapHas_mapGet k m :
  mapHas k m = match mapGet k m with Some _ => true | None => false end.
Proof.
  induction m as [|[k' g] t IH]; simpl; [reflexivity|].
  destruct (jsstring_eqb k k'); simpl; auto.
Qed.

Lemma mapGet_mapSet c k g m :
  mapGet c (mapSet k g m) = if jsstring_eqb c k then Some g else mapGet c m.
Proof.
  induction m as [|[k' g'] t IH]; simpl.
  - reflexivity.
  - destruct (jsstring_eqb_spec k k') as [->|Hk]; simpl.
    + destruct (jsstring_eqb c k'); reflexivity.
    + rewrite IH. destruct (jsstring_eqb_spec c k') as [->|Hc].
      * apply jsstring_eqb_neq in Hk. 
        destruct (jsstring_eqb_spec k' k); [subst; rewrite jsstring_eqb_refl in Hk; discriminate | reflexivity].
      * reflexivity.
Qed.

Lemma mapGet_mapModify c k f m :
  mapGet c (mapModify k f m)
  = if jsstring_eqb c k then option_map f (mapGet c m) else mapGet c m.
Proof.
  induction m as [|[k' g'] t IH]; simpl.
  - destruct (jsstring_eqb c k); reflexivity.
  - destruct (jsstring_eqb_spec k k') as [->|Hk]; simpl.
    + destruct (jsstring_eqb c k'); reflexivity.
    + rewrite IH. destruct (jsstring_eqb_spec c k') as [->|Hc].
      * destruct (jsstring_eqb_spec k' k); [congruence | reflexivity].
      * reflexivity.
Qed.

Lemma group_snoc xs x :
  groupImagesByCategory (xs ++ [x]) = groupStep (groupImagesByCategory xs) x.
Proof. unfold groupImagesByCategory. rewrite fold_left_app. reflexivity. Qed.

(** The group stored under [c] after one more turn of the loop. *)
Lemma mapGet_groupStep acc x c :
  mapGet c (pairedGroups (groupStep acc x)) =
  if Timing_eqb (timing x) Standalone then mapGet c (pairedGroups acc)
  else if jsstring_eqb c (category x) then
    Some (lowerOrder x (setSlot x
            (match mapGet c (pairedGroups acc) with
             | Some g => g
             | None => freshGroup x
             end)))
  else mapGet c (pairedGroups acc).
Proof.
  unfold groupStep.
  assert (H : forall m,
    mapGet c (mapModify (category x) (fun g => lowerOrder x (setSlot x g))
       (if mapHas (category x) m then m
        else mapSet (category x) (freshGroup x) m))
    = if jsstring_eqb c (category x) then
        Some (lowerOrder x (setSlot x
            (match mapGet c m with Some g => g | None => freshGroup x end)))
      else mapGet c m).
  { intro m. rewrite mapGet_mapModify.
    destruct (jsstring_eqb_spec c (category x)) as [->|Hc].
    - rewrite mapHas_mapGet. destruct (mapGet (category x) m) eqn:E.
      + rewrite E. reflexivity.
      + rewrite mapGet_mapSet, jsstring_eqb_refl. reflexivity.
    - destruct (mapHas (category x) m); [reflexivity|].
      rewrite mapGet_mapSet. destruct (jsstring_eqb_spec c (category x)); congruence. }
  destruct (timing x); simpl; try apply H. reflexivity.
Qed.

Lemma slotOf_setSlot_same x g :
  timing x <> Standalone -> slotOf (timing x) (lowerOrder x (setSlot x g)) = Some x.
Proof. unfold setSlot. destruct (timing x); simpl; congruence. Qed.

Lemma slotOf_setSlot_other x t g :
  timing x <> t -> slotOf t (lowerOrder x (setSlot x g)) = slotOf t g.
Proof. unfold setSlot. destruct (timing x), t; simpl; congruence. Qed.

(** ** C6: the last record of a category and timing is the one stored *)

(** C6. When a record [r] with a timing other than standalone is followed
    by no record of the same category and the same timing, the group of its
    category holds exactly [r] in the slot of its timing, whatever records
    of that category and timing come before it: the grouping returns a
    result and the earlier ones are gone. *)
Theorem group_last_write_wins (pre post : list ImageInfo) (r : ImageInfo) :
  timing r <> Standalone ->
  Forall (fun r' => ~ (category r' = category r /\ timing r' = timing r)) post ->
  exists g,
    mapGet (category r) (pairedGroups (groupImagesByCategory (pre ++ r :: post)))
    = Some g
    /\ slotOf (timing r) g = Some r.
Proof.
  intros Hr. induction post as [|x post IH] using rev_ind; intro Hpost.
  - rewrite group_snoc, mapGet_groupStep.
    destruct (Timing_eqb_spec (timing r) Standalone); [contradiction|].
    rewrite jsstring_eqb_refl. eexists; split; [reflexivity|].
    apply slotOf_setSlot_same; assumption.
  - apply Forall_app in Hpost. destruct Hpost as [Hpost Hx].
    inversion Hx as [|? ? Hx' _]; subst.
    destruct (IH Hpost) as [g [Hg Hs]].
    replace (pre ++ r :: post ++ [x]) with ((pre ++ r :: post) ++ [x])
      by (rewrite <- app_assoc; reflexivity).
    rewrite group_snoc, mapGet_groupStep, Hg.
    destruct (Timing_eqb_spec (timing x) Standalone); [eauto|].
    destruct (jsstring_eqb_spec (category r) (category x)) as [Hc|Hc]; [|eauto].
    eexists; split; [reflexivity|].
    rewrite slotOf_setSlot_other; [assumption|].
    intro Ht. apply Hx'. split; congruence.
Qed.

(** ** The shape of the map after one turn of the loop *)

Lemma mapHas_false_keys k m : mapHas k m = false <-> ~ In k (map fst m).
Proof.
  induction m as [|[k' g] t IH]; simpl.
  - split; auto.
  - destruct (jsstring_eqb_spec k k') as [->|Hk]; simpl.
    + split; [discriminate | intro H; exfalso; apply H; auto].
    + rewrite IH. split; [intros H [E|I]; [congruence | auto] | auto].
Qed.

Lemma mapModify_keys k f m : map fst (mapModify k f m) = map fst m.
Proof.
  induction m as [|[k' g] t IH]; simpl; [reflexivity|].
  destruct (jsstring_eqb k k'); simpl; congruence.
Qed.

Lemma mapModify_mapSet_fresh k f g m :
  mapHas k m = false -> mapModify k f (mapSet k g m) = m ++ [(k, f g)].
Proof.
  induction m as [|[k' g'] t IH]; simpl.
  - rewrite jsstring_eqb_refl. reflexivity.
  - destruct (jsstring_eqb k k') eqn:E; simpl; [discriminate|].
    rewrite E. intro H. rewrite IH by assumption. reflexivity.
Qed.

Lemma mapModify_last k f g m :
  ~ In k (map fst m) -> mapModify k f (m ++ [(k, g)]) = m ++ [(k, f g)].
Proof.
  induction m as [|[k' g'] t IH]; simpl; intro H.
  - rewrite jsstring_eqb_refl. reflexivity.
  - destruct (jsstring_eqb_spec k k') as [->|Hk]; [exfalso; auto|].
    rewrite IH by auto. reflexivity.
Qed.

Lemma mapHas_last k g m : mapHas k (m ++ [(k, g)]) = true.
Proof.
  induction m as [|[k' g'] t IH]; simpl.
  - rewrite jsstring_eqb_refl. reflexivity.
  - rewrite IH. apply orb_true_r.
Qed.

Lemma groupStep_paired acc x :
  timing x <> Standalone ->
  groupStep acc x =
  {| standaloneImages := standaloneImages acc;
     pairedGroups :=
       if mapHas (category x) (pairedGroups acc)
       then mapModify (category x) (fun g => lowerOrder x (setSlot x g))
                      (pairedGroups acc)
       else pairedGroups acc
              ++ [(category x, lowerOrder x (setSlot x (freshGroup x)))] |}.
Proof.
  intro Hx. unfold groupStep.
  destruct (mapHas (category x) (pairedGroups acc)) eqn:E.
  - destruct (timing x); congruence.
  - rewrite mapModify_mapSet_fresh by exact E. destruct (timing x); congruence.
Qed.

Lemma groupStep_standalone acc x :
  timing x = Standalone ->
  groupStep acc x =
  {| standaloneImages := standaloneImages acc ++ [x];
     pairedGroups := pairedGroups acc |}.
Proof. intro Hx. unfold groupStep. rewrite Hx. reflexivity. Qed.

Lemma Forall_mapModify (P : jsstring * Group.t -> Prop) k f m :
  (forall g, P (k, g) -> P (k, f g)) ->
  Forall P m -> Forall P (mapModify k f m).
Proof.
  intros Hf. induction m as [|[k' g] t IH]; simpl; intro H; [constructor|].
  inversion H; subst.
  destruct (jsstring_eqb_spec k k') as [->|Hk]; constructor; auto.
Qed.

Lemma order_lowerOrder_setSlot x g :
  Group.order (lowerOrder x (setSlot x g)) = N.min (Group.order g) (order x).
Proof. unfold setSlot. destruct (timing x); reflexivity. Qed.

Lemma groupWellFormed_update x g :
  timing x <> Standalone ->
  slotsAgree (category x) g ->
  groupWellFormed (category x, lowerOrder x (setSlot x g)).
Proof.
  intros Hx [Hb Ha]. unfold groupWellFormed, someSlotFilled, slotsAgree, setSlot.
  destruct (timing x) eqn:E; simpl; try congruence.
  - split; [left; discriminate|]. split; [|assumption].
    intros r Hr. inversion Hr; subst. auto.
  - split; [right; discriminate|]. split; [assumption|].
    intros r Hr. inversion Hr; subst. auto.
Qed.

Lemma slotsAgree_freshGroup k x : slotsAgree k (freshGroup x).
Proof. split; simpl; discriminate. Qed.

(** The keys of the map are pairwise distinct. *)
Lemma group_keys_NoDup xs :
  NoDup (map fst (pairedGroups (groupImagesByCategory xs))).
Proof.
  induction xs as [|x xs IH] using rev_ind; [constructor|].
  rewrite group_snoc.
  destruct (Timing_eqb_spec (timing x) Standalone) as [Hx|Hx].
  - rewrite groupStep_standalone by exact Hx. assumption.
  - rewrite groupStep_paired by exact Hx. simpl.
    destruct (mapHas (category x) _) eqn:E.
    + rewrite mapModify_keys. assumption.
    + rewrite map_app. simpl. apply mapHas_false_keys in E.
      apply NoDup_app; [assumption | repeat constructor; auto |].
      intros k Hk [<-|[]]. auto.
Qed.

Lemma group_all_wellFormed xs :
  Forall groupWellFormed (pairedGroups (groupImagesByCategory xs)).
Proof.
  induction xs as [|x xs IH] using rev_ind; [constructor|].
  rewrite group_snoc.
  destruct (Timing_eqb_spec (timing x) Standalone) as [Hx|Hx].
  - rewrite groupStep_standalone by exact Hx. assumption.
  - rewrite groupStep_paired by exact Hx. simpl.
    destruct (mapHas (category x) _) eqn:E.
    + apply Forall_mapModify; [|assumption].
      intros g [_ Hg]. apply groupWellFormed_update; assumption.
    + apply Forall_app. split; [assumption|]. constructor; [|constructor].
      apply groupWellFormed_update; [assumption | apply slotsAgree_freshGroup].
Qed.

Lemma mapGet_of_In k g m :
  NoDup (map fst m) -> In (k, g) m -> mapGet k m = Some g.
Proof.
  induction m as [|[k' g'] t IH]; simpl; intros Hnd Hin; [contradiction|].
  inversion Hnd; subst.
  destruct Hin as [E|Hin].
  - inversion E; subst. rewrite jsstring_eqb_refl. reflexivity.
  - destruct (jsstring_eqb_spec k k') as [->|Hk]; [|auto].
    exfalso. apply H1. change k' with (fst (k', g)). apply in_map. assumption.
Qed.

(** ** C10: every stored group is well formed *)

(** C10. Every group of the map that the grouping returns has its before
    slot or its after slot filled, the record in the before slot has the
    timing before and the record in the after slot the timing after, and
    the category of either equals the key of the group. *)
Theorem group_entries_wellFormed (xs : list ImageInfo) (k : jsstring) (g : Group.t) :
  In (k, g) (pairedGroups (groupImagesByCategory xs)) ->
  (Group.before g <> None \/ Group.after g <> None) /\
  (forall r, Group.before g = Some r -> timing r = Before /\ category r = k) /\
  (forall r, Group.after g = Some r -> timing r = After /\ category r = k).
Proof.
  intro Hin.
  pose proof (group_all_wellFormed xs) as H.
  rewrite Forall_forall in H. exact (H _ Hin).
Qed.

(** ** C7: the order of a group is the least order of its contributors *)

Lemma group_order_invariant xs c :
  match mapGet c (pairedGroups (groupImagesByCategory xs)) with
  | Some g =>
      (exists r, In r xs /\ contributes c r /\ order r = Group.order g) /\
      (forall r, In r xs -> contributes c r -> (Group.order g <= order r)%N)
  | None => forall r, In r xs -> ~ contributes c r
  end.
Proof.
  induction xs as [|x xs IH] using rev_ind; [simpl; auto|].
  rewrite group_snoc, mapGet_groupStep.
  destruct (Timing_eqb_spec (timing x) Standalone) as [Hx|Hx].
  - destruct (mapGet c _) as [g|].
    + destruct IH as [[r [Hin [Hc Ho]]] Hmin]. split.
      * exists r. rewrite in_app_iff. auto.
      * intros r' Hin' Hc'. apply in_app_iff in Hin'.
        destruct Hin' as [Hin'|[<-|[]]]; [auto|]. destruct Hc'. contradiction.
    + intros r Hin Hc. apply in_app_iff in Hin.
      destruct Hin as [Hin|[<-|[]]]; [exact (IH _ Hin Hc)|]. destruct Hc. contradiction.
  - destruct (jsstring_eqb_spec c (category x)) as [->|Hc].
    + assert (Hcx : contributes (category x) x) by (split; auto).
      rewrite order_lowerOrder_setSlot.
      destruct (mapGet (category x) _) as [g|].
      * destruct IH as [[r [Hin [Hc Ho]]] Hmin]. split.
        -- destruct (N.min_spec (Group.order g) (order x)) as [[_ ->]|[_ ->]].
           ++ exists r. rewrite in_app_iff. auto.
           ++ exists x. rewrite in_app_iff. simpl. auto.
        -- intros r' Hin' Hc'. apply in_app_iff in Hin'.
           destruct Hin' as [Hin'|[<-|[]]].
           ++ specialize (Hmin _ Hin' Hc'). lia.
           ++ lia.
      * simpl. rewrite N.min_id. split.
        -- exists x. rewrite in_app_iff. simpl. auto.
        -- intros r' Hin' Hc'. apply in_app_iff in Hin'.
           destruct Hin' as [Hin'|[<-|[]]]; [|lia].
           exfalso. exact (IH _ Hin' Hc').
    + destruct (mapGet c _) as [g|].
      * destruct IH as [[r [Hin [Hcr Ho]]] Hmin]. split.
        -- exists r. rewrite in_app_iff. auto.
        -- intros r' Hin' Hc'. apply in_app_iff in Hin'.
           destruct Hin' as [Hin'|[<-|[]]]; [auto|].
           destruct Hc' as [_ Hc']. congruence.
      * intros r Hin Hcr. apply in_app_iff in Hin.
        destruct Hin as [Hin|[<-|[]]]; [exact (IH _ Hin Hcr)|].
        destruct Hcr as [_ Hcr]. congruence.
Qed.

(** C7. The order of a group of the returned map is the least order among
    the records of the input whose timing is before or after and whose
    category is the key of the group: some such record has that order, and
    none has a smaller one, also those no longer stored in a slot. *)
Theorem group_order_minimum (xs : list ImageInfo) (c : jsstring) (g : Group.t) :
  In (c, g) (pairedGroups (groupImagesByCategory xs)) ->
  (exists r, In r xs /\ timing r <> Standalone /\ category r = c
             /\ order r = Group.order g) /\
  (forall r, In r xs -> timing r <> Standalone -> category r = c ->
             (Group.order g <= order r)%N).
Proof.
  intro Hin.
  apply mapGet_of_In in Hin; [|apply group_keys_NoDup].
  pose proof (group_order_invariant xs c) as H. rewrite Hin in H.
  destruct H as [[r [Hr [[Ht Hc] Ho]]] Hmin]. split.
  - exists r. auto.
  - intros r' Hr' Ht' Hc'. apply Hmin; [assumption | split; assumption].
Qed.

(** ** C3: grouping the flattened grouping again *)

Lemma group_standalone_timing xs :
  Forall (fun r => timing r = Standalone)
         (standaloneImages (groupImagesByCategory xs)).
Proof.
  induction xs as [|x xs IH] using rev_ind; [constructor|].
  rewrite group_snoc.
  destruct (Timing_eqb_spec (timing x) Standalone) as [Hx|Hx].
  - rewrite groupStep_standalone by exact Hx. simpl.
    apply Forall_app. split; [assumption | repeat constructor; assumption].
  - rewrite groupStep_paired by exact Hx. assumption.
Qed.

Lemma fold_groupStep_standalone S acc :
  Forall (fun r => timing r = Standalone) S ->
  fold_left groupStep S acc =
  {| standaloneImages := standaloneImages acc ++ S;
     pairedGroups := pairedGroups acc |}.
Proof.
  revert acc. induction S as [|x S IH]; intros acc H; simpl.
  - rewrite app_nil_r. destruct acc; reflexivity.
  - inversion H; subst. rewrite groupStep_standalone by assumption.
    rewrite IH by assumption. simpl. rewrite <- app_assoc. reflexivity.
Qed.

Lemma groupStep_new_key acc x :
  timing x <> Standalone ->
  ~ In (category x) (map fst (pairedGroups acc)) ->
  groupStep acc x =
  {| standaloneImages := standaloneImages acc;
     pairedGroups := pairedGroups acc
        ++ [(category x, lowerOrder x (setSlot x (freshGroup x)))] |}.
Proof.
  intros Hx Hk. rewrite groupStep_paired by exact Hx.
  apply mapHas_false_keys in Hk. rewrite Hk. reflexivity.
Qed.

Lemma groupStep_last_key acc m g x :
  timing x <> Standalone ->
  ~ In (category x) (map fst m) ->
  pairedGroups acc = m ++ [(category x, g)] ->
  groupStep acc x =
  {| standaloneImages := standaloneImages acc;
     pairedGroups := m ++ [(category x, lowerOrder x (setSlot x g))] |}.
Proof.
  intros Hx Hk Hm. rewrite groupStep_paired by exact Hx.
  rewrite Hm, mapHas_last, mapModify_last by exact Hk. reflexivity.
Qed.

Lemma fold_groupStep_groups M : forall acc,
  NoDup (map fst (pairedGroups acc ++ M)) ->
  Forall groupWellFormed M ->
  fold_left groupStep (flat_map (fun kg => slotRecords (snd kg)) M) acc =
  {| standaloneImages := standaloneImages acc;
     pairedGroups := pairedGroups acc
        ++ map (fun kg => (fst kg, withSlotOrder (snd kg))) M |}.
Proof.
  induction M as [|[k g] M IH]; intros acc Hnd Hwf; simpl.
  - rewrite app_nil_r. destruct acc; reflexivity.
  - inversion Hwf as [|? ? [Hfilled [Hb Ha]] Hwf']; subst. simpl in *.
    assert (Hk : ~ In k (map fst (pairedGroups acc))).
    { rewrite map_app in Hnd. simpl in Hnd.
      apply NoDup_remove_2 in Hnd. rewrite in_app_iff in Hnd. auto. }
    assert (Hnext : forall g',
      NoDup (map fst ((pairedGroups acc ++ [(k, g')]) ++ M))).
    { intro g'. rewrite <- app_assoc. simpl.
      rewrite map_app in *. simpl in *. exact Hnd. }
    rewrite fold_left_app.
    unfold slotRecords at 1, withSlotOrder, slotOrder.
    destruct g as [[b|] [a|] o]; simpl in *.
    + destruct (Hb b eq_refl) as [Htb <-]. destruct (Ha a eq_refl) as [Hta Hca].
      rewrite (@groupStep_new_key acc b) by (first [assumption | congruence]).
      rewrite (@groupStep_last_key _ (pairedGroups acc)
                 (lowerOrder b (setSlot b (freshGroup b))) a);
        [| congruence | rewrite Hca; exact Hk | simpl; rewrite Hca; reflexivity].
      rewrite IH; [| simpl; rewrite Hca; exact (Hnext _) | assumption]. simpl.
      rewrite <- app_assoc. simpl. unfold setSlot, lowerOrder. rewrite Htb, Hta. simpl.
      rewrite N.min_id, Hca. reflexivity.
    + destruct (Hb b eq_refl) as [Htb <-].
      rewrite (@groupStep_new_key acc b) by (first [assumption | congruence]).
      rewrite IH; [| exact (Hnext _) | assumption]. simpl.
      rewrite <- app_assoc. simpl. unfold setSlot, lowerOrder. rewrite Htb. simpl.
      rewrite N.min_id. reflexivity.
    + destruct (Ha a eq_refl) as [Hta <-].
      rewrite (@groupStep_new_key acc a) by (first [assumption | congruence]).
      rewrite IH; [| exact (Hnext _) | assumption]. simpl.
      rewrite <- app_assoc. simpl. unfold setSlot, lowerOrder. rewrite Hta. simpl.
      rewrite N.min_id. reflexivity.
    + exfalso. destruct Hfilled as [H|H]; apply H; reflexivity.
Qed.

Lemma slotRecords_withSlotOrder g : slotRecords (withSlotOrder g) = slotRecords g.
Proof. reflexivity. Qed.

Lemma flattenGrouping_withSlotOrders G :
  flattenGrouping (withSlotOrders G) = flattenGrouping G.
Proof.
  unfold flattenGrouping, withSlotOrders. simpl. f_equal.
  induction (pairedGroups G) as [|[k g] m IH]; simpl; [reflexivity|].
  rewrite IH. reflexivity.
Qed.

Lemma regroup_eq G :
  NoDup (map fst (pairedGroups G)) ->
  Forall groupWellFormed (pairedGroups G) ->
  Forall (fun r => timing r = Standalone) (standaloneImages G) ->
  groupImagesByCategory (flattenGrouping G) = withSlotOrders G.
Proof.
  intros Hnd Hwf Hst. unfold groupImagesByCategory, flattenGrouping.
  rewrite fold_left_app.
  rewrite (@fold_groupStep_standalone (standaloneImages G) emptyGrouping Hst).
  rewrite fold_groupStep_groups by assumption. reflexivity.
Qed.

Lemma withSlotOrder_fixed g :
  withSlotOrder g = g <-> Group.order g = slotOrder g.
Proof.
  destruct g as [[b|] [a|] o]; unfold withSlotOrder, slotOrder; simpl;
    split; intro H; congruence.
Qed.

Lemma withSlotOrders_fixed G :
  withSlotOrders G = G <->
  Forall (fun kg => Group.order (snd kg) = slotOrder (snd kg)) (pairedGroups G).
Proof.
  destruct G as [S M]. unfold withSlotOrders. simpl.
  induction M as [|[k g] M IH]; simpl.
  - split; [constructor | reflexivity].
  - split; intro H.
    + constructor.
      * simpl. apply withSlotOrder_fixed. congruence.
      * apply IH. congruence.
    + inversion H as [|? ? Hg HM]; subst. simpl in Hg.
      apply withSlotOrder_fixed in Hg. apply IH in HM. congruence.
Qed.

(** C3, as the code has it.  Grouping the flattened grouping again gives
    the same standalone sequence and the same groups under the same keys in
    the same order, with the same records in their slots; the order of a
    group becomes the least order of the records in its slots.  So the
    result is the first grouping exactly when the order of each of its
    groups is that least order, and a second round trip changes nothing. *)
Theorem regroup_flattened (xs : list ImageInfo) :
  let G := groupImagesByCategory xs in
  groupImagesByCategory (flattenGrouping G) = withSlotOrders G /\
  (groupImagesByCategory (flattenGrouping G) = G <->
   Forall (fun kg => Group.order (snd kg) = slotOrder (snd kg)) (pairedGroups G)) /\
  groupImagesByCategory (flattenGrouping (groupImagesByCategory (flattenGrouping G)))
  = groupImagesByCategory (flattenGrouping G).
Proof.
  intro G.
  assert (E : groupImagesByCategory (flattenGrouping G) = withSlotOrders G).
  { apply regroup_eq; subst G.
    - apply group_keys_NoDup.
    - apply group_all_wellFormed.
    - apply group_standalone_timing. }
  split; [exact E|]. split.
  - rewrite E. apply withSlotOrders_fixed.
  - rewrite E, flattenGrouping_withSlotOrders. exact E.
Qed.

(** C3 fails as stated: when a record that is overwritten in its slot has
    the least order of its group, the group of the second grouping has a
    larger order than the group of the first. *)
Lemma regroup_changes_order :
  let G := groupImagesByCategory [firstBefore; secondBefore] in
  map (fun kg => Group.order (snd kg)) (pairedGroups G) = [1%N] /\
  map (fun kg => Group.order (snd kg))
      (pairedGroups (groupImagesByCategory (flattenGrouping G))) = [2%N] /\
  groupImagesByCategory (flattenGrouping G) <> G.
Proof.
  split; [reflexivity|]. split; [reflexivity|]. intro H.
  apply (f_equal (fun g => map (fun kg => Group.order (snd kg)) (pairedGroups g))) in H.
  vm_compute in H. discriminate.
Qed.

Lemma group_last_write_wins_witness :
  (timing secondBefore <> Standalone /\
   Forall (fun r' => ~ (category r' = category secondBefore
                        /\ timing r' = timing secondBefore))
          [thirdAfter; loneImage]) /\
  exists g,
    mapGet (category secondBefore)
      (pairedGroups (groupImagesByCategory
         ([firstBefore] ++ secondBefore :: [thirdAfter; loneImage]))) = Some g
    /\ slotOf (timing secondBefore) g = Some secondBefore.
Proof.
  assert (H1 : timing secondBefore <> Standalone) by (vm_compute; discriminate).
  assert (H2 : Forall (fun r' => ~ (category r' = category secondBefore
                        /\ timing r' = timing secondBefore))
          [thirdAfter; loneImage]).
  { repeat constructor; vm_compute; intros [A B]; discriminate. }
  split; [split; assumption|].
  exact (@group_last_write_wins [firstBefore] [thirdAfter; loneImage] secondBefore H1 H2).
Defined.

Lemma group_entries_wellFormed_witness :
  let g := {| Group.before := Some secondBefore; Group.after := Some thirdAfter;
              Group.order := 1 |} in
  In (js "x", g)
     (pairedGroups (groupImagesByCategory
        [firstBefore; secondBefore; thirdAfter; loneImage])) /\
  ((Group.before g <> None \/ Group.after g <> None) /\
   (forall r, Group.before g = Some r -> timing r = Before /\ category r = js "x") /\
   (forall r, Group.after g = Some r -> timing r = After /\ category r = js "x")).
Proof.
  intro g.
  assert (H : In (js "x", g)
     (pairedGroups (groupImagesByCategory
        [firstBefore; secondBefore; thirdAfter; loneImage]))).
  { vm_compute. left. reflexivity. }
  split; [exact H|].
  exact (@group_entries_wellFormed _ _ _ H).
Defined.

Lemma group_order_minimum_witness :
  let xs := [secondBefore; firstBefore; thirdAfter; loneImage] in
  let g := {| Group.before := Some firstBefore; Group.after := Some thirdAfter;
              Group.order := 1 |} in
  In (js "x", g) (pairedGroups (groupImagesByCategory xs)) /\
  ((exists r, In r xs /\ timing r <> Standalone /\ category r = js "x"
              /\ order r = Group.order g) /\
   (forall r, In r xs -> timing r <> Standalone -> category r = js "x" ->
              (Group.order g <= order r)%N)).
Proof.
  intros xs g.
  assert (H : In (js "x", g) (pairedGroups (groupImagesByCategory xs))).
  { vm_compute. left. reflexivity. }
  split; [exact H|].
  exact (@group_order_minimum _ _ _ H).
Defined.

(** ** The loops need no more fuel than the length of the text *)

Lemma dropWhile_length p s : length (dropWhile p s) <= length s.
Proof.
  induction s as [|c t IH]; simpl; [lia|]. destruct (p c); simpl; lia.
Qed.

Lemma stripPrefixCI_length p : forall s r,
  stripPrefixCI p s = Some r -> length r + length p = length s.
Proof.
  induction p as [|a p IH]; intros s r H; simpl in *.
  - inversion H. lia.
  - destruct s as [|c s]; [discriminate|].
    destruct (ascii_eqb _ _); [|discriminate].
    apply IH in H. simpl. lia.
Qed.

Lemma matchImgTagHere_length s tag rest :
  matchImgTagHere s = Some (tag, rest) -> length rest < length s.
Proof.
  unfold matchImgTagHere, span.
  destruct (stripPrefixCI (js "<img") s) as [r|] eqn:E; [|discriminate].
  apply stripPrefixCI_length in E. simpl in E.
  destruct (takeWhile notGt r); [discriminate|].
  pose proof (dropWhile_length notGt r) as Hd.
  destruct (dropWhile notGt r) as [|c rest']; [discriminate|].
  intro H. inversion H; subst. simpl in Hd. lia.
Qed.

Lemma scanImgTags_fuel n : forall m s,
  length s <= n -> length s <= m -> scanImgTags n s = scanImgTags m s.
Proof.
  induction n as [|n IH]; intros m s Hn Hm.
  - destruct s; [|simpl in Hn; lia]. destruct m; reflexivity.
  - destruct m as [|m]; [destruct s; [reflexivity | simpl in Hm; lia]|].
    destruct s as [|c t]; [reflexivity|].
    cbn [scanImgTags]. simpl in Hn, Hm.
    destruct (matchImgTagHere (c :: t)) as [[tag rest]|] eqn:E.
    + apply matchImgTagHere_length in E. simpl in E.
      f_equal. apply IH; lia.
    + apply IH; lia.
Qed.

Lemma afterMarker_length s r : afterMarker s = Some r -> length r < length s.
Proof.
  revert r. induction s as [|c t IH]; intros r H; [discriminate|].
  cbn [afterMarker] in H. destruct t as [|d u]; [discriminate|].
  destruct (ascii_eqb c "!" && ascii_eqb d "[").
  - inversion H; subst. simpl. lia.
  - apply IH in H. simpl in *. lia.
Qed.

Lemma readLabel_length s : forall prev v r,
  readLabel prev s = Some (v, r) -> length r <= length s.
Proof.
  induction s as [|c t IH]; intros prev v r H; [discriminate|].
  cbn [readLabel] in H.
  destruct (ascii_eqb c "]" && negb (ascii_eqb prev "\")).
  - inversion H; subst. lia.
  - destruct (readLabel c t) as [[v' r']|] eqn:E; [|discriminate].
    inversion H; subst. apply IH in E. simpl. lia.
Qed.

Lemma scanParens_length s : forall depth d passed rest,
  scanParens depth s = (d, passed, rest) -> length rest <= length s.
Proof.
  induction s as [|c t IH]; intros depth d passed rest H.
  - destruct depth; inversion H; subst; simpl; lia.
  - destruct depth as [|depth]; [inversion H; subst; lia|].
    cbn [scanParens] in H.
    destruct (scanParens _ t) as [[d' p'] r'] eqn:E.
    inversion H; subst. apply IH in E. simpl. lia.
Qed.

Lemma skipn_length_le (n : nat) (s : jsstring) : length (skipn n s) <= length s.
Proof. rewrite length_skipn. lia. Qed.

Lemma linkStep_length s found next :
  linkStep s = Some (found, next) -> length next < length s.
Proof.
  unfold linkStep.
  destruct (afterMarker s) as [afterStart|] eqn:E1; [|discriminate].
  apply afterMarker_length in E1.
  destruct (readLabel "[" afterStart) as [[originalAlt fromBracket]|] eqn:E2;
    [|discriminate].
  apply readLabel_length in E2.
  pose proof (skipn_length_le 1 fromBracket) as H1.
  pose proof (dropWhile_length isSpace (skipn 1 fromBracket)) as H2.
  destruct (dropWhile isSpace (skipn 1 fromBracket)) as [|c innerStart].
  - intro H. inversion H; subst. assumption.
  - destruct (ascii_eqb c "(").
    + destruct (scanParens 1 innerStart) as [[d passed] rest] eqn:E3.
      apply scanParens_length in E3. cbn [length] in H2.
      destruct d; intro H; inversion H; subst; lia.
    + intro H. inversion H; subst. assumption.
Qed.

Lemma linkLoop_fuel n : forall m s,
  length s <= n -> length s <= m -> linkLoop n s = linkLoop m s.
Proof.
  induction n as [|n IH]; intros m s Hn Hm.
  - destruct s; [|simpl in Hn; lia]. destruct m; reflexivity.
  - destruct m as [|m]; [destruct s; [reflexivity | simpl in Hm; lia]|].
    destruct s as [|c t]; [reflexivity|].
    cbn [linkLoop]. simpl in Hn, Hm.
    destruct (linkStep (c :: t)) as [[found next]|] eqn:E; [|reflexivity].
    apply linkStep_length in E. simpl in E.
    f_equal. apply IH; lia.
Qed.

(** The loops as the code runs them: one step, then the loop on the text
    that is left. *)
Lemma scanImgTags_step c t :
  scanImgTags (length (c :: t)) (c :: t) =
  match matchImgTagHere (c :: t) with
  | Some (tag, rest) => tag :: scanImgTags (length rest) rest
  | None => scanImgTags (length t) t
  end.
Proof.
  cbn [length scanImgTags].
  destruct (matchImgTagHere (c :: t)) as [[tag rest]|] eqn:E; [|reflexivity].
  apply matchImgTagHere_length in E. simpl in E.
  f_equal. apply scanImgTags_fuel; lia.
Qed.

Lemma linkLoop_step c t :
  linkLoop (length (c :: t)) (c :: t) =
  match linkStep (c :: t) with
  | Some (found, next) => found ++ linkLoop (length next) next
  | None => []
  end.
Proof.
  cbn [length linkLoop].
  destruct (linkStep (c :: t)) as [[found next]|] eqn:E; [|reflexivity].
  apply linkStep_length in E. simpl in E.
  f_equal. apply linkLoop_fuel; lia.
Qed.

(** ** C5: the sort is by ascending order and stable *)

Section SortFacts.
Variable A : Type.
Variable cmp : A -> A -> Z.

Lemma insertSorted_perm x l : Permutation (x :: l) (insertSorted cmp x l).
Proof.
  induction l as [|y t IH]; simpl; [reflexivity|].
  destruct (cmp x y <=? 0)%Z; [reflexivity|].
  rewrite perm_swap. constructor. assumption.
Qed.

Lemma sortBy_perm l : Permutation l (sortBy cmp l).
Proof.
  induction l as [|x l IH]; simpl; [constructor|].
  rewrite <- insertSorted_perm. constructor. assumption.
Qed.

(** An element keeps its place among the elements that pass [keep] when
    every element that the comparator puts before it fails [keep]. *)
Lemma insertSorted_filter (keep : A -> bool) x l :
  (forall y, keep x = true -> (cmp x y <=? 0)%Z = false -> keep y = false) ->
  filter keep (insertSorted cmp x l) = filter keep (x :: l).
Proof.
  intro H. induction l as [|y t IH]; [reflexivity|].
  cbn [insertSorted]. destruct (cmp x y <=? 0)%Z eqn:E; [reflexivity|].
  cbn [filter] in *. rewrite IH.
  destruct (keep x) eqn:Ex; [|reflexivity].
  rewrite (H y eq_refl E). reflexivity.
Qed.
End SortFacts.

Lemma compareOrder_le a b : (compareOrder a b <=? 0)%Z = (order a <=? order b)%N.
Proof.
  unfold compareOrder.
  destruct (Z.leb_spec (Z.of_N (order a) - Z.of_N (order b)) 0);
    destruct (N.leb_spec (order a) (order b)); try reflexivity; lia.
Qed.

Lemma insertSorted_order_sorted x l :
  StronglySorted orderLe l ->
  StronglySorted orderLe (insertSorted compareOrder x l).
Proof.
  induction 1 as [|y t Ht IH Hy]; simpl; [repeat constructor|].
  rewrite compareOrder_le.
  destruct (N.leb_spec (order x) (order y)) as [Hle|Hlt].
  - constructor; [constructor; assumption|].
    constructor; [exact Hle|].
    rewrite Forall_forall in *. intros z Hz. specialize (Hy z Hz).
    unfold orderLe in *. lia.
  - constructor; [assumption|].
    rewrite Forall_forall in *. intros z Hz.
    apply (Permutation_in _ (Permutation_sym (insertSorted_perm compareOrder x t))) in Hz.
    destruct Hz as [<-|Hz]; [unfold orderLe; lia | auto].
Qed.

Lemma sortBy_order_sorted l : StronglySorted orderLe (sortBy compareOrder l).
Proof.
  induction l as [|x l IH]; simpl; [constructor|].
  apply insertSorted_order_sorted. assumption.
Qed.

Lemma sortBy_order_stable k l :
  filter (hasOrder k) (sortBy compareOrder l) = filter (hasOrder k) l.
Proof.
  induction l as [|x l IH]; [reflexivity|].
  cbn [sortBy fold_right]. rewrite insertSorted_filter.
  - cbn [filter]. fold (sortBy compareOrder l). rewrite IH. reflexivity.
  - intros y Hx Hy. rewrite compareOrder_le in Hy. unfold hasOrder in *.
    apply N.eqb_eq in Hx. apply N.leb_gt in Hy. apply N.eqb_neq. lia.
Qed.

(** C5. In tag mode and in link mode the records returned are those
    extracted from the document, in ascending order of their [order]
    fields, and the records of any one order are in the order in which the
    document has them. *)
Theorem parse_sorted_stable (document : jsstring) :
  (StronglySorted orderLe (parseImages document) /\
   Permutation (extractTagImages document) (parseImages document) /\
   forall k, filter (hasOrder k) (parseImages document)
             = filter (hasOrder k) (extractTagImages document)) /\
  (StronglySorted orderLe (parseImagesMarkdown document) /\
   Permutation (extractLinkImages document) (parseImagesMarkdown document) /\
   forall k, filter (hasOrder k) (parseImagesMarkdown document)
             = filter (hasOrder k) (extractLinkImages document)).
Proof.
  unfold parseImages, parseImagesMarkdown. split; split.
  - apply sortBy_order_sorted.
  - split; [apply sortBy_perm | intro k; apply sortBy_order_stable].
  - apply sortBy_order_sorted.
  - split; [apply sortBy_perm | intro k; apply sortBy_order_stable].
Qed.

(** ** Characters *)

Ltac ascii_cases c := destruct c as [[] [] [] [] [] [] [] []].

Lemma ascii_eqb_eq a b : ascii_eqb a b = true <-> a = b.
Proof. apply Ascii.eqb_eq. Qed.

Lemma ascii_eqb_refl a : ascii_eqb a a = true.
Proof. apply Ascii.eqb_refl. Qed.

Lemma ascii_eqb_neq a b : ascii_eqb a b = false <-> a <> b.
Proof. apply Ascii.eqb_neq. Qed.

Lemma digit_not_p c : isDigit c = true -> toLowerChar c <> "p"%char.
Proof. ascii_cases c; vm_compute; intros; discriminate. Qed.

Lemma lower_letter_class c :
  isLower (toLowerChar c) = true ->
  isSpace c = false /\ isDigit c = false /\ ascii_eqb c "_" = false.
Proof. ascii_cases c; vm_compute; intros; repeat split; discriminate. Qed.

(** ** Scanning *)

Lemma takeWhile_all p s : forallb p s = true -> takeWhile p s = s.
Proof.
  induction s as [|c t IH]; simpl; [reflexivity|].
  destruct (p c); simpl; [|discriminate]. intro H. rewrite IH by assumption. reflexivity.
Qed.

Lemma dropWhile_all p s : forallb p s = true -> dropWhile p s = [].
Proof.
  induction s as [|c t IH]; simpl; [reflexivity|].
  destruct (p c); simpl; [assumption|discriminate].
Qed.

Lemma takeWhile_app p l c r :
  forallb p l = true -> p c = false -> takeWhile p (l ++ c :: r) = l.
Proof.
  intros Hl Hc. induction l as [|a l IH]; simpl in *.
  - rewrite Hc. reflexivity.
  - destruct (p a); [|discriminate]. rewrite IH by assumption. reflexivity.
Qed.

Lemma dropWhile_app p l c r :
  forallb p l = true -> p c = false -> dropWhile p (l ++ c :: r) = c :: r.
Proof.
  intros Hl Hc. induction l as [|a l IH]; simpl in *.
  - rewrite Hc. reflexivity.
  - destruct (p a); [|discriminate]. apply IH. assumption.
Qed.


Lemma trim_blank s : forallb isSpace s = true -> trim s = [].
Proof.
  intro H. unfold trim, trimStart, trimEnd. rewrite (@dropWhile_all isSpace s H).
  reflexivity.
Qed.

Lemma forallb_rev (p : ascii -> bool) s : forallb p (rev s) = forallb p s.
Proof.
  induction s as [|c t IH]; [reflexivity|].
  simpl. rewrite forallb_app, IH. simpl. rewrite andb_true_r. apply andb_comm.
Qed.

Lemma dropWhile_none p s :
  forallb (fun c => negb (p c)) s = true -> dropWhile p s = s.
Proof.
  destruct s as [|c t]; [reflexivity|]. simpl.
  destruct (p c); [discriminate | reflexivity].
Qed.

(** A text without whitespace is its own trimmed form. *)
Lemma trim_no_space s :
  forallb (fun c => negb (isSpace c)) s = true -> trim s = s.
Proof.
  intro H. unfold trim, trimStart, trimEnd.
  rewrite (@dropWhile_none isSpace s H).
  rewrite dropWhile_none by (rewrite forallb_rev; exact H).
  apply rev_involutive.
Qed.

Lemma splitWsFrom_nonempty b s : splitWsFrom b s <> [].
Proof.
  revert b. induction s as [|c t IH]; intro b; simpl; [discriminate|].
  destruct (isSpace c).
  - destruct b; [apply IH | discriminate].
  - destruct (splitWsFrom false t); discriminate.
Qed.

Lemma splitWs_no_space s :
  forallb (fun c => negb (isSpace c)) s = true -> splitWs s = [s].
Proof.
  unfold splitWs. induction s as [|c t IH]; simpl; [reflexivity|].
  destruct (isSpace c); simpl; [discriminate|].
  intro H. rewrite IH by assumption. reflexivity.
Qed.

(** ** C1: what the title parser returns for a blank title *)

Lemma titleWords_nonempty s : titleWords s <> [].
Proof.
  unfold titleWords.
  destruct (slashSlugMatch s) as [[[a b] c]|]; [discriminate|].
  destruct (hyphenSlugMatch s) as [[[a b] c]|]; [discriminate|].
  apply splitWsFrom_nonempty.
Qed.

Lemma resolveTicket_ticket words :
  exists rest, fst (resolveTicket words) = "["%char :: rest.
Proof.
  unfold resolveTicket.
  destruct (_ && _); [eexists; reflexivity|].
  destruct (jsstring_eqb _ _); [eexists; reflexivity|].
  destruct (2 <=? length words); eexists; reflexivity.
Qed.

(** The title parser never returns the empty string. *)
Lemma parsePRTitle_never_empty title : parsePRTitle title <> [].
Proof.
  unfold parsePRTitle.
  pose proof (titleWords_nonempty (trim title)) as Hw.
  destruct (titleWords (trim title)) as [|w ws]; [congruence|].
  unfold formatTitle.
  destruct (resolveTicket_ticket (w :: ws)) as [rest Ht].
  destruct (resolveTicket (w :: ws)) as [ticketId remainingWords].
  simpl in Ht. subst ticketId.
  destruct remainingWords; [discriminate|].
  destruct (extractPart _) as [[suffix|] [|f fs]]; discriminate.
Qed.

(** C1, as the code has it.  For a title that is empty or made of
    whitespace only the title parser returns the two brackets of an empty
    ticket identifier, not the empty string: the split of the empty text
    has one empty word, so the test for no words never succeeds. *)
Theorem parsePRTitle_blank (title : jsstring) :
  forallb isSpace title = true -> parsePRTitle title = js "[]".
Proof.
  intro H. unfold parsePRTitle. rewrite trim_blank by assumption. reflexivity.
Qed.

Lemma parsePRTitle_blank_witness :
  forallb isSpace (js "  ") = true /\ parsePRTitle (js "  ") = js "[]".
Proof.
  split; [reflexivity|]. apply (@parsePRTitle_blank (js "  ")). reflexivity.
Defined.

(** ** C8: the part suffix comes from the last occurrence *)

Lemma isAllDigits_not_part d : isAllDigits d = true -> isPartWord d = false.
Proof.
  destruct d as [|c t]; [discriminate|].
  unfold isAllDigits, isPartWord. simpl. intro H.
  apply andb_true_iff in H. destruct H as [Hc _].
  apply jsstring_eqb_neq. intro E. inversion E as [[Ec Et]].
  exact (digit_not_p c Hc Ec).
Qed.

Section PartScan.
Variables (pre post : list jsstring) (p d : jsstring).
Hypothesis Hp : isPartWord p = true.
Hypothesis Hd : isAllDigits d = true.
Hypothesis Hpost : forall j, isPartAt post j = false.

Let ws := pre ++ p :: d :: post.

Lemma nth_part_word : nth (length pre) ws [] = p.
Proof. unfold ws. apply nth_middle. Qed.

Lemma nth_part_number : nth (S (length pre)) ws [] = d.
Proof.
  unfold ws. rewrite app_nth2 by lia.
  replace (S (length pre) - length pre) with 1 by lia. reflexivity.
Qed.

Lemma nth_after_part j : nth (length pre + 2 + j) ws [] = nth j post [].
Proof.
  unfold ws. rewrite app_nth2 by lia.
  replace (length pre + 2 + j - length pre) with (S (S j)) by lia. reflexivity.
Qed.

Lemma isPartAt_occurrence : isPartAt ws (length pre) = true.
Proof.
  unfold isPartAt. rewrite nth_part_word, nth_part_number, Hp, Hd. reflexivity.
Qed.

Lemma isPartAt_later i : length pre < i -> isPartAt ws i = false.
Proof.
  intro Hi. unfold isPartAt.
  destruct (Nat.eq_dec i (S (length pre))) as [->|Hne].
  - rewrite nth_part_number, (isAllDigits_not_part d Hd). reflexivity.
  - replace i with (length pre + 2 + (i - length pre - 2)) by lia.
    replace (S (length pre + 2 + (i - length pre - 2)))
      with (length pre + 2 + S (i - length pre - 2)) by lia.
    rewrite !nth_after_part. apply Hpost.
Qed.

Lemma scanPart_finds k : scanPart ws (S (length pre) + k) = Some (length pre).
Proof.
  induction k as [|k IH].
  - rewrite Nat.add_0_r. simpl. rewrite isPartAt_occurrence. reflexivity.
  - replace (S (length pre) + S k) with (S (S (length pre) + k)) by lia.
    cbn [scanPart]. rewrite isPartAt_later by lia. exact IH.
Qed.

Lemma extractPart_last :
  extractPart ws = (Some (js "[PART-" ++ d ++ js "]"), pre ++ post).
Proof.
  unfold extractPart.
  replace (length ws - 1) with (S (length pre) + length post)
    by (unfold ws; rewrite length_app; simpl; lia).
  rewrite scanPart_finds, nth_part_number. f_equal. f_equal.
  - unfold ws. rewrite firstn_app, firstn_all, Nat.sub_diag. simpl.
    apply app_nil_r.
  - unfold ws. rewrite skipn_app, skipn_all2 by lia.
    replace (length pre + 2 - length pre) with 2 by lia. reflexivity.
Qed.
End PartScan.

(** The title built from the last pair. *)
Lemma parsePRTitle_part
    (title ticketId : jsstring) (pre post : list jsstring) (p d : jsstring) :
  resolveTicket (titleWords (trim title)) = (ticketId, pre ++ p :: d :: post) ->
  isPartWord p = true ->
  isAllDigits d = true ->
  (forall j, isPartAt post j = false) ->
  parsePRTitle title
    = ticketId ++ js " " ++ (js "[PART-" ++ d ++ js "]") ++ featureSuffix (pre ++ post).
Proof.
  intros Ht Hp Hd Hpost.
  pose proof (@extractPart_last pre post p d Hp Hd Hpost) as He.
  unfold parsePRTitle, formatTitle.
  destruct (titleWords (trim title)) as [|w ws] eqn:Ew.
  - exfalso. change (resolveTicket []) with (js "[]", @nil jsstring) in Ht.
    injection Ht as _ Hr. destruct pre; discriminate.
  - rewrite Ht.
    destruct (pre ++ p :: d :: post) as [|r rs] eqn:Er; [destruct pre; discriminate|].
    rewrite He. unfold featureSuffix.
    destruct (pre ++ post); [rewrite app_nil_r|]; reflexivity.
Qed.

(** What the backward scan returns: the greatest index below [n] that
    passes the test. *)
Lemma scanPart_spec ws n :
  match scanPart ws n with
  | Some j => j < n /\ isPartAt ws j = true
              /\ forall k, j < k -> k < n -> isPartAt ws k = false
  | None => forall k, k < n -> isPartAt ws k = false
  end.
Proof.
  induction n as [|n IH]; cbn [scanPart]; [intros k Hk; lia|].
  destruct (isPartAt ws n) eqn:E.
  - split; [lia|]. split; [assumption|]. intros k H1 H2. lia.
  - destruct (scanPart ws n) as [j|].
    + destruct IH as (Hj & Hjt & Hlater). split; [lia|]. split; [assumption|].
      intros k H1 H2. destruct (Nat.eq_dec k n) as [->|Hne]; [assumption|].
      apply Hlater; lia.
    + intros k Hk. destruct (Nat.eq_dec k n) as [->|Hne]; [assumption|].
      apply IH. lia.
Qed.

Lemma isPartAt_bound ws i : isPartAt ws i = true -> S i < length ws.
Proof.
  unfold isPartAt. intro H. apply andb_true_iff in H. destruct H as [_ H].
  destruct (Nat.lt_ge_cases (S i) (length ws)) as [Hlt|Hge]; [assumption|].
  rewrite nth_overflow in H by assumption. discriminate.
Qed.

Lemma split_at_pair (ws : list jsstring) : forall j,
  S j < length ws ->
  ws = firstn j ws ++ nth j ws [] :: nth (S j) ws [] :: skipn (j + 2) ws.
Proof.
  induction ws as [|w ws IH]; intros j Hj; [simpl in Hj; lia|].
  destruct j as [|j].
  - destruct ws as [|w' ws]; [simpl in Hj; lia | reflexivity].
  - cbn [firstn nth app Nat.add skipn]. f_equal.
    apply IH. simpl in Hj. lia.
Qed.

(** C8. When the words after the ticket identifier have, at some index, a
    word equal to part up to case followed by a word of digits only, they
    split into the words before the last such pair, the pair, and the words
    after it; the part suffix is built from the digits of that pair and the
    feature words are the words before it followed by the words after it.
    The title of the test suite, which has two such pairs, gives the suffix
    of the second. *)
Theorem part_suffix_last_occurrence
    (title ticketId : jsstring) (remainingWords : list jsstring) (i : nat) :
  resolveTicket (titleWords (trim title)) = (ticketId, remainingWords) ->
  isPartAt remainingWords i = true ->
  (exists pre p d post,
     remainingWords = pre ++ p :: d :: post /\
     i <= length pre /\
     isPartWord p = true /\ isAllDigits d = true /\
     (forall j, isPartAt post j = false) /\
     parsePRTitle title
       = ticketId ++ js " " ++ (js "[PART-" ++ d ++ js "]")
           ++ featureSuffix (pre ++ post)) /\
  parsePRTitle (js "Mb 80 part 1 of the feature part 2")
    = js "[MB-80] [PART-2] Part 1 of the feature".
Proof.
  intros Ht Hi. split; [|reflexivity].
  pose proof (isPartAt_bound _ _ Hi) as Hbound.
  pose proof (scanPart_spec remainingWords (length remainingWords - 1)) as Hscan.
  destruct (scanPart remainingWords (length remainingWords - 1)) as [j|].
  2:{ rewrite Hscan in Hi by lia. discriminate. }
  destruct Hscan as (Hj & Hjt & Hlater).
  assert (Hij : i <= j).
  { destruct (Nat.le_gt_cases i j) as [H|H]; [assumption|].
    rewrite Hlater in Hi by lia. discriminate. }
  pose proof (split_at_pair remainingWords (j := j) ltac:(lia)) as Hsplit.
  set (pre := firstn j remainingWords) in *.
  set (p := nth j remainingWords []) in *.
  set (d := nth (S j) remainingWords []) in *.
  set (post := skipn (j + 2) remainingWords) in *.
  assert (Hlen : length pre = j) by (unfold pre; rewrite length_firstn; lia).
  assert (Hpd : isPartWord p = true /\ isAllDigits d = true).
  { unfold isPartAt in Hjt. apply andb_true_iff in Hjt. exact Hjt. }
  destruct Hpd as [Hp Hd].
  assert (Hpost : forall k, isPartAt post k = false).
  { intro k. unfold isPartAt.
    rewrite <- (@nth_after_part pre post p d k), <- (@nth_after_part pre post p d (S k)).
    rewrite <- Hsplit, Hlen.
    replace (j + 2 + S k) with (S (j + 2 + k)) by lia.
    fold (isPartAt remainingWords (j + 2 + k)).
    destruct (Nat.lt_ge_cases (j + 2 + k) (length remainingWords - 1)) as [Hlt|Hge].
    - apply Hlater; lia.
    - destruct (isPartAt remainingWords (j + 2 + k)) eqn:E; [|reflexivity].
      apply isPartAt_bound in E. lia. }
  exists pre, p, d, post.
  split; [exact Hsplit|]. split; [lia|]. split; [exact Hp|]. split; [exact Hd|].
  split; [exact Hpost|].
  apply (@parsePRTitle_part title ticketId pre post p d); try assumption.
  rewrite <- Hsplit. exact Ht.
Qed.

Lemma part_suffix_last_occurrence_witness :
  (resolveTicket (titleWords (trim (js "Mb 80 part 1 of the feature part 2")))
     = (js "[MB-80]", [js "part"; js "1"; js "of"; js "the"; js "feature";
                        js "part"; js "2"]) /\
   isPartAt [js "part"; js "1"; js "of"; js "the"; js "feature";
             js "part"; js "2"] 0 = true) /\
  ((exists pre p d post,
     [js "part"; js "1"; js "of"; js "the"; js "feature"; js "part"; js "2"]
       = pre ++ p :: d :: post /\
     0 <= length pre /\
     isPartWord p = true /\ isAllDigits d = true /\
     (forall j, isPartAt post j = false) /\
     parsePRTitle (js "Mb 80 part 1 of the feature part 2")
       = js "[MB-80]" ++ js " " ++ (js "[PART-" ++ d ++ js "]")
           ++ featureSuffix (pre ++ post)) /\
   parsePRTitle (js "Mb 80 part 1 of the feature part 2")
     = js "[MB-80] [PART-2] Part 1 of the feature").
Proof.
  split; [split; reflexivity|].
  exact (@part_suffix_last_occurrence
           (js "Mb 80 part 1 of the feature part 2") (js "[MB-80]")
           [js "part"; js "1"; js "of"; js "the"; js "feature"; js "part"; js "2"]
           0 eq_refl eq_refl).
Defined.

(** ** C9: the slash-slug *)

Lemma nonempty_cons (A : Type) (l : list A) : l <> [] -> exists a t, l = a :: t.
Proof. destruct l as [|a t]; [congruence | eauto]. Qed.

Lemma slashSlugMatch_accepted L D M R :
  slashSlugAccepted L D M R ->
  slashSlugMatch (slashSlug L D M R) = Some (L, D, R).
Proof.
  intros (HL & HLa & HD & HDd & HM & HR & HRl).
  destruct (nonempty_cons HL) as (l0 & L' & EL).
  destruct (nonempty_cons HD) as (d0 & D' & ED).
  assert (HMs : forallb notSlash M = true /\ slashSlugMiddle M = true
                /\ exists c t, M ++ js "/" ++ R = c :: t /\ isDigit c = false).
  { destruct HM as [->|(x & -> & Hx & Hxs)].
    - repeat split; try reflexivity. exists "/"%char, R. split; reflexivity.
    - repeat split.
      + simpl. exact Hxs.
      + simpl. destruct x; [congruence | reflexivity].
      + exists "-"%char, (x ++ js "/" ++ R). split; reflexivity. }
  destruct HMs as (HMs & HMm & c & t & Ec & Hc).
  unfold slashSlugMatch, slashSlug, span.
  change (L ++ js "-" ++ D ++ M ++ js "/" ++ R)
    with (L ++ "-"%char :: (D ++ M ++ js "/" ++ R)).
  rewrite takeWhile_app, dropWhile_app by (assumption || reflexivity).
  rewrite EL at 1. rewrite ascii_eqb_refl.
  rewrite Ec, takeWhile_app, dropWhile_app by assumption.
  rewrite ED at 1. rewrite <- Ec.
  change (M ++ js "/" ++ R) with (M ++ "/"%char :: R).
  rewrite takeWhile_app, dropWhile_app by (assumption || reflexivity).
  rewrite HMm. unfold matchDotPlusEnd. rewrite HRl.
  destruct R; [congruence | reflexivity].
Qed.

(** C9, as the code has it.  When the trimmed title is letters, a hyphen,
    digits, an optional segment of a hyphen and at least one character
    without a slash, a slash, and a non-empty rest in ASCII without line
    terminator, the words are the letters, the digits and the pieces of the
    rest; the slug of the test suite gives the title expected there.
    Outside ASCII the code has two further line separators, which the
    pattern refuses, and further whitespace, at which the rest is split. *)
Theorem slash_slug_words (title L D M R : jsstring) :
  trim title = slashSlug L D M R ->
  slashSlugAccepted L D M R ->
  isAsciiText R ->
  titleWords (trim title) = L :: D :: explodeSlug R /\
  parsePRTitle title = formatTitle (L :: D :: explodeSlug R) /\
  parsePRTitle (js "MB-95-preferred-times/remove-minimum-constraint-on-start-date")
    = js "[MB-95] Remove minimum constraint on start date".
Proof.
  intros Ht Hs _.
  assert (E : titleWords (trim title) = L :: D :: explodeSlug R).
  { rewrite Ht. unfold titleWords. rewrite slashSlugMatch_accepted by assumption.
    reflexivity. }
  split; [exact E|]. split; [|reflexivity].
  unfold parsePRTitle. rewrite E. reflexivity.
Qed.

(** C9 fails as stated: with a line feed in the rest the pattern does not
    match, and the words are the pieces of the whole title. *)
Lemma slash_slug_line_feed :
  slashSlugShape (js "MB") (js "95") [] (js "a" ++ [ascii_of_nat 10] ++ js "b") /\
  trim twoLineSlug = twoLineSlug /\
  titleWords twoLineSlug = [js "MB-95/a"; js "b"] /\
  titleWords twoLineSlug
    <> js "MB" :: js "95" :: explodeSlug (js "a" ++ [ascii_of_nat 10] ++ js "b") /\
  parsePRTitle twoLineSlug = js "[MB-95/A-B]".
Proof.
  split.
  { unfold slashSlugShape. repeat split; try discriminate; try reflexivity.
    left. reflexivity. }
  split; [reflexivity|]. split; [reflexivity|]. split; [|reflexivity].
  vm_compute. discriminate.
Qed.

(** The segment needs a character after its hyphen: without one the
    pattern with the slash does not match, the pattern with hyphens only
    does, and the slash stays in the feature name. *)
Lemma slash_slug_bare_hyphen :
  slashSlugShape (js "MB") (js "95") (js "-") (js "x") /\
  titleWords (slashSlug (js "MB") (js "95") (js "-") (js "x"))
    = [js "MB"; js "95"; js "/x"] /\
  parsePRTitle (slashSlug (js "MB") (js "95") (js "-") (js "x")) = js "[MB-95] /x".
Proof.
  split; [|split; reflexivity].
  unfold slashSlugShape. repeat split; try discriminate; try reflexivity.
  right. exists []. split; reflexivity.
Qed.

Lemma slash_slug_words_witness :
  (trim (js "MB-95-preferred-times/remove-minimum-constraint-on-start-date")
     = slashSlug (js "MB") (js "95") (js "-preferred-times")
                 (js "remove-minimum-constraint-on-start-date") /\
   slashSlugAccepted (js "MB") (js "95") (js "-preferred-times")
                     (js "remove-minimum-constraint-on-start-date") /\
   isAsciiText (js "remove-minimum-constraint-on-start-date")) /\
  titleWords (trim (js "MB-95-preferred-times/remove-minimum-constraint-on-start-date"))
    = js "MB" :: js "95" :: explodeSlug (js "remove-minimum-constraint-on-start-date") /\
  parsePRTitle (js "MB-95-preferred-times/remove-minimum-constraint-on-start-date")
    = formatTitle (js "MB" :: js "95"
                     :: explodeSlug (js "remove-minimum-constraint-on-start-date")) /\
  parsePRTitle (js "MB-95-preferred-times/remove-minimum-constraint-on-start-date")
    = js "[MB-95] Remove minimum constraint on start date".
Proof.
  assert (H : slashSlugAccepted (js "MB") (js "95") (js "-preferred-times")
                     (js "remove-minimum-constraint-on-start-date")).
  { unfold slashSlugAccepted. repeat split; try discriminate; try reflexivity.
    right. exists (js "preferred-times"). repeat split; try discriminate; reflexivity. }
  split; [split; [reflexivity | split; [exact H | reflexivity]]|].
  exact (@slash_slug_words
           (js "MB-95-preferred-times/remove-minimum-constraint-on-start-date")
           (js "MB") (js "95") (js "-preferred-times")
           (js "remove-minimum-constraint-on-start-date") eq_refl H eq_refl).
Defined.

(** ** C2: a name that is a timing word and nothing else *)

Lemma separator_class c :
  isSpaceOrUnderscore c = true ->
  isDigit c = false /\ isSpace (if ascii_eqb c "_" then " "%char else c) = true.
Proof. ascii_cases c; vm_compute; intros; split; congruence. Qed.

Lemma timing_word_letters w :
  isTimingWord w -> Forall (fun c => isLower (toLowerChar c) = true) w.
Proof.
  intro H. apply Forall_map with (f := toLowerChar) (P := fun c => isLower c = true).
  fold (toLowerCase w). destruct H as [-> | ->]; repeat constructor.
Qed.

Lemma timing_word_nonempty w : isTimingWord w -> exists c t, w = c :: t.
Proof. destruct w as [|c t]; [intros [H|H]; discriminate | eauto]. Qed.

Lemma letters_no_space w :
  Forall (fun c => isLower (toLowerChar c) = true) w ->
  forallb (fun c => negb (isSpace c)) w = true.
Proof.
  induction 1 as [|c t Hc _ IH]; [reflexivity|]. simpl.
  destruct (lower_letter_class c Hc) as (-> & _ & _). exact IH.
Qed.

Lemma letters_no_underscore w :
  Forall (fun c => isLower (toLowerChar c) = true) w ->
  underscoresToSpaces w = w.
Proof.
  unfold underscoresToSpaces.
  induction 1 as [|c t Hc _ IH]; [reflexivity|]. cbn [map].
  destruct (lower_letter_class c Hc) as (_ & _ & ->). f_equal. exact IH.
Qed.

Lemma matchOrderPrefix_no_digit c t :
  isDigit c = false -> matchOrderPrefix (c :: t) = None.
Proof. intro H. unfold matchOrderPrefix. simpl. rewrite H. reflexivity. Qed.

(** The timing pattern needs a whitespace character to start. *)
Lemma searchTiming_no_space word s :
  forallb (fun c => negb (isSpace c)) s = true -> searchTiming word s = None.
Proof.
  induction s as [|c t IH]; [reflexivity|]. simpl.
  destruct (isSpace c); [discriminate|]. simpl. intro H.
  rewrite IH by assumption. reflexivity.
Qed.

Lemma stripPrefixCI_same_word p : forall w,
  toLowerCase w = toLowerCase p -> stripPrefixCI p w = Some [].
Proof.
  induction p as [|a p IH]; intros [|c w] H; try discriminate; [reflexivity|].
  simpl in *. inversion H as [[Hc Hw]]. rewrite ascii_eqb_refl. apply IH. assumption.
Qed.

Lemma searchTiming_unfold word s :
  searchTiming word s =
  if matchTimingHere word s then Some []
  else match s with
       | [] => None
       | c :: t => option_map (cons c) (searchTiming word t)
       end.
Proof. destruct s; reflexivity. Qed.

Lemma dropWhile_blanks w blanks :
  forallb (fun c => negb (isSpace c)) w = true -> w <> [] ->
  forallb isSpace blanks = true ->
  dropWhile isSpace (blanks ++ w) = w.
Proof.
  intros Hw Hwne Hblanks.
  destruct w as [|c t]; [congruence|]. simpl in Hw.
  apply dropWhile_app; [assumption|].
  destruct (isSpace c); [discriminate | reflexivity].
Qed.

Lemma searchTiming_match word w blanks :
  forallb (fun c => negb (isSpace c)) w = true -> w <> [] ->
  forallb isSpace blanks = true -> blanks <> [] ->
  stripPrefixCI word w = Some [] ->
  searchTiming word (blanks ++ w) = Some [].
Proof.
  intros Hw Hwne Hblanks Hne Hs.
  rewrite searchTiming_unfold.
  assert (E : matchTimingHere word (blanks ++ w) = true).
  { unfold matchTimingHere. rewrite dropWhile_blanks, Hs by assumption.
    destruct blanks as [|b bs]; [congruence|]. simpl in *.
    apply andb_true_iff in Hblanks. destruct Hblanks as [-> _]. reflexivity. }
  rewrite E. reflexivity.
Qed.

Lemma searchTiming_other_word word w : forall blanks,
  forallb (fun c => negb (isSpace c)) w = true -> w <> [] ->
  forallb isSpace blanks = true ->
  stripPrefixCI word w = None ->
  searchTiming word (blanks ++ w) = None.
Proof.
  intros blanks Hw Hwne. induction blanks as [|b bs IH]; intros Hb Hs.
  - apply searchTiming_no_space. assumption.
  - simpl in Hb. apply andb_true_iff in Hb. destruct Hb as [Hb Hbs].
    rewrite searchTiming_unfold.
    assert (E : matchTimingHere word ((b :: bs) ++ w) = false).
    { unfold matchTimingHere.
      rewrite dropWhile_blanks, Hs by (assumption || (simpl; rewrite Hb; assumption)).
      simpl. apply andb_false_r. }
    rewrite E. simpl. rewrite IH by assumption. reflexivity.
Qed.

Lemma underscoresToSpaces_separators ws :
  forallb isSpaceOrUnderscore ws = true ->
  forallb isSpace (underscoresToSpaces ws) = true.
Proof.
  induction ws as [|c t IH]; [reflexivity|]. simpl. intro H.
  apply andb_true_iff in H. destruct H as [Hc Ht].
  destruct (separator_class c Hc) as [_ ->]. apply IH. assumption.
Qed.

(** C2, as the code has it.  A name that is a timing word and nothing else
    is returned unchanged, with the timing standalone and the order 0: the
    timing pattern needs whitespace before the word.  The name is empty
    when whitespace or underscores, and nothing else, come before the
    timing word. *)
Theorem timing_word_alone (w : jsstring) :
  isTimingWord w ->
  parseFilename w
    = {| pf_order := 0; pf_timing := Standalone; formattedAlt := w |} /\
  (forall ws, ws <> [] -> forallb isSpaceOrUnderscore ws = true ->
     parseFilename (ws ++ w)
       = {| pf_order := 0; pf_timing := timingOfWord w; formattedAlt := [] |}).
Proof.
  intro Hw.
  pose proof (timing_word_letters Hw) as Hl.
  pose proof (letters_no_space Hl) as Hns.
  destruct (timing_word_nonempty Hw) as (c & t & Ew).
  assert (Hc : isDigit c = false).
  { rewrite Ew in Hl. inversion Hl as [|? ? Hc' _]; subst.
    apply (lower_letter_class c Hc'). }
  assert (Hwne : w <> []) by (rewrite Ew; discriminate).
  split.
  - unfold parseFilename. cbv zeta.
    replace (matchOrderPrefix w) with (@None (jsstring * jsstring))
      by (rewrite Ew; symmetry; apply matchOrderPrefix_no_digit; assumption).
    rewrite letters_no_underscore by assumption.
    rewrite !searchTiming_no_space by assumption.
    rewrite trim_no_space by assumption. reflexivity.
  - intros ws Hne Hws.
    destruct ws as [|s ss] eqn:Es; [congruence|]. rewrite <- Es in *.
    assert (Hs : isDigit s = false).
    { rewrite Es in Hws. simpl in Hws. apply andb_true_iff in Hws.
      apply (separator_class s (proj1 Hws)). }
    pose proof (underscoresToSpaces_separators ws Hws) as Hb.
    assert (Hbne : underscoresToSpaces ws <> []) by (rewrite Es; discriminate).
    unfold parseFilename. cbv zeta.
    replace (matchOrderPrefix (ws ++ w)) with (@None (jsstring * jsstring))
      by (rewrite Es; symmetry; apply matchOrderPrefix_no_digit; assumption).
    replace (underscoresToSpaces (ws ++ w)) with (underscoresToSpaces ws ++ w)
      by (unfold underscoresToSpaces at 2; rewrite map_app;
          fold (underscoresToSpaces ws); fold (underscoresToSpaces w);
          rewrite (letters_no_underscore Hl); reflexivity).
    unfold timingOfWord. destruct Hw as [Hw|Hw]; rewrite Hw.
    + rewrite (@searchTiming_match (js "before") w (underscoresToSpaces ws));
        try assumption; [reflexivity|].
      apply stripPrefixCI_same_word. exact Hw.
    + rewrite (@searchTiming_other_word (js "before") w (underscoresToSpaces ws));
        try assumption.
      * rewrite (@searchTiming_match (js "after") w (underscoresToSpaces ws));
          try assumption; [reflexivity|].
        apply stripPrefixCI_same_word. exact Hw.
      * rewrite Ew in *. simpl in Hw. inversion Hw as [[Hc0 Ht0]].
        simpl. rewrite Hc0. reflexivity.
Qed.

(** C2 fails as stated: the name of the specification's own example is
    returned as it is. *)
Lemma timing_word_kept :
  parseFilename (js "before")
    = {| pf_order := 0; pf_timing := Standalone; formattedAlt := js "before" |} /\
  formattedAlt (parseFilename (js "before")) <> [] /\
  formattedAlt (parseFilename (js "after")) <> [].
Proof. repeat split; vm_compute; discriminate. Qed.

Lemma timing_word_alone_witness :
  isTimingWord (js "Before") /\
  (parseFilename (js "Before")
     = {| pf_order := 0; pf_timing := Standalone; formattedAlt := js "Before" |} /\
   (forall ws, ws <> [] -> forallb isSpaceOrUnderscore ws = true ->
      parseFilename (ws ++ js "Before")
        = {| pf_order := 0; pf_timing := timingOfWord (js "Before");
             formattedAlt := [] |})).
Proof.
  assert (H : isTimingWord (js "Before")) by (left; reflexivity).
  split; [exact H|]. exact (@timing_word_alone (js "Before") H).
Defined.

(** ** C4: one image in tag mode and in link mode *)

Lemma notQuote_lower c :
  notQuote c = true -> ascii_eqb (toLowerChar dquote) (toLowerChar c) = false.
Proof. ascii_cases c; vm_compute; intros; congruence. Qed.

Lemma tagDocument_eq A U :
  tagDocument A U =
  js "<img alt=" ++ dquote :: (A ++ dquote :: js " src=" ++ dquote :: (U ++ [dquote; ">"%char])).
Proof. reflexivity. Qed.


Lemma sortBy_single (x : ImageInfo) : sortBy compareOrder [x] = [x].
Proof. reflexivity. Qed.

(** *** Tag mode *)

Lemma findAttr_miss name c s :
  matchAttrHere name (c :: s) = None -> findAttr name (c :: s) = findAttr name s.
Proof. intro H. cbn [findAttr]. rewrite H. reflexivity. Qed.

Lemma findAttr_hit name s v :
  matchAttrHere name s = Some v -> findAttr name s = Some v.
Proof. intro H. destruct s; cbn [findAttr]; rewrite H; reflexivity. Qed.

Lemma findAttr_skip name rest : forall A,
  (forall A0 A', A = A0 ++ A' -> matchAttrHere name (A' ++ rest) = None) ->
  findAttr name (A ++ rest) = findAttr name rest.
Proof.
  induction A as [|a A IH]; intro H; [reflexivity|].
  change ((a :: A) ++ rest) with (a :: (A ++ rest)).
  rewrite findAttr_miss by (apply (H [] (a :: A)); reflexivity).
  apply IH. intros A0 A' E. apply (H (a :: A0) A'). rewrite E. reflexivity.
Qed.

Lemma matchAttrHere_value name value rest :
  value <> [] -> forallb notQuote value = true ->
  stripPrefixCI (name ++ ["="%char; dquote]) (name ++ "="%char :: dquote :: value ++ dquote :: rest)
    = Some (value ++ dquote :: rest) ->
  matchAttrHere name (name ++ "="%char :: dquote :: value ++ dquote :: rest) = Some value.
Proof.
  intros Hne Hq Hs. unfold matchAttrHere, span. rewrite Hs.
  rewrite takeWhile_app, dropWhile_app by (assumption || reflexivity).
  destruct value; [congruence | reflexivity].
Qed.

Ltac compare_step :=
  match goal with
  | |- (if ascii_eqb (toLowerChar ?a) (toLowerChar ?b) then _ else None) = None =>
      first [ is_var b;
              first [ rewrite (@notQuote_lower b) by assumption; reflexivity
                    | destruct (ascii_eqb (toLowerChar a) (toLowerChar b)) eqn:?;
                      [|reflexivity] ]
            | reflexivity ]
  end.

(** Inside the label the pattern of the src attribute finds nothing. *)
Lemma src_not_in_label A0 A' rest :
  forallb notQuote A' = true ->
  endsWithCI (js "src=") (A0 ++ A') = false ->
  matchAttrHere (js "src") (A' ++ dquote :: rest) = None.
Proof.
  intros Hq He. unfold matchAttrHere.
  assert (E : stripPrefixCI (js "src" ++ ["="%char; dquote]) (A' ++ dquote :: rest) = None);
    [|rewrite E; reflexivity].
  destruct A' as [|a1 [|a2 [|a3 [|a4 [|a5 A'']]]]];
    cbn [js String.list_ascii_of_string app stripPrefixCI];
    cbn [forallb] in Hq;
    repeat (apply andb_true_iff in Hq; destruct Hq as [? Hq]);
    repeat compare_step.
  exfalso. unfold endsWithCI in He.
  rewrite length_app in He. cbn [length js String.list_ascii_of_string] in He.
  replace (length A0 + 4 - 4) with (length A0) in He by lia.
  rewrite skipn_app, skipn_all, Nat.sub_diag in He. cbn [skipn app toLowerCase map] in He.
  repeat match goal with
         | H : ascii_eqb _ _ = true |- _ => apply ascii_eqb_eq in H; rewrite <- H in He
         end.
  vm_compute in He. discriminate.
Qed.

Lemma tag_alt A U :
  A <> [] -> forallb notQuote A = true ->
  findAttr (js "alt") (tagDocument A U) = Some A.
Proof.
  intros Hne Hq. rewrite tagDocument_eq.
  cbn [js String.list_ascii_of_string app].
  do 5 (rewrite findAttr_miss by reflexivity).
  apply findAttr_hit.
  apply (@matchAttrHere_value (js "alt") A); [assumption | assumption | reflexivity].
Qed.

Lemma tag_src A U :
  forallb notQuote A = true -> endsWithCI (js "src=") A = false ->
  U <> [] -> forallb notQuote U = true ->
  findAttr (js "src") (tagDocument A U) = Some U.
Proof.
  intros HqA He Hne HqU. rewrite tagDocument_eq.
  cbn [js String.list_ascii_of_string app].
  do 10 (rewrite findAttr_miss by reflexivity).
  rewrite findAttr_skip.
  - do 2 (rewrite findAttr_miss by reflexivity).
    apply findAttr_hit.
    apply (@matchAttrHere_value (js "src") U [">"%char]);
      [assumption | assumption | reflexivity].
  - intros A0 A' E. apply src_not_in_label with (A0 := A0).
    + rewrite E, forallb_app in HqA. apply andb_true_iff in HqA. apply HqA.
    + rewrite <- E. assumption.
Qed.

Lemma stripPrefixCI_self p s : stripPrefixCI p (p ++ s) = Some s.
Proof.
  induction p as [|a p IH]; [reflexivity|].
  cbn [app stripPrefixCI]. rewrite ascii_eqb_refl. exact IH.
Qed.




(** *** Link mode *)

Lemma last_default (a : ascii) t d d' : last (a :: t) d = last (a :: t) d'.
Proof.
  revert a. induction t as [|b t IH]; intro a; [reflexivity|].
  change (last (a :: b :: t) d) with (last (b :: t) d).
  change (last (a :: b :: t) d') with (last (b :: t) d').
  apply IH.
Qed.

Lemma last_cons (c : ascii) t d : last (c :: t) d = last t c.
Proof.
  destruct t as [|a t]; [reflexivity|].
  change (last (c :: a :: t) d) with (last (a :: t) d).
  apply last_default.
Qed.

Lemma readLabel_label rest : forall A prev,
  bracketsEscaped prev A = true ->
  last A prev <> "\"%char ->
  readLabel prev (A ++ "]"%char :: rest) = Some (A, "]"%char :: rest).
Proof.
  induction A as [|c A IH]; intros prev He Hl.
  - cbn [app readLabel last] in *. rewrite ascii_eqb_refl.
    apply ascii_eqb_neq in Hl. rewrite Hl. reflexivity.
  - cbn [app readLabel bracketsEscaped] in *.
    apply andb_true_iff in He. destruct He as [Hc He].
    apply negb_true_iff in Hc. rewrite Hc.
    rewrite last_cons in Hl. rewrite (IH c He Hl). reflexivity.
Qed.

Lemma scanParens_zero s : scanParens 0 s = (0, [], s).
Proof. destruct s; reflexivity. Qed.


Lemma linkSource_plain U :
  U <> [] -> forallb (fun c => negb (isSpace c)) U = true ->
  hd " "%char U <> "<"%char ->
  linkSource U = U.
Proof.
  intros Hne Hs Hh. destruct U as [|c t]; [congruence|].
  unfold linkSource. cbn [hd] in Hh. apply ascii_eqb_neq in Hh. rewrite Hh.
  rewrite splitWs_no_space by assumption. reflexivity.
Qed.







(** Each of the further conditions is needed: the two modes differ on a
    label with a closing angle bracket, on a label that ends with a
    backslash, on a label that ends with the name of the src attribute and
    an equals sign, on a source with a closing angle bracket, and on a
    source that starts with an opening angle bracket. *)
Lemma agreeing_conditions_needed :
  let differ A U :=
    parseImages (tagDocument A U) <> parseImagesMarkdown (linkDocument A U) in
  differ (js "a>b") (js "u") /\
  differ (js "a\") (js "u") /\
  differ (js "src=") (js "u") /\
  differ (js "a") (js "u>v") /\
  differ (js "a") (js "<u").
Proof. repeat split; vm_compute; discriminate. Qed.


(** * Further properties *)

(** ** Filename parser: the name returned *)

Lemma takeWhile_dropWhile p s : takeWhile p s ++ dropWhile p s = s.
Proof.
  induction s as [|c t IH]; [reflexivity|]. simpl.
  destruct (p c); simpl; [rewrite IH|]; reflexivity.
Qed.

Lemma dropWhile_head_fails p s c t : dropWhile p s = c :: t -> p c = false.
Proof.
  induction s as [|a s IH]; simpl; [discriminate|].
  destruct (p a) eqn:E; [exact IH|]. intro H. inversion H; subst. exact E.
Qed.

Lemma forallb_dropWhile (q p : ascii -> bool) s :
  forallb q s = true -> forallb q (dropWhile p s) = true.
Proof.
  induction s as [|a s IH]; simpl; [reflexivity|].
  intro H. destruct (p a); [|exact H].
  apply andb_true_iff in H. apply IH, H.
Qed.

Lemma forallb_trim q s : forallb q s = true -> forallb q (trim s) = true.
Proof.
  intro H. unfold trim, trimEnd, trimStart.
  rewrite forallb_rev. apply forallb_dropWhile.
  rewrite forallb_rev. apply forallb_dropWhile. exact H.
Qed.

Lemma trim_first s c t : trim s = c :: t -> isSpace c = false.
Proof.
  unfold trim, trimEnd, trimStart. intro H.
  set (u := dropWhile isSpace s) in *.
  pose proof (takeWhile_dropWhile isSpace (rev u)) as Hsplit.
  apply (f_equal (@rev ascii)) in Hsplit.
  rewrite rev_app_distr, rev_involutive, H in Hsplit.
  simpl in Hsplit. symmetry in Hsplit.
  exact (dropWhile_head_fails isSpace s Hsplit).
Qed.

Lemma trim_last s t c : trim s = t ++ [c] -> isSpace c = false.
Proof.
  unfold trim, trimEnd. intro H.
  apply (f_equal (@rev ascii)) in H.
  rewrite rev_involutive, rev_app_distr in H. simpl in H.
  exact (dropWhile_head_fails isSpace _ H).
Qed.

Lemma underscoresToSpaces_clean s :
  forallb notUnderscore (underscoresToSpaces s) = true.
Proof.
  induction s as [|c t IH]; [reflexivity|]. simpl. rewrite IH, andb_true_r.
  unfold notUnderscore. destruct (ascii_eqb c "_") eqn:E; [reflexivity|].
  rewrite E. reflexivity.
Qed.

Lemma searchTiming_prefix word : forall s p,
  searchTiming word s = Some p -> exists rest, s = p ++ rest.
Proof.
  induction s as [|c t IH]; intros p H; rewrite searchTiming_unfold in H.
  - destruct (matchTimingHere word []); [|discriminate].
    inversion H. exists []. reflexivity.
  - destruct (matchTimingHere word (c :: t)).
    + inversion H. exists (c :: t). reflexivity.
    + destruct (searchTiming word t) as [p'|] eqn:E; [|discriminate].
      inversion H; subst. destruct (IH p' eq_refl) as [rest ->].
      exists rest. reflexivity.
Qed.

(** The text that [parseFilename] trims to get the name is made of
    characters of the text after the underscores are replaced. *)
Lemma parseFilename_content filename :
  exists content,
    formattedAlt (parseFilename filename) = trim content /\
    forallb notUnderscore content = true.
Proof.
  unfold parseFilename. cbv zeta.
  set (normalized := underscoresToSpaces _).
  pose proof (underscoresToSpaces_clean
    (match matchOrderPrefix filename with
     | Some (_, rest) => rest | None => filename end)) as Hn.
  fold normalized in Hn.
  assert (Hp : forall word p, searchTiming word normalized = Some p ->
                              forallb notUnderscore p = true).
  { intros word p H. destruct (searchTiming_prefix _ _ H) as [rest E].
    rewrite E, forallb_app in Hn. apply andb_true_iff in Hn. apply Hn. }
  destruct (searchTiming (js "before") normalized) as [p|] eqn:Eb.
  - exists p. split; [reflexivity | exact (Hp _ _ Eb)].
  - destruct (searchTiming (js "after") normalized) as [p|] eqn:Ea.
    + exists p. split; [reflexivity | exact (Hp _ _ Ea)].
    + exists normalized. split; [reflexivity | exact Hn].
Qed.

(** X1. The name that the filename parser returns has no underscore and
    neither starts nor ends with a whitespace character, whatever the
    input. *)
Theorem parseFilename_name_clean (filename : jsstring) :
  forallb notUnderscore (formattedAlt (parseFilename filename)) = true /\
  (forall c t, formattedAlt (parseFilename filename) = c :: t -> isSpace c = false) /\
  (forall t c, formattedAlt (parseFilename filename) = t ++ [c] -> isSpace c = false).
Proof.
  destruct (parseFilename_content filename) as (content & -> & Hc).
  split; [apply forallb_trim; exact Hc|].
  split; [apply trim_first | apply trim_last].
Qed.

(** ** Filename parser: the order prefix *)

Lemma takeWhile_app_head p l r :
  forallb p l = true -> headFails p r -> takeWhile p (l ++ r) = l.
Proof.
  intros Hl Hr. destruct r as [|c r].
  - rewrite app_nil_r. apply takeWhile_all. exact Hl.
  - apply takeWhile_app; assumption.
Qed.

Lemma dropWhile_app_head p l r :
  forallb p l = true -> headFails p r -> dropWhile p (l ++ r) = r.
Proof.
  intros Hl Hr. destruct r as [|c r].
  - rewrite app_nil_r. apply dropWhile_all. exact Hl.
  - apply dropWhile_app; assumption.
Qed.

Lemma matchOrderPrefix_run ds dot blanks body :
  ds <> [] -> forallb isDigit ds = true ->
  isOptionalDot dot ->
  forallb isSpace blanks = true ->
  headFails isSpace body ->
  headFails isDigit body ->
  (dot = [] -> blanks = [] -> headFails (fun c => ascii_eqb c ".") body) ->
  matchOrderPrefix (ds ++ dot ++ blanks ++ body) = Some (ds, body).
Proof.
  intros Hne Hds Hdot Hbl Hsp Hdg Hnd.
  assert (Hrest : headFails isDigit (dot ++ blanks ++ body)).
  { destruct Hdot as [-> | ->]; [|reflexivity].
    destruct blanks as [|b bs]; [exact Hdg|].
    simpl in *. apply andb_true_iff in Hbl. destruct Hbl as [Hb _].
    revert Hb. clear. ascii_cases b; vm_compute; congruence. }
  unfold matchOrderPrefix.
  rewrite takeWhile_app_head, dropWhile_app_head by assumption.
  destruct ds as [|d ds']; [congruence|].
  destruct Hdot as [-> | ->].
  - cbn [app].
    destruct blanks as [|b bs].
    + cbn [app]. specialize (Hnd eq_refl eq_refl).
      destruct body as [|c body']; [reflexivity|].
      simpl in Hnd, Hsp. rewrite Hnd. cbn [dropWhile]. rewrite Hsp. reflexivity.
    + assert (Hb : ascii_eqb b "." = false).
      { simpl in Hbl. apply andb_true_iff in Hbl. destruct Hbl as [Hb _].
        revert Hb. clear. ascii_cases b; vm_compute; congruence. }
      cbn [app]. rewrite Hb.
      change (b :: bs ++ body) with ((b :: bs) ++ body).
      rewrite dropWhile_app_head by assumption. reflexivity.
  - cbn [app]. rewrite ascii_eqb_refl.
    rewrite dropWhile_app_head by assumption. reflexivity.
Qed.

Lemma matchOrderPrefix_none body :
  headFails isDigit body -> matchOrderPrefix body = None.
Proof.
  destruct body as [|c t]; [reflexivity|]. apply matchOrderPrefix_no_digit.
Qed.

(** X2. A run of digits whose value is held exactly, an optional dot and
    optional whitespace in front of a text in ASCII that starts with
    neither a digit nor whitespace (nor, when the digits are directly
    followed by it, with a dot) set the order to the value of the digits
    and change nothing else: the timing and the name are those of the text
    alone. *)
Theorem parseFilename_order_prefix (ds dot blanks body : jsstring) :
  ds <> [] -> forallb isDigit ds = true ->
  isExactNumber (parseInt ds) ->
  isAsciiText body ->
  isOptionalDot dot ->
  forallb isSpace blanks = true ->
  headFails isSpace body ->
  headFails isDigit body ->
  (dot = [] -> blanks = [] -> headFails (fun c => ascii_eqb c ".") body) ->
  parseFilename (ds ++ dot ++ blanks ++ body)
  = {| pf_order := parseInt ds;
       pf_timing := pf_timing (parseFilename body);
       formattedAlt := formattedAlt (parseFilename body) |}
  /\ pf_order (parseFilename body) = 0%N.
Proof.
  intros Hne Hds _ _ Hdot Hbl Hsp Hdg Hnd.
  unfold parseFilename. cbv zeta.
  rewrite (@matchOrderPrefix_run ds dot blanks body) by assumption.
  rewrite (@matchOrderPrefix_none body Hdg).
  destruct (searchTiming (js "before") (underscoresToSpaces body));
    [split; reflexivity|].
  destruct (searchTiming (js "after") (underscoresToSpaces body));
    split; reflexivity.
Qed.

Lemma parseFilename_order_prefix_witness :
  (js "12" <> [] /\ forallb isDigit (js "12") = true /\
   isExactNumber (parseInt (js "12")) /\
   isAsciiText (js "Login_page_after.png") /\
   isOptionalDot (js ".") /\ forallb isSpace (js " ") = true /\
   headFails isSpace (js "Login_page_after.png") /\
   headFails isDigit (js "Login_page_after.png") /\
   (js "." = [] -> js " " = [] ->
    headFails (fun c => ascii_eqb c ".") (js "Login_page_after.png"))) /\
  (parseFilename (js "12" ++ js "." ++ js " " ++ js "Login_page_after.png")
   = {| pf_order := parseInt (js "12");
        pf_timing := pf_timing (parseFilename (js "Login_page_after.png"));
        formattedAlt := formattedAlt (parseFilename (js "Login_page_after.png")) |}
   /\ pf_order (parseFilename (js "Login_page_after.png")) = 0%N).
Proof.
  assert (H1 : js "12" <> []) by discriminate.
  assert (H3 : isOptionalDot (js ".")) by (right; reflexivity).
  assert (H7 : js "." = [] -> js " " = [] ->
    headFails (fun c => ascii_eqb c ".") (js "Login_page_after.png"))
    by (intros; reflexivity).
  assert (H2 : isExactNumber (parseInt (js "12"))) by (vm_compute; discriminate).
  split; [repeat split; try reflexivity; assumption|].
  exact (@parseFilename_order_prefix (js "12") (js ".") (js " ")
           (js "Login_page_after.png") H1 eq_refl H2 eq_refl H3 eq_refl eq_refl
           eq_refl H7).
Defined.

(** ** Filename parser: names without a timing suffix *)

(** X3. A name in ASCII without whitespace and without underscore that
    does not start with a digit is returned as it is, with the order 0 and
    the timing standalone: a timing word at the end of a longer word is no
    timing suffix. *)
Theorem parseFilename_plain_name (name : jsstring) :
  isAsciiText name ->
  forallb (fun c => negb (isSpace c)) name = true ->
  forallb notUnderscore name = true ->
  headFails isDigit name ->
  parseFilename name
  = {| pf_order := 0; pf_timing := Standalone; formattedAlt := name |}.
Proof.
  intros _ Hs Hu Hd. unfold parseFilename. cbv zeta.
  rewrite (@matchOrderPrefix_none name Hd).
  assert (E : underscoresToSpaces name = name).
  { clear Hs Hd. unfold underscoresToSpaces.
    induction name as [|c t IH]; [reflexivity|].
    cbn [forallb map] in *. apply andb_true_iff in Hu. destruct Hu as [Hc Ht].
    unfold notUnderscore in Hc. apply negb_true_iff in Hc. rewrite Hc.
    f_equal. apply IH. exact Ht. }
  rewrite E, !searchTiming_no_space, trim_no_space by assumption. reflexivity.
Qed.

Lemma parseFilename_plain_name_witness :
  (isAsciiText (js "thereafter") /\
   forallb (fun c => negb (isSpace c)) (js "thereafter") = true /\
   forallb notUnderscore (js "thereafter") = true /\
   headFails isDigit (js "thereafter")) /\
  parseFilename (js "thereafter")
  = {| pf_order := 0; pf_timing := Standalone; formattedAlt := js "thereafter" |}.
Proof.
  split; [repeat split; reflexivity|].
  exact (@parseFilename_plain_name (js "thereafter") eq_refl eq_refl eq_refl eq_refl).
Defined.

(** ** Filename parser: the timing suffix *)

Lemma dropWhile_headFails p s : headFails p s -> dropWhile p s = s.
Proof. destruct s as [|c t]; [reflexivity|]. simpl. intros ->. reflexivity. Qed.

Lemma trim_fixed s : headFails isSpace s -> lastFails isSpace s -> trim s = s.
Proof.
  intros Hh Hl. unfold trim, trimStart, trimEnd.
  rewrite (dropWhile_headFails isSpace s Hh).
  rewrite (dropWhile_headFails isSpace (rev s) Hl). apply rev_involutive.
Qed.

Lemma dropWhile_nil_all p s : dropWhile p s = [] -> forallb p s = true.
Proof.
  induction s as [|c t IH]; [reflexivity|]. simpl.
  destruct (p c); [exact IH | discriminate].
Qed.

Lemma dropWhile_app_keep p x t :
  dropWhile p x <> [] -> dropWhile p (x ++ t) = dropWhile p x ++ t.
Proof.
  induction x as [|c x IH]; simpl; [congruence|].
  destruct (p c); [exact IH | reflexivity].
Qed.

Lemma dropWhile_app_stop p x c t :
  p c = false -> dropWhile p (x ++ c :: t) = dropWhile p x ++ c :: t.
Proof.
  intro Hc. induction x as [|a x IH]; simpl.
  - rewrite Hc. reflexivity.
  - destruct (p a); [exact IH | reflexivity].
Qed.

Lemma dropWhile_app_all p w r :
  forallb p w = true -> dropWhile p (w ++ r) = dropWhile p r.
Proof.
  induction w as [|c w IH]; simpl; [reflexivity|].
  destruct (p c); [exact IH | discriminate].
Qed.



















(** ** Title parser: what every result looks like *)

(** X5. Whatever the title, the result of the title parser starts with an
    opening bracket; in particular it is never the empty string, so the
    caller's test for an empty result never succeeds. *)
Theorem parsePRTitle_starts_with_bracket (title : jsstring) :
  exists rest, parsePRTitle title = "["%char :: rest.
Proof.
  unfold parsePRTitle.
  pose proof (titleWords_nonempty (trim title)) as Hw.
  destruct (titleWords (trim title)) as [|w ws]; [congruence|].
  unfold formatTitle.
  destruct (resolveTicket_ticket (w :: ws)) as [rest Ht].
  destruct (resolveTicket (w :: ws)) as [ticketId remainingWords].
  simpl in Ht. subst ticketId.
  destruct remainingWords; [eexists; reflexivity|].
  destruct (extractPart _) as [[suffix|] [|f fs]]; eexists; reflexivity.
Qed.

(** ** Whitespace around the clipboard text *)

Lemma trim_surround ws1 ws2 t :
  forallb isSpace ws1 = true -> forallb isSpace ws2 = true ->
  trim (ws1 ++ t ++ ws2) = trim t.
Proof.
  intros H1 H2. unfold trim, trimStart.
  rewrite dropWhile_app_all by assumption.
  destruct (dropWhile isSpace t) as [|c u] eqn:E.
  - rewrite dropWhile_all; [reflexivity|].
    rewrite forallb_app, H2, (dropWhile_nil_all _ _ E). reflexivity.
  - rewrite dropWhile_app_keep by (rewrite E; discriminate). rewrite E.
    unfold trimEnd. rewrite rev_app_distr.
    rewrite dropWhile_app_all by (rewrite forallb_rev; assumption). reflexivity.
Qed.

(** X6. Whitespace before and after the clipboard text changes neither
    the title that the title parser returns nor the records that the image
    extractor returns. *)
Theorem surrounding_whitespace_ignored (ws1 ws2 text : jsstring) :
  forallb isSpace ws1 = true -> forallb isSpace ws2 = true ->
  parsePRTitle (ws1 ++ text ++ ws2) = parsePRTitle text /\
  parseImagesFromClipboard (ws1 ++ text ++ ws2) = parseImagesFromClipboard text.
Proof.
  intros H1 H2. unfold parsePRTitle, parseImagesFromClipboard.
  rewrite trim_surround by assumption. split; reflexivity.
Qed.

Lemma surrounding_whitespace_ignored_witness :
  (forallb isSpace (js "  ") = true /\ forallb isSpace [ascii_of_nat 10] = true) /\
  (parsePRTitle (js "  " ++ js "Mb 80 fix" ++ [ascii_of_nat 10])
     = parsePRTitle (js "Mb 80 fix") /\
   parseImagesFromClipboard (js "  " ++ js "Mb 80 fix" ++ [ascii_of_nat 10])
     = parseImagesFromClipboard (js "Mb 80 fix")).
Proof.
  split; [split; reflexivity|].
  exact (@surrounding_whitespace_ignored (js "  ") [ascii_of_nat 10]
           (js "Mb 80 fix") eq_refl eq_refl).
Defined.

(** ** Title parser: the words of a slug *)

Lemma replaceSeparatorRuns_clean s : forall b,
  forallb (fun c => negb (isSlugSeparator c)) (replaceSeparatorRuns b s) = true.
Proof.
  induction s as [|c t IH]; intro b; [reflexivity|]. cbn [replaceSeparatorRuns].
  destruct (isSlugSeparator c) eqn:E.
  - destruct b; [apply IH|]. cbn [forallb]. rewrite IH. reflexivity.
  - cbn [forallb]. rewrite E, IH. reflexivity.
Qed.

Lemma splitWsFrom_pieces (q : ascii -> bool) s : forall b,
  forallb q s = true ->
  Forall (fun w => forallb q w = true
                   /\ forallb (fun c => negb (isSpace c)) w = true)
         (splitWsFrom b s).
Proof.
  induction s as [|c t IH]; intros b H.
  - repeat constructor.
  - cbn [forallb] in H. apply andb_true_iff in H. destruct H as [Hc Ht].
    cbn [splitWsFrom]. destruct (isSpace c) eqn:E.
    + destruct b; [apply IH; exact Ht|].
      constructor; [split; reflexivity | apply IH; exact Ht].
    + specialize (IH false Ht).
      destruct (splitWsFrom false t) as [|p ps].
      * constructor; [|constructor]. cbn [forallb]. rewrite Hc, E. split; reflexivity.
      * inversion IH as [|? ? [Hq Hs] Hps]; subst.
        constructor; [|exact Hps]. cbn [forallb]. rewrite Hc, E, Hq, Hs.
        split; reflexivity.
Qed.

(** X7. Every feature word that a slug is exploded into is non-empty and
    has no whitespace, no underscore and no hyphen. *)
Theorem explodeSlug_words_clean (featureSlug : jsstring) :
  Forall (fun w => w <> []
                   /\ forallb (fun c => negb (isSpace c)) w = true
                   /\ forallb (fun c => negb (isSlugSeparator c)) w = true)
         (explodeSlug featureSlug).
Proof.
  unfold explodeSlug, splitWs.
  pose proof (splitWsFrom_pieces _ _ false
                (replaceSeparatorRuns_clean featureSlug false)) as H.
  induction H as [|w ws [Hq Hs] _ IH]; [constructor|].
  cbn [filter]. destruct w as [|c w]; [exact IH|].
  constructor; [|exact IH]. repeat split; [discriminate | exact Hs | exact Hq].
Qed.

Lemma hyphenSlug_no_slash L D R :
  forallb isAlpha L = true -> forallb isDigit D = true ->
  forallb notSlash R = true ->
  slashSlugMatch (hyphenSlug L D R) = None.
Proof.
  intros HL HD HR. unfold slashSlugMatch, hyphenSlug, span.
  change (L ++ js "-" ++ D ++ js "-" ++ R) with (L ++ "-"%char :: (D ++ "-"%char :: R)).
  rewrite takeWhile_app, dropWhile_app by (assumption || reflexivity).
  destruct L as [|l L']; [reflexivity|]. rewrite ascii_eqb_refl.
  rewrite takeWhile_app, dropWhile_app by (assumption || reflexivity).
  destruct D as [|d D']; [reflexivity|].
  rewrite dropWhile_all; [reflexivity|]. cbn [forallb]. exact HR.
Qed.

Lemma hyphenSlugMatch_accepted L D R :
  L <> [] -> forallb isAlpha L = true ->
  D <> [] -> forallb isDigit D = true ->
  R <> [] -> forallb (fun c => negb (isLineTerminator c)) R = true ->
  hyphenSlugMatch (hyphenSlug L D R) = Some (L, D, R).
Proof.
  intros HLne HL HDne HD HRne HR. unfold hyphenSlugMatch, hyphenSlug, span.
  change (L ++ js "-" ++ D ++ js "-" ++ R) with (L ++ "-"%char :: (D ++ "-"%char :: R)).
  rewrite takeWhile_app, dropWhile_app by (assumption || reflexivity).
  destruct L as [|l L']; [congruence|]. rewrite ascii_eqb_refl.
  rewrite takeWhile_app, dropWhile_app by (assumption || reflexivity).
  destruct D as [|d D']; [congruence|]. rewrite ascii_eqb_refl.
  unfold matchDotPlusEnd. rewrite HR.
  destruct R; [congruence | reflexivity].
Qed.

(** X8. When the trimmed title is letters, a hyphen, digits, a hyphen and
    a non-empty rest in ASCII without slash and without line terminator,
    the words are the letters, the digits and the pieces of the rest, as
    for a slug with a slash. *)
Theorem hyphen_slug_words (title L D R : jsstring) :
  trim title = hyphenSlug L D R ->
  isAsciiText R ->
  L <> [] -> forallb isAlpha L = true ->
  D <> [] -> forallb isDigit D = true ->
  R <> [] -> forallb (fun c => negb (isLineTerminator c)) R = true ->
  forallb notSlash R = true ->
  titleWords (trim title) = L :: D :: explodeSlug R /\
  parsePRTitle title = formatTitle (L :: D :: explodeSlug R).
Proof.
  intros Ht _ HLne HL HDne HD HRne HR HRs.
  assert (E : titleWords (trim title) = L :: D :: explodeSlug R).
  { rewrite Ht. unfold titleWords.
    rewrite hyphenSlug_no_slash, hyphenSlugMatch_accepted by assumption.
    reflexivity. }
  split; [exact E|]. unfold parsePRTitle. rewrite E. reflexivity.
Qed.

Lemma hyphen_slug_words_witness :
  (trim (js " MB-95-remove_minimum--constraint ")
     = hyphenSlug (js "MB") (js "95") (js "remove_minimum--constraint") /\
   isAsciiText (js "remove_minimum--constraint") /\
   js "MB" <> [] /\ forallb isAlpha (js "MB") = true /\
   js "95" <> [] /\ forallb isDigit (js "95") = true /\
   js "remove_minimum--constraint" <> [] /\
   forallb (fun c => negb (isLineTerminator c)) (js "remove_minimum--constraint") = true /\
   forallb notSlash (js "remove_minimum--constraint") = true) /\
  (titleWords (trim (js " MB-95-remove_minimum--constraint "))
     = js "MB" :: js "95" :: explodeSlug (js "remove_minimum--constraint") /\
   parsePRTitle (js " MB-95-remove_minimum--constraint ")
     = formatTitle (js "MB" :: js "95" :: explodeSlug (js "remove_minimum--constraint"))).
Proof.
  assert (H2 : js "MB" <> []) by discriminate.
  assert (H4 : js "95" <> []) by discriminate.
  assert (H6 : js "remove_minimum--constraint" <> []) by discriminate.
  split; [repeat split; try reflexivity; assumption|].
  exact (@hyphen_slug_words (js " MB-95-remove_minimum--constraint ")
           (js "MB") (js "95") (js "remove_minimum--constraint")
           eq_refl eq_refl H2 eq_refl H4 eq_refl H6 eq_refl eq_refl).
Defined.

(** ** Title parser: titles without a part suffix *)

Lemma scanPart_none ws n :
  (forall i, isPartAt ws i = false) -> scanPart ws n = None.
Proof.
  intro H. induction n as [|n IH]; [reflexivity|].
  cbn [scanPart]. rewrite H. exact IH.
Qed.

Lemma formatTitle_no_part words ticketId remainingWords :
  resolveTicket words = (ticketId, remainingWords) ->
  remainingWords <> [] ->
  (forall i, isPartAt remainingWords i = false) ->
  formatTitle words = ticketId ++ featureSuffix remainingWords.
Proof.
  intros Ht Hne Hno. unfold formatTitle.
  destruct words as [|w ws].
  - change (resolveTicket []) with (js "[]", @nil jsstring) in Ht.
    injection Ht as _ Hr. congruence.
  - rewrite Ht. destruct remainingWords as [|r rs]; [congruence|].
    unfold extractPart. rewrite scanPart_none by assumption. reflexivity.
Qed.

(** X9. When no word after the ticket identifier is part, in any case,
    followed by a word of digits only, nothing is removed: the title is the
    ticket identifier, a space, and the remaining words joined by single
    spaces with the first character in upper case. *)
Theorem parsePRTitle_without_part
    (title ticketId : jsstring) (remainingWords : list jsstring) :
  resolveTicket (titleWords (trim title)) = (ticketId, remainingWords) ->
  remainingWords <> [] ->
  (forall i, isPartAt remainingWords i = false) ->
  parsePRTitle title
  = ticketId ++ js " " ++ capitalize (join (js " ") remainingWords).
Proof.
  intros Ht Hne Hno. unfold parsePRTitle.
  rewrite (formatTitle_no_part _ Ht Hne Hno).
  destruct remainingWords; [congruence | reflexivity].
Qed.

Lemma parsePRTitle_without_part_witness :
  (resolveTicket (titleWords (trim (js "Mb 80 this is part of the feature")))
     = (js "[MB-80]", [js "this"; js "is"; js "part"; js "of"; js "the"; js "feature"]) /\
   [js "this"; js "is"; js "part"; js "of"; js "the"; js "feature"] <> [] /\
   (forall i, isPartAt [js "this"; js "is"; js "part"; js "of"; js "the"; js "feature"] i
              = false)) /\
  parsePRTitle (js "Mb 80 this is part of the feature")
  = js "[MB-80]" ++ js " "
      ++ capitalize (join (js " ")
           [js "this"; js "is"; js "part"; js "of"; js "the"; js "feature"]).
Proof.
  assert (H2 : [js "this"; js "is"; js "part"; js "of"; js "the"; js "feature"] <> [])
    by discriminate.
  assert (H3 : forall i,
    isPartAt [js "this"; js "is"; js "part"; js "of"; js "the"; js "feature"] i = false).
  { intros [|[|[|[|[|[|[|i]]]]]]]; reflexivity. }
  split; [repeat split; try reflexivity; assumption|].
  exact (@parsePRTitle_without_part (js "Mb 80 this is part of the feature")
           (js "[MB-80]")
           [js "this"; js "is"; js "part"; js "of"; js "the"; js "feature"]
           eq_refl H2 H3).
Defined.

(** ** Title parser: words joined by single spaces *)

Lemma splitWsFrom_cons b c t :
  isSpace c = false ->
  splitWsFrom b (c :: t)
  = match splitWsFrom false t with
    | p :: ps => (c :: p) :: ps
    | [] => [[c]]
    end.
Proof. intro H. cbn [splitWsFrom]. rewrite H. reflexivity. Qed.

Lemma splitWsFrom_run rest : forall w c b,
  forallb (fun c => negb (isSpace c)) w = true -> isSpace c = false ->
  splitWsFrom b (c :: w ++ " "%char :: rest) = (c :: w) :: splitWsFrom true rest.
Proof.
  induction w as [|d w IH]; intros c b Hw Hc.
  - cbn [app splitWsFrom]. rewrite Hc. reflexivity.
  - cbn [forallb] in Hw. apply andb_true_iff in Hw. destruct Hw as [Hd Hw].
    apply negb_true_iff in Hd.
    change (c :: (d :: w) ++ " "%char :: rest)
      with (c :: (d :: w ++ " "%char :: rest)).
    rewrite splitWsFrom_cons by assumption.
    rewrite (IH d false Hw Hd). reflexivity.
Qed.

Lemma splitWsFrom_word w rest b :
  isWord w ->
  splitWsFrom b (w ++ " "%char :: rest) = w :: splitWsFrom true rest.
Proof.
  intros [Hne Hw]. destruct w as [|c w]; [congruence|].
  cbn [forallb] in Hw. apply andb_true_iff in Hw. destruct Hw as [Hc Hw].
  apply negb_true_iff in Hc. apply splitWsFrom_run; assumption.
Qed.

Lemma splitWsFrom_true_word w ws :
  isWord w ->
  splitWsFrom true (join (js " ") (w :: ws)) = splitWsFrom false (join (js " ") (w :: ws)).
Proof.
  intros [Hne Hw]. destruct w as [|c w]; [congruence|].
  cbn [forallb] in Hw. apply andb_true_iff in Hw. destruct Hw as [Hc _].
  apply negb_true_iff in Hc.
  destruct ws; cbn [join app splitWsFrom]; rewrite Hc; reflexivity.
Qed.

(** Splitting the words joined by single spaces gives the words back. *)
Lemma splitWs_join ws :
  ws <> [] -> Forall isWord ws -> splitWs (join (js " ") ws) = ws.
Proof.
  unfold splitWs. intros Hne H. induction H as [|w ws Hw Hws IH]; [congruence|].
  destruct ws as [|w' ws'].
  - cbn [join]. apply splitWs_no_space. apply Hw.
  - change (join (js " ") (w :: w' :: ws'))
      with (w ++ " "%char :: join (js " ") (w' :: ws')).
    rewrite (@splitWsFrom_word w _ false Hw).
    inversion Hws as [|? ? Hw' _]; subst.
    rewrite (@splitWsFrom_true_word w' ws' Hw'), IH by discriminate. reflexivity.
Qed.

Lemma join_first_char w ws (q : ascii -> bool) :
  isWord w -> q " "%char = false ->
  dropWhile q (join (js " ") (w :: ws))
  = match dropWhile q w with
    | [] => match ws with [] => [] | _ => " "%char :: join (js " ") ws end
    | r => match ws with [] => r | _ => r ++ " "%char :: join (js " ") ws end
    end.
Proof.
  intros _ Hq. destruct ws as [|w' ws'].
  - cbn [join]. destruct (dropWhile q w); reflexivity.
  - change (join (js " ") (w :: w' :: ws'))
      with (w ++ " "%char :: join (js " ") (w' :: ws')).
    rewrite dropWhile_app_stop by assumption.
    destruct (dropWhile q w); reflexivity.
Qed.

(** No slug pattern matches when the first character after the leading
    letters is not a hyphen. *)
Lemma no_slug_without_hyphen s :
  headFails (fun c => ascii_eqb c "-") (dropWhile isAlpha s) ->
  slashSlugMatch s = None /\ hyphenSlugMatch s = None.
Proof.
  intro H. unfold slashSlugMatch, hyphenSlugMatch, span.
  destruct (takeWhile isAlpha s); [split; reflexivity|].
  destruct (dropWhile isAlpha s) as [|c r]; [split; reflexivity|].
  simpl in H. rewrite H. split; reflexivity.
Qed.

Lemma join_head_not_hyphen w ws :
  isWord w -> forallb notHyphen w = true ->
  headFails (fun c => ascii_eqb c "-") (dropWhile isAlpha (join (js " ") (w :: ws))).
Proof.
  intros Hw Hh. rewrite join_first_char by (assumption || reflexivity).
  pose proof (forallb_dropWhile notHyphen isAlpha w Hh) as Hd.
  destruct (dropWhile isAlpha w) as [|c r].
  - destruct ws; [exact I | reflexivity].
  - cbn [forallb] in Hd. apply andb_true_iff in Hd. destruct Hd as [Hc _].
    unfold notHyphen in Hc. apply negb_true_iff in Hc.
    destruct ws; exact Hc.
Qed.

Lemma join_no_outer_space ws :
  ws <> [] -> Forall isWord ws -> trim (join (js " ") ws) = join (js " ") ws.
Proof.
  intros Hne H. apply trim_fixed.
  - destruct ws as [|w ws]; [congruence|]. inversion H as [|? ? [Hwne Hw] _]; subst.
    destruct w as [|c w]; [congruence|].
    cbn [forallb] in Hw. apply andb_true_iff in Hw. destruct Hw as [Hc _].
    apply negb_true_iff in Hc. destruct ws; exact Hc.
  - unfold lastFails. clear Hne. induction H as [|w ws [Hwne Hw] Hws IH]; [exact I|].
    destruct ws as [|w' ws'].
    + cbn [join]. rewrite <- forallb_rev in Hw.
      destruct (rev w) as [|c m] eqn:E.
      * apply (f_equal (@length ascii)) in E. rewrite length_rev in E.
        destruct w; [congruence | discriminate].
      * cbn [forallb] in Hw. apply andb_true_iff in Hw. destruct Hw as [Hc _].
        apply negb_true_iff in Hc. exact Hc.
    + change (join (js " ") (w :: w' :: ws'))
        with (w ++ " "%char :: join (js " ") (w' :: ws')).
      rewrite rev_app_distr. cbn [rev]. rewrite <- app_assoc.
      destruct (rev (join (js " ") (w' :: ws'))) as [|c m] eqn:E.
      * apply (f_equal (@length ascii)) in E. rewrite length_rev in E.
        inversion Hws as [|? ? [Hw'ne _] _]; subst.
        destruct w' as [|d w']; [congruence|]. destruct ws'; discriminate.
      * exact IH.
Qed.

(** X10. For a title made of words in ASCII (non-empty, without
    whitespace) joined by single spaces, whose first word has no hyphen,
    the words that the title parser works on are exactly these words:
    splitting undoes the joining, and no slug pattern applies. *)
Theorem titleWords_of_joined_words (w : jsstring) (ws : list jsstring) :
  Forall isWord (w :: ws) ->
  Forall isAsciiText (w :: ws) ->
  forallb notHyphen w = true ->
  splitWs (join (js " ") (w :: ws)) = w :: ws /\
  titleWords (trim (join (js " ") (w :: ws))) = w :: ws /\
  parsePRTitle (join (js " ") (w :: ws)) = formatTitle (w :: ws).
Proof.
  intros Hws _ Hh.
  assert (Hw : isWord w) by (inversion Hws; assumption).
  assert (Es : splitWs (join (js " ") (w :: ws)) = w :: ws)
    by (apply splitWs_join; [discriminate | assumption]).
  assert (Et : titleWords (trim (join (js " ") (w :: ws))) = w :: ws).
  { rewrite join_no_outer_space by (discriminate || assumption).
    unfold titleWords.
    destruct (no_slug_without_hyphen _ (join_head_not_hyphen ws Hw Hh)) as [-> ->].
    exact Es. }
  split; [exact Es|]. split; [exact Et|].
  unfold parsePRTitle. rewrite Et. reflexivity.
Qed.

Lemma titleWords_of_joined_words_witness :
  (Forall isWord [js "Saas"; js "1234"; js "feature-name"] /\
   Forall isAsciiText [js "Saas"; js "1234"; js "feature-name"] /\
   forallb notHyphen (js "Saas") = true) /\
  (splitWs (join (js " ") [js "Saas"; js "1234"; js "feature-name"])
     = [js "Saas"; js "1234"; js "feature-name"] /\
   titleWords (trim (join (js " ") [js "Saas"; js "1234"; js "feature-name"]))
     = [js "Saas"; js "1234"; js "feature-name"] /\
   parsePRTitle (join (js " ") [js "Saas"; js "1234"; js "feature-name"])
     = formatTitle [js "Saas"; js "1234"; js "feature-name"]).
Proof.
  assert (H1 : Forall isWord [js "Saas"; js "1234"; js "feature-name"]).
  { repeat constructor; discriminate. }
  assert (A1 : Forall isAsciiText [js "Saas"; js "1234"; js "feature-name"]).
  { repeat constructor. }
  split; [split; [exact H1 | split; [exact A1 | reflexivity]]|].
  exact (@titleWords_of_joined_words (js "Saas") [js "1234"; js "feature-name"]
           H1 A1 eq_refl).
Defined.

(** ** Title parser: the ticket identifier of a title in words *)








(** ** Tag mode: documents of several tags *)

Lemma extractTagImages_nil : extractTagImages [] = [].
Proof. reflexivity. Qed.

Lemma extractTagImages_cons c t :
  extractTagImages (c :: t) =
  match matchImgTagHere (c :: t) with
  | Some (tag, rest) => imageOfTag tag ++ extractTagImages rest
  | None => extractTagImages t
  end.
Proof.
  unfold extractTagImages. rewrite scanImgTags_step.
  destruct (matchImgTagHere (c :: t)) as [[tag rest]|]; reflexivity.
Qed.

Lemma notLt_lower c :
  notLt c = true -> ascii_eqb (toLowerChar "<") (toLowerChar c) = false.
Proof. ascii_cases c; vm_compute; congruence. Qed.

(** Text without an opening angle bracket is passed over. *)
Lemma extractTagImages_skip junk rest :
  forallb notLt junk = true ->
  extractTagImages (junk ++ rest) = extractTagImages rest.
Proof.
  induction junk as [|c junk IH]; intro H; [reflexivity|].
  cbn [forallb] in H. apply andb_true_iff in H. destruct H as [Hc Hj].
  cbn [app]. rewrite extractTagImages_cons.
  assert (E : matchImgTagHere (c :: junk ++ rest) = None).
  { unfold matchImgTagHere. cbn [js String.list_ascii_of_string stripPrefixCI].
    rewrite (notLt_lower c Hc). reflexivity. }
  rewrite E. apply IH. exact Hj.
Qed.

Lemma matchImgTagHere_tag_rest body rest :
  body <> [] -> forallb notGt body = true ->
  matchImgTagHere (js "<img" ++ body ++ ">"%char :: rest)
    = Some (js "<img" ++ body ++ [">"%char], rest).
Proof.
  intros Hne Hb. unfold matchImgTagHere, span.
  rewrite stripPrefixCI_self.
  rewrite takeWhile_app, dropWhile_app by (assumption || reflexivity).
  destruct body; [congruence | reflexivity].
Qed.

Lemma tag_match_rest A U rest :
  forallb notGt A = true -> forallb notGt U = true ->
  matchImgTagHere (tagDocument A U ++ rest) = Some (tagDocument A U, rest).
Proof.
  intros HA HU.
  assert (E : forall tail, tagDocument A U ++ tail
    = js "<img" ++ (js " alt=" ++ dquote :: A ++ dquote :: js " src=" ++ dquote :: U ++ [dquote])
        ++ ">"%char :: tail).
  { intro tail. unfold tagDocument. cbn [js String.list_ascii_of_string app].
    rewrite <- !app_assoc. cbn [app]. rewrite <- !app_assoc. reflexivity. }
  rewrite (E rest). rewrite <- (app_nil_r (tagDocument A U)) at 1. rewrite (E []).
  apply matchImgTagHere_tag_rest; [discriminate|].
  cbn [js String.list_ascii_of_string app forallb].
  rewrite forallb_app. cbn [forallb]. rewrite forallb_app. cbn [forallb].
  rewrite HA, HU. reflexivity.
Qed.

Lemma extractTagImages_tag A U rest :
  agreeingLabel A -> agreeingSource U ->
  extractTagImages (tagDocument A U ++ rest) = imageOf A U :: extractTagImages rest.
Proof.
  intros ((HAne & HAq & _) & HAg & _ & HAs) ((HUne & _ & _) & HUq & HUg & _).
  pose proof (tag_match_rest A U rest HAg HUg) as Hm.
  assert (Ed : exists c t, tagDocument A U ++ rest = c :: t)
    by (eexists; eexists; reflexivity).
  destruct Ed as (c & t & Ed). rewrite Ed in *.
  rewrite extractTagImages_cons, Hm.
  unfold imageOfTag. rewrite tag_alt, tag_src by assumption. reflexivity.
Qed.

Lemma extractTagImages_documents sep l :
  forallb notLt sep = true -> Forall agreeingPair l ->
  extractTagImages (tagDocuments sep l) = map imageOfPair l.
Proof.
  intros Hsep H. induction H as [|[A U] l [HA HU] _ IH]; [reflexivity|].
  unfold tagDocuments in *. cbn [flat_map fst snd map].
  rewrite <- app_assoc, extractTagImages_tag by assumption.
  rewrite extractTagImages_skip by assumption. rewrite IH. reflexivity.
Qed.

(** X13. In tag mode a tag with an agreeing label and source in front of
    any text adds its record in front of the records of that text, text
    without an opening angle bracket adds nothing, and so the records of a
    document of such tags with such separators are the records of the
    pairs in document order; the document without any tag has none. *)
Theorem tag_mode_documents
    (A U rest junk sep : jsstring) (l : list (jsstring * jsstring)) :
  agreeingLabel A -> agreeingSource U ->
  forallb notLt junk = true -> forallb notLt sep = true ->
  Forall agreeingPair l ->
  extractTagImages (tagDocument A U ++ rest) = imageOf A U :: extractTagImages rest /\
  extractTagImages (junk ++ rest) = extractTagImages rest /\
  parseImages junk = [] /\
  parseImages (tagDocuments sep l) = sortBy compareOrder (map imageOfPair l).
Proof.
  intros HA HU Hj Hs Hl.
  split; [apply extractTagImages_tag; assumption|].
  split; [apply extractTagImages_skip; assumption|].
  split.
  - unfold parseImages. rewrite <- (app_nil_r junk).
    rewrite extractTagImages_skip by assumption. reflexivity.
  - unfold parseImages. rewrite extractTagImages_documents by assumption.
    reflexivity.
Qed.

(** ** Link mode: one link and what follows it *)

Lemma extractLinkImages_cons c t :
  extractLinkImages (c :: t) =
  match linkStep (c :: t) with
  | Some (found, next) => found ++ extractLinkImages next
  | None => []
  end.
Proof. unfold extractLinkImages. apply linkLoop_step. Qed.

Lemma scanParens_balanced t k : forall U d,
  parensBalanced d U = true ->
  scanParens (S k + d) (U ++ t) =
  match scanParens (S k) t with
  | (d', passed, rest) => (d', U ++ passed, rest)
  end.
Proof.
  induction U as [|c U IH]; intros d H.
  - cbn [parensBalanced] in H. apply Nat.eqb_eq in H. subst d.
    rewrite Nat.add_0_r. cbn [app].
    destruct (scanParens (S k) t) as [[d' p] r]. reflexivity.
  - cbn [parensBalanced] in H. cbn [app Nat.add scanParens].
    destruct (ascii_eqb c "(") eqn:Eo.
    + replace (S (S (k + d))) with (S k + S d) by lia.
      rewrite (IH (S d) H).
      destruct (scanParens (S k) t) as [[d' p] r]. reflexivity.
    + destruct (ascii_eqb c ")") eqn:Ec.
      * destruct d as [|d0]; [discriminate|].
        replace (S (k + S d0) - 1) with (S k + d0) by lia.
        rewrite (IH d0 H).
        destruct (scanParens (S k) t) as [[d' p] r]. reflexivity.
      * change (S (k + d)) with (S k + d). rewrite (IH d H).
        destruct (scanParens (S k) t) as [[d' p] r]. reflexivity.
Qed.

Lemma scanParens_inner inner rest :
  parensBalanced 0 inner = true ->
  scanParens 1 (inner ++ ")"%char :: rest) = (0, inner ++ [")"%char], rest).
Proof.
  intro H. change 1 with (1 + 0).
  rewrite (@scanParens_balanced (")"%char :: rest) 0 inner 0 H).
  cbn [scanParens]. change (ascii_eqb ")" "(") with false.
  rewrite ascii_eqb_refl. cbn [Nat.sub]. rewrite scanParens_zero. reflexivity.
Qed.

Lemma linkForm_eq A gap inner rest :
  linkForm A gap inner ++ rest
  = "!"%char :: "["%char
      :: (A ++ "]"%char :: (gap ++ "("%char :: (inner ++ ")"%char :: rest))).
Proof.
  unfold linkForm. cbn [js String.list_ascii_of_string app].
  rewrite <- !app_assoc. cbn [app]. rewrite <- !app_assoc. cbn [app].
  rewrite <- !app_assoc. reflexivity.
Qed.

Lemma linkStep_form A gap inner rest :
  closedLabel A -> forallb isSpace gap = true ->
  parensBalanced 0 inner = true ->
  linkStep (linkForm A gap inner ++ rest) = Some (linkRecords A inner, rest).
Proof.
  intros [HAe HAl] Hgap Hin. rewrite linkForm_eq. unfold linkStep.
  cbn [afterMarker]. rewrite !ascii_eqb_refl. cbn [andb].
  rewrite readLabel_label by assumption.
  cbn [skipn]. rewrite dropWhile_app by (assumption || reflexivity).
  rewrite ascii_eqb_refl, scanParens_inner by assumption.
  rewrite removelast_last. reflexivity.
Qed.

Lemma afterMarker_skip junk rest :
  forallb notBang junk = true -> afterMarker (junk ++ rest) = afterMarker rest.
Proof.
  induction junk as [|c junk IH]; intro H; [reflexivity|].
  cbn [forallb] in H. apply andb_true_iff in H. destruct H as [Hc Hj].
  unfold notBang in Hc. apply negb_true_iff in Hc.
  cbn [app afterMarker]. rewrite Hc. cbn [andb].
  rewrite <- (IH Hj). destruct (junk ++ rest); reflexivity.
Qed.

(** Text without an exclamation mark is passed over. *)
Lemma extractLinkImages_skip junk rest :
  forallb notBang junk = true ->
  extractLinkImages (junk ++ rest) = extractLinkImages rest.
Proof.
  intro H. pose proof (afterMarker_skip junk rest H) as Ha.
  assert (Hs : linkStep (junk ++ rest) = linkStep rest)
    by (unfold linkStep; rewrite Ha; reflexivity).
  destruct (junk ++ rest) as [|c t] eqn:E.
  - destruct junk; [simpl in E; subst; reflexivity | discriminate].
  - rewrite extractLinkImages_cons, Hs.
    destruct rest as [|c' t'].
    + reflexivity.
    + rewrite extractLinkImages_cons. reflexivity.
Qed.

Lemma extractLinkImages_form A gap inner rest :
  closedLabel A -> forallb isSpace gap = true ->
  parensBalanced 0 inner = true ->
  extractLinkImages (linkForm A gap inner ++ rest)
  = linkRecords A inner ++ extractLinkImages rest.
Proof.
  intros HA Hgap Hin. pose proof (@linkStep_form A gap inner rest HA Hgap Hin) as Hs.
  rewrite linkForm_eq in *. rewrite extractLinkImages_cons, Hs. reflexivity.
Qed.

(** X14. In link mode a link whose label is closed by the bracket after
    it, with optional whitespace before the opening parenthesis and a text
    with balanced parentheses between the parentheses, is read as a whole:
    in front of any text it adds the record of its label and of the source
    named by the trimmed text, when neither is empty, in front of the
    records of that text.  Text without an exclamation mark adds nothing;
    a document without any has no record. *)
Theorem link_mode_step (A gap inner rest junk : jsstring) :
  closedLabel A -> forallb isSpace gap = true ->
  parensBalanced 0 inner = true ->
  forallb notBang junk = true ->
  extractLinkImages (linkForm A gap inner ++ rest)
    = linkRecords A inner ++ extractLinkImages rest /\
  extractLinkImages (junk ++ rest) = extractLinkImages rest /\
  parseImagesMarkdown junk = [].
Proof.
  intros HA Hgap Hin Hj.
  split; [apply extractLinkImages_form; assumption|].
  split; [apply extractLinkImages_skip; assumption|].
  unfold parseImagesMarkdown. rewrite <- (app_nil_r junk).
  rewrite extractLinkImages_skip by assumption. reflexivity.
Qed.

(** ** Link mode: the source named between the parentheses *)

Lemma trimEnd_app_keep U tail :
  U <> [] -> lastFails isSpace U -> trimEnd (U ++ tail) = U ++ trimEnd tail.
Proof.
  intros Hne Hl. unfold trimEnd. rewrite rev_app_distr.
  destruct (dropWhile isSpace (rev tail)) as [|c u] eqn:E.
  - rewrite dropWhile_app_all by (apply dropWhile_nil_all; exact E).
    rewrite (dropWhile_headFails isSpace (rev U) Hl), rev_involutive.
    cbn [rev]. symmetry. apply app_nil_r.
  - rewrite dropWhile_app_keep by (rewrite E; discriminate).
    rewrite E, rev_app_distr, rev_involutive. reflexivity.
Qed.

Lemma trimEnd_head tail c x :
  trimEnd tail = c :: x -> exists y, tail = c :: y.
Proof.
  unfold trimEnd. intro H.
  pose proof (takeWhile_dropWhile isSpace (rev tail)) as Hs.
  apply (f_equal (@rev ascii)) in Hs.
  rewrite rev_app_distr, rev_involutive, H in Hs.
  cbn [app] in Hs. eexists. symmetry. exact Hs.
Qed.

Lemma word_lastFails U :
  forallb (fun c => negb (isSpace c)) U = true -> lastFails isSpace U.
Proof.
  unfold lastFails. rewrite <- forallb_rev.
  destruct (rev U) as [|c m]; [intros; exact I|]. cbn [forallb headFails].
  intro H. apply andb_true_iff in H. destruct H as [Hc _].
  apply negb_true_iff in Hc. exact Hc.
Qed.

Lemma splitWsFrom_run_ws rest sp : forall w c b,
  forallb (fun c => negb (isSpace c)) w = true -> isSpace c = false ->
  isSpace sp = true ->
  exists pieces, splitWsFrom b (c :: w ++ sp :: rest) = (c :: w) :: pieces.
Proof.
  induction w as [|d w IH]; intros c b Hw Hc Hsp.
  - cbn [app splitWsFrom]. rewrite Hc, Hsp. eexists. reflexivity.
  - cbn [forallb] in Hw. apply andb_true_iff in Hw. destruct Hw as [Hd Hw].
    apply negb_true_iff in Hd.
    change (c :: (d :: w) ++ sp :: rest) with (c :: (d :: w ++ sp :: rest)).
    rewrite splitWsFrom_cons by assumption.
    destruct (IH d false Hw Hd Hsp) as [pieces ->]. eexists. reflexivity.
Qed.

Lemma indexOfGt_app V T :
  forallb notGt V = true -> indexOfGt (V ++ ">"%char :: T) = Some (length V).
Proof.
  induction V as [|c V IH]; intro H.
  - reflexivity.
  - cbn [forallb] in H. apply andb_true_iff in H. destruct H as [Hc HV].
    unfold notGt in Hc. apply negb_true_iff in Hc.
    cbn [app indexOfGt]. rewrite Hc, (IH HV). reflexivity.
Qed.

Lemma linkSource_plain_title ws1 U tail :
  forallb isSpace ws1 = true ->
  isWord U -> headFails (fun c => ascii_eqb c "<") U ->
  headFails (fun c => negb (isSpace c)) tail ->
  linkSource (trim (ws1 ++ U ++ tail)) = U.
Proof.
  intros H1 [HUne HU] Hlt Htail.
  destruct U as [|c U']; [congruence|].
  assert (Hc : isSpace c = false).
  { cbn [forallb] in HU. apply andb_true_iff in HU. destruct HU as [Hc _].
    apply negb_true_iff in Hc. exact Hc. }
  unfold trim, trimStart.
  rewrite dropWhile_app_head by (assumption || exact Hc).
  rewrite trimEnd_app_keep by (discriminate || apply word_lastFails; exact HU).
  unfold linkSource. cbn [app]. simpl in Hlt. rewrite Hlt.
  destruct (trimEnd tail) as [|s x] eqn:E.
  - rewrite app_nil_r, splitWs_no_space by exact HU. reflexivity.
  - destruct (trimEnd_head _ E) as [y Ey]. subst tail. simpl in Htail.
    apply negb_false_iff in Htail.
    cbn [forallb] in HU. apply andb_true_iff in HU. destruct HU as [_ HU].
    unfold splitWs.
    destruct (@splitWsFrom_run_ws x s U' c false HU Hc Htail) as [pieces ->].
    reflexivity.
Qed.

Lemma linkSource_angle ws1 V tail :
  forallb isSpace ws1 = true ->
  V <> [] -> forallb notGt V = true ->
  linkSource (trim (ws1 ++ "<"%char :: V ++ ">"%char :: tail)) = trim V.
Proof.
  intros H1 HVne HV. unfold trim at 1, trimStart.
  rewrite dropWhile_app_head by (assumption || reflexivity).
  replace ("<"%char :: V ++ ">"%char :: tail)
    with (("<"%char :: V ++ [">"%char]) ++ tail)
    by (cbn [app]; rewrite <- app_assoc; reflexivity).
  rewrite trimEnd_app_keep;
    [| discriminate
     | unfold lastFails; cbn [rev]; rewrite rev_app_distr; reflexivity].
  cbn [app]. rewrite <- app_assoc. cbn [app].
  unfold linkSource. rewrite ascii_eqb_refl.
  cbn [indexOfGt]. change (ascii_eqb "<" ">") with false. cbv iota.
  rewrite indexOfGt_app by assumption. cbn [option_map].
  destruct V as [|v V']; [congruence|].
  cbn [length Nat.ltb Nat.leb skipn Nat.sub].
  change (v :: V' ++ ">"%char :: trimEnd tail)
    with ((v :: V') ++ ">"%char :: trimEnd tail).
  replace (length V' - 0) with (length V') by lia.
  replace (S (length V')) with (length (v :: V')) by reflexivity.
  rewrite firstn_app, firstn_all, Nat.sub_diag. cbn [firstn].
  rewrite app_nil_r. reflexivity.
Qed.

(** X15. The source of a link is the first word of the text between the
    parentheses: whitespace before it, and whitespace and a title after it,
    are dropped.  When the text starts, after whitespace, with an opening
    angle bracket, the source is the trimmed text up to the first closing
    angle bracket, and may then contain whitespace.  The word and the text
    between the angle brackets are in ASCII. *)
Theorem link_targets (ws1 U tail V tail' : jsstring) :
  forallb isSpace ws1 = true ->
  isAsciiText U -> isAsciiText V ->
  isWord U -> headFails (fun c => ascii_eqb c "<") U ->
  headFails (fun c => negb (isSpace c)) tail ->
  V <> [] -> forallb notGt V = true ->
  linkSource (trim (ws1 ++ U ++ tail)) = U /\
  linkSource (trim (ws1 ++ "<"%char :: V ++ ">"%char :: tail')) = trim V.
Proof.
  intros H1 _ _ HU Hlt Htail HVne HV. split.
  - apply linkSource_plain_title; assumption.
  - apply linkSource_angle; assumption.
Qed.

Lemma link_targets_witness :
  (forallb isSpace (js " ") = true /\
   isAsciiText (js "shots/a_(1).png") /\ isAsciiText (js " my shot.png ") /\
   isWord (js "shots/a_(1).png") /\
   headFails (fun c => ascii_eqb c "<") (js "shots/a_(1).png") /\
   headFails (fun c => negb (isSpace c)) (js " 'the title'  ") /\
   js " my shot.png " <> [] /\ forallb notGt (js " my shot.png ") = true) /\
  (linkSource (trim (js " " ++ js "shots/a_(1).png" ++ js " 'the title'  "))
     = js "shots/a_(1).png" /\
   linkSource (trim (js " " ++ "<"%char :: js " my shot.png " ++ ">"%char :: js " x"))
     = trim (js " my shot.png ")).
Proof.
  assert (H2 : isWord (js "shots/a_(1).png")) by (split; [discriminate | reflexivity]).
  assert (H5 : js " my shot.png " <> []) by discriminate.
  split; [repeat split; try reflexivity; try assumption; apply H2|].
  exact (@link_targets (js " ") (js "shots/a_(1).png") (js " 'the title'  ")
           (js " my shot.png ") (js " x") eq_refl eq_refl eq_refl H2 eq_refl
           eq_refl H5 eq_refl).
Defined.

(** ** Link mode: markers without a complete link *)

Lemma readLabel_unclosed T : forall prev,
  bracketsEscaped prev T = true -> readLabel prev T = None.
Proof.
  induction T as [|c T IH]; intros prev H; [reflexivity|].
  cbn [bracketsEscaped readLabel] in *.
  apply andb_true_iff in H. destruct H as [Hc HT].
  apply negb_true_iff in Hc. rewrite Hc, (IH c HT). reflexivity.
Qed.

(** X16. A marker and a closed label that are followed by a text in ASCII
    which does not start, after optional whitespace, with an opening
    parenthesis give no record of their own, and the scan resumes right
    after the marker, inside the label.  A marker after which no unescaped
    closing bracket comes ends the scan. *)
Theorem link_without_target (A tail T : jsstring) :
  closedLabel A ->
  isAsciiText tail ->
  headFails (fun c => ascii_eqb c "(") (dropWhile isSpace tail) ->
  bracketsEscaped "["%char T = true ->
  extractLinkImages (js "![" ++ A ++ "]"%char :: tail)
    = extractLinkImages (A ++ "]"%char :: tail) /\
  extractLinkImages (js "![" ++ T) = [].
Proof.
  intros [HAe HAl] _ Htail HT. split.
  - cbn [js String.list_ascii_of_string app].
    rewrite extractLinkImages_cons. unfold linkStep.
    cbn [afterMarker]. rewrite !ascii_eqb_refl. cbn [andb].
    rewrite readLabel_label by assumption. cbn [skipn].
    destruct (dropWhile isSpace tail) as [|c r]; [reflexivity|].
    simpl in Htail. rewrite Htail. reflexivity.
  - cbn [js String.list_ascii_of_string app].
    rewrite extractLinkImages_cons. unfold linkStep.
    cbn [afterMarker]. rewrite !ascii_eqb_refl. cbn [andb].
    rewrite readLabel_unclosed by assumption. reflexivity.
Qed.

Lemma link_without_target_witness :
  (closedLabel (js "note") /\
   isAsciiText (js " see ![a](u)") /\
   headFails (fun c => ascii_eqb c "(") (dropWhile isSpace (js " see ![a](u)")) /\
   bracketsEscaped "["%char (js "never closed (u)") = true) /\
  (extractLinkImages (js "![" ++ js "note" ++ "]"%char :: js " see ![a](u)")
     = extractLinkImages (js "note" ++ "]"%char :: js " see ![a](u)") /\
   extractLinkImages (js "![" ++ js "never closed (u)") = []).
Proof.
  assert (H1 : closedLabel (js "note")).
  { split; [reflexivity | vm_compute; discriminate]. }
  split; [repeat first [assumption | reflexivity | split]|].
  exact (@link_without_target (js "note") (js " see ![a](u)")
           (js "never closed (u)") H1 eq_refl eq_refl eq_refl).
Defined.

(** ** The two modes on documents of several images *)

Lemma notParen_balanced U : forall d,
  forallb notParen U = true -> parensBalanced d U = (d =? 0).
Proof.
  induction U as [|c U IH]; intros d H; [reflexivity|].
  cbn [forallb] in H. apply andb_true_iff in H. destruct H as [Hc HU].
  unfold notParen in Hc. apply andb_true_iff in Hc. destruct Hc as [Ho Hcl].
  apply negb_true_iff in Ho, Hcl.
  cbn [parensBalanced]. rewrite Ho, Hcl. apply IH. exact HU.
Qed.

Lemma linkRecords_agreeing A U :
  agreeingLabel A -> agreeingSource U -> linkRecords A U = [imageOf A U].
Proof.
  intros ((HAne & _ & _) & _) ((HUne & HUs & _) & _ & _ & HUh).
  unfold linkRecords.
  rewrite trim_no_space, linkSource_plain by assumption.
  destruct A; [congruence|]. destruct U; [congruence|]. reflexivity.
Qed.

Lemma extractLinkImages_link A U rest :
  agreeingLabel A -> agreeingSource U ->
  extractLinkImages (linkDocument A U ++ rest) = imageOf A U :: extractLinkImages rest.
Proof.
  intros HA HU.
  change (linkDocument A U) with (linkForm A [] U).
  rewrite extractLinkImages_form.
  - rewrite linkRecords_agreeing by assumption. reflexivity.
  - destruct HA as ((_ & _ & He) & _ & Hl & _). split; assumption.
  - reflexivity.
  - destruct HU as ((_ & _ & Hp) & _). rewrite notParen_balanced by assumption.
    reflexivity.
Qed.

Lemma extractLinkImages_documents sep l :
  forallb notBang sep = true -> Forall agreeingPair l ->
  extractLinkImages (linkDocuments sep l) = map imageOfPair l.
Proof.
  intros Hsep H. induction H as [|[A U] l [HA HU] _ IH]; [reflexivity|].
  unfold linkDocuments in *. cbn [flat_map fst snd map].
  rewrite <- app_assoc, extractLinkImages_link by assumption.
  rewrite extractLinkImages_skip by assumption. rewrite IH. reflexivity.
Qed.

(** X17. For a list of agreeing labels and sources in ASCII, the orders
    of the labels held exactly, and a separator without opening angle
    bracket and without exclamation mark, the document of the tags in tag
    mode and the document of the links in link mode give the same records:
    those of the pairs, sorted by order, pairs of equal order in document
    order. *)
Theorem modes_agree_on_documents (sep : jsstring) (l : list (jsstring * jsstring)) :
  forallb notLt sep = true -> forallb notBang sep = true ->
  Forall agreeingPair l ->
  Forall exactPair l ->
  parseImagesMarkdown (linkDocuments sep l)
    = sortBy compareOrder (map imageOfPair l) /\
  parseImages (tagDocuments sep l) = parseImagesMarkdown (linkDocuments sep l).
Proof.
  intros H1 H2 Hl _. unfold parseImages, parseImagesMarkdown.
  rewrite extractLinkImages_documents, extractTagImages_documents by assumption.
  split; reflexivity.
Qed.

Ltac solve_agreeingLabel :=
  split; [repeat split; (discriminate || reflexivity)|];
  split; [reflexivity|]; split; [vm_compute; discriminate | reflexivity].

Ltac solve_agreeingSource :=
  split; [repeat split; (discriminate || reflexivity)|];
  split; [reflexivity|]; split; [reflexivity | vm_compute; discriminate].

Lemma samplePairs_agreeing : Forall agreeingPair samplePairs.
Proof.
  unfold samplePairs.
  apply Forall_cons; [split; cbn [fst snd]; [solve_agreeingLabel | solve_agreeingSource]|].
  apply Forall_cons; [split; cbn [fst snd]; [solve_agreeingLabel | solve_agreeingSource]|].
  apply Forall_nil.
Defined.

Lemma tag_mode_documents_witness :
  (agreeingLabel (js "1. Login_before") /\ agreeingSource (js "shots/a.png") /\
   forallb notLt (js "no tag here") = true /\ forallb notLt lineFeed = true /\
   Forall agreeingPair samplePairs) /\
  (extractTagImages (tagDocument (js "1. Login_before") (js "shots/a.png") ++ js "<img>")
     = imageOf (js "1. Login_before") (js "shots/a.png") :: extractTagImages (js "<img>") /\
   extractTagImages (js "no tag here" ++ js "<img>") = extractTagImages (js "<img>") /\
   parseImages (js "no tag here") = [] /\
   parseImages (tagDocuments lineFeed samplePairs)
     = sortBy compareOrder (map imageOfPair samplePairs)).
Proof.
  assert (HA : agreeingLabel (js "1. Login_before")) by solve_agreeingLabel.
  assert (HU : agreeingSource (js "shots/a.png")) by solve_agreeingSource.
  split;
    [repeat first [assumption | exact samplePairs_agreeing | reflexivity | split]|].
  exact (@tag_mode_documents (js "1. Login_before") (js "shots/a.png") (js "<img>")
           (js "no tag here") lineFeed samplePairs HA HU eq_refl eq_refl
           samplePairs_agreeing).
Defined.

Lemma link_mode_step_witness :
  (closedLabel (js "Login after") /\ forallb isSpace (js " ") = true /\
   parensBalanced 0 (js "https://example.com/a_(b).png") = true /\
   forallb notBang (js "no link here") = true) /\
  (extractLinkImages (linkForm (js "Login after") (js " ")
                        (js "https://example.com/a_(b).png") ++ js " and more")
     = linkRecords (js "Login after") (js "https://example.com/a_(b).png")
         ++ extractLinkImages (js " and more") /\
   extractLinkImages (js "no link here" ++ js " and more")
     = extractLinkImages (js " and more") /\
   parseImagesMarkdown (js "no link here") = []).
Proof.
  assert (H1 : closedLabel (js "Login after")).
  { split; [reflexivity | vm_compute; discriminate]. }
  split; [repeat first [assumption | reflexivity | split]|].
  exact (@link_mode_step (js "Login after") (js " ")
           (js "https://example.com/a_(b).png") (js " and more")
           (js "no link here") H1 eq_refl eq_refl eq_refl).
Defined.

Lemma modes_agree_on_documents_witness :
  (forallb notLt lineFeed = true /\ forallb notBang lineFeed = true /\
   Forall agreeingPair samplePairs /\ Forall exactPair samplePairs) /\
  (parseImagesMarkdown (linkDocuments lineFeed samplePairs)
     = sortBy compareOrder (map imageOfPair samplePairs) /\
   parseImages (tagDocuments lineFeed samplePairs)
     = parseImagesMarkdown (linkDocuments lineFeed samplePairs)).
Proof.
  assert (HE : Forall exactPair samplePairs).
  { repeat constructor; vm_compute; discriminate. }
  split;
    [split; [reflexivity | split; [reflexivity | split;
       [exact samplePairs_agreeing | exact HE]]]|].
  exact (@modes_agree_on_documents lineFeed samplePairs eq_refl eq_refl
           samplePairs_agreeing HE).
Defined.

(** ** Grouping: the standalone sequence and the keys *)

(** X18. The standalone sequence of the grouping is the sequence of the
    records of the input whose timing is standalone, in the order of the
    input: none is lost, added or moved. *)
Theorem group_standalone_filter (xs : list ImageInfo) :
  standaloneImages (groupImagesByCategory xs) = filter isStandalone xs.
Proof.
  induction xs as [|x xs IH] using rev_ind; [reflexivity|].
  rewrite group_snoc, filter_app. cbn [filter]. unfold isStandalone at 2.
  destruct (Timing_eqb_spec (timing x) Standalone) as [Hx|Hx].
  - rewrite groupStep_standalone by exact Hx. cbn [standaloneImages].
    rewrite IH. reflexivity.
  - rewrite groupStep_paired by exact Hx. cbn [standaloneImages].
    rewrite IH, app_nil_r. reflexivity.
Qed.

Lemma existsb_filter_neq k a l :
  k <> a ->
  existsb (jsstring_eqb k) (filter (fun k' => negb (jsstring_eqb k' a)) l)
  = existsb (jsstring_eqb k) l.
Proof.
  intro Hka. induction l as [|b l IH]; [reflexivity|]. cbn [filter existsb].
  destruct (jsstring_eqb_spec b a) as [->|Hba]; cbn [negb existsb].
  - destruct (jsstring_eqb_spec k a); [congruence|]. exact IH.
  - rewrite IH. reflexivity.
Qed.

Lemma existsb_firstSeen k ks :
  existsb (jsstring_eqb k) (firstSeen ks) = existsb (jsstring_eqb k) ks.
Proof.
  induction ks as [|a ks IH]; [reflexivity|]. cbn [firstSeen existsb].
  destruct (jsstring_eqb_spec k a) as [->|Hka]; [reflexivity|].
  cbn [orb]. rewrite existsb_filter_neq by assumption. exact IH.
Qed.

Lemma firstSeen_snoc k : forall ks,
  firstSeen (ks ++ [k])
  = if existsb (jsstring_eqb k) ks then firstSeen ks else firstSeen ks ++ [k].
Proof.
  induction ks as [|a ks IH].
  - reflexivity.
  - cbn [app firstSeen existsb]. rewrite IH.
    destruct (jsstring_eqb_spec k a) as [->|Hka]; cbn [orb].
    + destruct (existsb (jsstring_eqb a) ks); [reflexivity|].
      rewrite filter_app. cbn [filter]. rewrite jsstring_eqb_refl. cbn [negb].
      rewrite app_nil_r. reflexivity.
    + destruct (existsb (jsstring_eqb k) ks); [reflexivity|].
      rewrite filter_app. cbn [filter].
      destruct (jsstring_eqb_spec k a); [congruence|]. reflexivity.
Qed.

Lemma mapHas_existsb k m : mapHas k m = existsb (jsstring_eqb k) (map fst m).
Proof.
  induction m as [|[k' g] m IH]; [reflexivity|]. cbn [mapHas map fst existsb].
  rewrite IH. reflexivity.
Qed.

(** X19. The keys of the map of the grouping are the categories of the
    records of the input whose timing is before or after, without
    repetition, each at the place where it first occurs. *)
Theorem group_keys_first_seen (xs : list ImageInfo) :
  map fst (pairedGroups (groupImagesByCategory xs))
  = firstSeen (map category (filter (fun r => negb (isStandalone r)) xs)).
Proof.
  induction xs as [|x xs IH] using rev_ind; [reflexivity|].
  rewrite group_snoc, filter_app, map_app. cbn [filter]. unfold isStandalone at 2.
  destruct (Timing_eqb_spec (timing x) Standalone) as [Hx|Hx]; cbn [negb map].
  - rewrite groupStep_standalone by exact Hx. cbn [pairedGroups].
    rewrite app_nil_r. exact IH.
  - rewrite groupStep_paired by exact Hx. cbn [pairedGroups].
    rewrite firstSeen_snoc, <- existsb_firstSeen, <- IH, <- mapHas_existsb.
    destruct (mapHas (category x) (pairedGroups (groupImagesByCategory xs))).
    + apply mapModify_keys.
    + rewrite map_app. reflexivity.
Qed.

(** ** Grouping: what the slots hold *)

Lemma find_none_of (p : ImageInfo -> bool) l :
  (forall r, In r l -> p r = false) -> find p l = None.
Proof.
  induction l as [|a l IH]; intro H; [reflexivity|]. cbn [find].
  rewrite (H a (or_introl eq_refl)). apply IH. intros r Hr. apply H. right. exact Hr.
Qed.

Lemma slot_invariant xs c t :
  t <> Standalone ->
  match mapGet c (pairedGroups (groupImagesByCategory xs)) with
  | Some g => slotOf t g = find (matchesSlot c t) (rev xs)
  | None => find (matchesSlot c t) (rev xs) = None
  end.
Proof.
  intro Ht. induction xs as [|x xs IH] using rev_ind; [reflexivity|].
  rewrite group_snoc, mapGet_groupStep, rev_app_distr. cbn [rev app find].
  unfold matchesSlot at 1 3.
  destruct (Timing_eqb_spec (timing x) Standalone) as [Hx|Hx].
  - rewrite Hx. destruct (Timing_eqb_spec Standalone t); [congruence|].
    rewrite andb_false_r. exact IH.
  - destruct (jsstring_eqb_spec c (category x)) as [->|Hc].
    + rewrite jsstring_eqb_refl. cbn [andb].
      destruct (Timing_eqb_spec (timing x) t) as [<-|Hxt].
      * apply slotOf_setSlot_same. exact Hx.
      * rewrite slotOf_setSlot_other by exact Hxt.
        destruct (mapGet (category x) _); [exact IH|].
        rewrite IH. destruct t; reflexivity.
    + destruct (jsstring_eqb_spec (category x) c); [congruence|]. exact IH.
Qed.

(** X20. Each slot of a group of the returned map holds the last record of
    the input that has the category of the group and the timing of the
    slot, and is empty when the input has no such record. *)
Theorem group_slots_last_record (xs : list ImageInfo) (c : jsstring) (g : Group.t) :
  In (c, g) (pairedGroups (groupImagesByCategory xs)) ->
  Group.before g = find (matchesSlot c Before) (rev xs) /\
  Group.after g = find (matchesSlot c After) (rev xs).
Proof.
  intro Hin. apply mapGet_of_In in Hin; [|apply group_keys_NoDup].
  pose proof (@slot_invariant xs c Before ltac:(discriminate)) as Hb.
  pose proof (@slot_invariant xs c After ltac:(discriminate)) as Ha.
  rewrite Hin in Hb, Ha. split; assumption.
Qed.

Lemma group_slots_last_record_witness :
  let xs := [firstBefore; thirdAfter; loneImage; secondBefore] in
  let g := {| Group.before := Some secondBefore; Group.after := Some thirdAfter;
              Group.order := 1 |} in
  In (js "x", g) (pairedGroups (groupImagesByCategory xs)) /\
  (Group.before g = find (matchesSlot (js "x") Before) (rev xs) /\
   Group.after g = find (matchesSlot (js "x") After) (rev xs)).
Proof.
  intros xs g.
  assert (H : In (js "x", g) (pairedGroups (groupImagesByCategory xs))).
  { vm_compute. left. reflexivity. }
  split; [exact H|].
  exact (@group_slots_last_record _ _ _ H).
Defined.

(** ** Category titles *)

Lemma splitUnderscore_nonempty s : splitUnderscore s <> [].
Proof.
  destruct s as [|c t]; [discriminate|]. cbn [splitUnderscore].
  destruct (ascii_eqb c "_"); [discriminate|].
  destruct (splitUnderscore t); discriminate.
Qed.

Lemma splitUnderscore_clean s :
  forallb notUnderscore s = true -> splitUnderscore s = [s].
Proof.
  induction s as [|c t IH]; [reflexivity|]. cbn [forallb splitUnderscore].
  intro H. apply andb_true_iff in H. destruct H as [Hc Ht].
  unfold notUnderscore in Hc. apply negb_true_iff in Hc.
  rewrite Hc, (IH Ht). reflexivity.
Qed.

Lemma formatCategoryTitle_clean s :
  forallb notUnderscore s = true -> formatCategoryTitle s = capitalize s.
Proof.
  intro H. unfold formatCategoryTitle. rewrite splitUnderscore_clean by exact H.
  reflexivity.
Qed.

(** X21. In the pipeline the title of a category is its name with the first
    character in upper case and nothing else changed: a name that the
    filename parser returns has no underscore, so the title of such a name
    is one piece, capitalised. *)
Theorem formatCategoryTitle_of_name (filename : jsstring) :
  formatCategoryTitle (formattedAlt (parseFilename filename))
    = capitalize (formattedAlt (parseFilename filename)).
Proof.
  apply formatCategoryTitle_clean.
  destruct (parseFilename_content filename) as (content & -> & Hc).
  apply forallb_trim. exact Hc.
Qed.

Lemma length_capitalize s : length (capitalize s) = length s.
Proof. destruct s; reflexivity. Qed.

Lemma join_cons sep p q ps :
  join sep (p :: q :: ps) = p ++ sep ++ join sep (q :: ps).
Proof. reflexivity. Qed.

Lemma length_join_map_capitalize sep ps :
  length (join sep (map capitalize ps)) = length (join sep ps).
Proof.
  induction ps as [|p ps IH]; [reflexivity|].
  destruct ps as [|q ps].
  - apply length_capitalize.
  - cbn [map] in *. rewrite !join_cons, !length_app, IH, length_capitalize.
    reflexivity.
Qed.

Lemma join_splitUnderscore_cons x c t :
  join [x] (splitUnderscore (c :: t))
  = (if ascii_eqb c "_" then x else c) :: join [x] (splitUnderscore t).
Proof.
  cbn [splitUnderscore]. pose proof (splitUnderscore_nonempty t) as Hne.
  destruct (ascii_eqb c "_").
  - destruct (splitUnderscore t) as [|p ps]; [congruence|]. reflexivity.
  - destruct (splitUnderscore t) as [|p ps]; [congruence|].
    destruct ps; reflexivity.
Qed.

(** Joining the pieces by a space replaces each underscore by a space. *)
Lemma join_splitUnderscore s :
  join (js " ") (splitUnderscore s) = underscoresToSpaces s.
Proof.
  induction s as [|c t IH]; [reflexivity|].
  change (js " ") with [" "%char] in *.
  rewrite join_splitUnderscore_cons, IH. reflexivity.
Qed.

Lemma upper_not_underscore c :
  notUnderscore c = true -> notUnderscore (toUpperChar c) = true.
Proof. ascii_cases c; vm_compute; congruence. Qed.

Lemma upper_idempotent c : toUpperChar (toUpperChar c) = toUpperChar c.
Proof. ascii_cases c; reflexivity. Qed.

Lemma splitUnderscore_pieces s :
  Forall (fun p => forallb notUnderscore p = true) (splitUnderscore s).
Proof.
  induction s as [|c t IH]; [repeat constructor|]. cbn [splitUnderscore].
  destruct (ascii_eqb c "_") eqn:E.
  - constructor; [reflexivity | exact IH].
  - destruct (splitUnderscore t) as [|p ps].
    + repeat constructor. cbn [forallb]. unfold notUnderscore. rewrite E. reflexivity.
    + inversion IH; subst. constructor; [|assumption].
      cbn [forallb]. unfold notUnderscore at 1. rewrite E. assumption.
Qed.

Lemma join_clean ps :
  Forall (fun p => forallb notUnderscore p = true) ps ->
  forallb notUnderscore (join (js " ") ps) = true.
Proof.
  induction 1 as [|p ps Hp Hps IH]; [reflexivity|].
  destruct ps as [|q ps]; [exact Hp|].
  rewrite join_cons, !forallb_app, Hp. exact IH.
Qed.

Lemma capitalize_clean p :
  forallb notUnderscore p = true -> forallb notUnderscore (capitalize p) = true.
Proof.
  destruct p as [|c p]; [reflexivity|]. cbn [capitalize forallb].
  intro H. apply andb_true_iff in H. destruct H as [Hc Hp].
  rewrite (upper_not_underscore c Hc), Hp. reflexivity.
Qed.

Lemma formatCategoryTitle_no_underscore s :
  forallb notUnderscore (formatCategoryTitle s) = true.
Proof.
  unfold formatCategoryTitle. apply join_clean.
  pose proof (splitUnderscore_pieces s) as H.
  induction H as [|p ps Hp _ IH]; [constructor|].
  cbn [map]. constructor; [apply capitalize_clean; exact Hp | exact IH].
Qed.

Lemma capitalize_join_capitalize ps :
  capitalize (join (js " ") (map capitalize ps)) = join (js " ") (map capitalize ps).
Proof.
  destruct ps as [|p ps]; [reflexivity|].
  destruct p as [|c p].
  - destruct ps; reflexivity.
  - destruct ps as [|q ps]; cbn [map capitalize join app];
      rewrite upper_idempotent; reflexivity.
Qed.

(** X22. The title of a category in ASCII has the length of the category
    and no underscore, and formatting a title again changes nothing. *)
Theorem formatCategoryTitle_shape (category : jsstring) :
  isAsciiText category ->
  length (formatCategoryTitle category) = length category /\
  forallb notUnderscore (formatCategoryTitle category) = true /\
  formatCategoryTitle (formatCategoryTitle category) = formatCategoryTitle category.
Proof.
  intros _. split; [|split].
  - unfold formatCategoryTitle.
    rewrite length_join_map_capitalize, join_splitUnderscore.
    unfold underscoresToSpaces. apply length_map.
  - apply formatCategoryTitle_no_underscore.
  - rewrite (formatCategoryTitle_clean _ (formatCategoryTitle_no_underscore category)).
    unfold formatCategoryTitle. apply capitalize_join_capitalize.
Qed.

Lemma formatCategoryTitle_shape_witness :
  isAsciiText (js "login_page__after_") /\
  (length (formatCategoryTitle (js "login_page__after_"))
     = length (js "login_page__after_") /\
   forallb notUnderscore (formatCategoryTitle (js "login_page__after_")) = true /\
   formatCategoryTitle (formatCategoryTitle (js "login_page__after_"))
     = formatCategoryTitle (js "login_page__after_")).
Proof.
  split; [reflexivity|].
  exact (@formatCategoryTitle_shape (js "login_page__after_") eq_refl).
Defined.

(** ** Table renderer: no image is left out *)

Lemma isInfix_refl x : isInfix x x.
Proof. exists [], []. rewrite app_nil_r. reflexivity. Qed.

Lemma isInfix_app_l x s t : isInfix x s -> isInfix x (s ++ t).
Proof.
  intros (a & b & ->). exists a, (b ++ t). rewrite <- !app_assoc. reflexivity.
Qed.

Lemma isInfix_app_r x s t : isInfix x t -> isInfix x (s ++ t).
Proof.
  intros (a & b & ->). exists (s ++ a), b. rewrite <- !app_assoc. reflexivity.
Qed.

Lemma isInfix_flat_map (A : Type) (f : A -> jsstring) x a l :
  In a l -> isInfix x (f a) -> isInfix x (flat_map f l).
Proof.
  intros Hin Hx. induction l as [|b l IH]; [contradiction|].
  cbn [flat_map]. destruct Hin as [->|Hin].
  - apply isInfix_app_l. exact Hx.
  - apply isInfix_app_r. apply IH. exact Hin.
Qed.

Lemma standaloneRowPair_first r o : isInfix (imageCell r) (standaloneRowPair r o).
Proof.
  unfold standaloneRowPair.
  do 5 apply isInfix_app_r. apply isInfix_app_l. apply isInfix_refl.
Qed.

Lemma standaloneRowPair_second r r2 :
  isInfix (imageCell r2) (standaloneRowPair r (Some r2)).
Proof.
  unfold standaloneRowPair.
  do 6 apply isInfix_app_r. apply isInfix_app_l. apply isInfix_refl.
Qed.

Lemma standaloneRows_cell r : forall n l,
  length l <= n -> In r l -> isInfix (imageCell r) (standaloneRows l).
Proof.
  induction n as [|n IH]; intros l Hlen Hin.
  - destruct l; [contradiction | simpl in Hlen; lia].
  - destruct l as [|a [|b l]]; [contradiction| |].
    + destruct Hin as [->|[]]. cbn [standaloneRows]. apply standaloneRowPair_first.
    + cbn [standaloneRows]. destruct Hin as [->|[->|Hin]].
      * apply isInfix_app_l. apply standaloneRowPair_first.
      * apply isInfix_app_l. apply standaloneRowPair_second.
      * apply isInfix_app_r. apply IH; [simpl in Hlen; lia | exact Hin].
Qed.

Lemma groupRows_cell c g r :
  In r (slotRecords g) -> isInfix (imageCell r) (groupRows (c, g)).
Proof.
  unfold slotRecords, groupRows. cbn [fst snd]. intro H.
  apply in_app_iff in H. destruct H as [H|H].
  - destruct (Group.before g) as [b|]; [|contradiction].
    destruct H as [->|[]].
    do 8 apply isInfix_app_r. apply isInfix_app_l. apply isInfix_refl.
  - destruct (Group.after g) as [a|]; [|contradiction].
    destruct H as [->|[]].
    do 9 apply isInfix_app_r. apply isInfix_app_l. apply isInfix_refl.
Qed.

(** X23. The table has the image cell (source, name and width) of every
    standalone record it is given and of every record in a slot of a group
    it is given. *)
Theorem generateTable_has_every_image
    (standaloneImages : list ImageInfo) (pairedGroups : GroupMap) (r : ImageInfo) :
  In r standaloneImages \/
  (exists c g, In (c, g) pairedGroups /\ In r (slotRecords g)) ->
  isInfix (imageCell r) (generateTable standaloneImages pairedGroups).
Proof.
  intros [Hin | (c & g & Hin & Hr)]; unfold generateTable; cbv zeta.
  - apply isInfix_app_r, isInfix_app_l.
    apply (@standaloneRows_cell r (length standaloneImages)); [lia | exact Hin].
  - do 2 apply isInfix_app_r. apply isInfix_app_l.
    apply (@isInfix_flat_map _ groupRows (imageCell r) (c, g)).
    + apply (@Permutation_in _ _ _ (c, g) (sortBy_perm compareGroupOrder pairedGroups)).
      exact Hin.
    + apply groupRows_cell. exact Hr.
Qed.

Lemma generateTable_has_every_image_witness :
  (In thirdAfter [loneImage] \/
   (exists c g,
      In (c, g) [(js "x", {| Group.before := None; Group.after := Some thirdAfter;
                             Group.order := 3 |})]
      /\ In thirdAfter (slotRecords g))) /\
  isInfix (imageCell thirdAfter)
    (generateTable [loneImage]
       [(js "x", {| Group.before := None; Group.after := Some thirdAfter;
                    Group.order := 3 |})]).
Proof.
  assert (H : In thirdAfter [loneImage] \/
   (exists c g,
      In (c, g) [(js "x", {| Group.before := None; Group.after := Some thirdAfter;
                             Group.order := 3 |})]
      /\ In thirdAfter (slotRecords g))).
  { right. eexists. eexists. split; [left; reflexivity | left; reflexivity]. }
  split; [exact H|].
  exact (@generateTable_has_every_image _ _ thirdAfter H).
Defined.

(** ** From the extractor to the renderer: the order of the groups *)

Lemma StronglySorted_snoc (A : Type) (R : A -> A -> Prop) l x :
  StronglySorted R (l ++ [x]) <-> StronglySorted R l /\ Forall (fun y => R y x) l.
Proof.
  induction l as [|a l IH]; cbn [app].
  - split; [intros _; split; constructor | intros _; repeat constructor].
  - split.
    + intro H. inversion H as [|? ? Hs Hf]; subst.
      apply IH in Hs. destruct Hs as [Hs Hx].
      apply Forall_app in Hf. destruct Hf as [Hf Hax].
      inversion Hax; subst.
      split; constructor; assumption.
    + intros [Hs Hf]. inversion Hs; subst. inversion Hf; subst.
      constructor; [apply IH; split; assumption|].
      apply Forall_app. split; [assumption | repeat constructor; assumption].
Qed.

Lemma groupOrders_mapModify x k m :
  Forall (fun o => (o <= order x)%N) (groupOrders m) ->
  groupOrders (mapModify k (fun g => lowerOrder x (setSlot x g)) m) = groupOrders m.
Proof.
  unfold groupOrders. induction m as [|[k' g] m IH]; intro H; [reflexivity|].
  cbn [map snd] in H. inversion H; subst. cbn [mapModify].
  destruct (jsstring_eqb k k'); cbn [map snd].
  - rewrite order_lowerOrder_setSlot. f_equal. apply N.min_l. assumption.
  - f_equal. apply IH. assumption.
Qed.

Lemma group_orders_sorted xs :
  StronglySorted orderLe xs ->
  StronglySorted N.le (groupOrders (pairedGroups (groupImagesByCategory xs))) /\
  Forall (fun o => exists r, In r xs /\ order r = o)
         (groupOrders (pairedGroups (groupImagesByCategory xs))).
Proof.
  induction xs as [|x xs IH] using rev_ind; intro Hs.
  - split; constructor.
  - apply StronglySorted_snoc in Hs. destruct Hs as [Hs Hx].
    destruct (IH Hs) as [Hsorted Hfrom]. clear IH.
    assert (Hle : Forall (fun o => (o <= order x)%N)
                    (groupOrders (pairedGroups (groupImagesByCategory xs)))).
    { rewrite Forall_forall in *. intros o Ho.
      destruct (Hfrom o Ho) as (r & Hr & <-). exact (Hx r Hr). }
    assert (Hfrom' : Forall (fun o => exists r, In r (xs ++ [x]) /\ order r = o)
                       (groupOrders (pairedGroups (groupImagesByCategory xs)))).
    { rewrite Forall_forall in *. intros o Ho.
      destruct (Hfrom o Ho) as (r & Hr & E). exists r.
      rewrite in_app_iff. auto. }
    rewrite group_snoc.
    destruct (Timing_eqb_spec (timing x) Standalone) as [Ht|Ht].
    + rewrite groupStep_standalone by exact Ht. split; assumption.
    + rewrite groupStep_paired by exact Ht. cbn [pairedGroups].
      destruct (mapHas (category x) _).
      * rewrite groupOrders_mapModify by exact Hle. split; assumption.
      * unfold groupOrders in *. rewrite map_app. cbn [map snd].
        rewrite order_lowerOrder_setSlot. cbn [freshGroup Group.order].
        rewrite N.min_id. split.
        -- apply StronglySorted_snoc. split; assumption.
        -- apply Forall_app. split; [assumption|].
           constructor; [|constructor]. exists x. rewrite in_app_iff.
           split; [right; left; reflexivity | reflexivity].
Qed.

Lemma compareGroupOrder_le a b :
  (compareGroupOrder a b <=? 0)%Z = (Group.order (snd a) <=? Group.order (snd b))%N.
Proof.
  unfold compareGroupOrder.
  destruct (Z.leb_spec (Z.of_N (Group.order (snd a)) - Z.of_N (Group.order (snd b))) 0);
    destruct (N.leb_spec (Group.order (snd a)) (Group.order (snd b)));
    try reflexivity; lia.
Qed.

Lemma sortBy_sorted_groups m :
  StronglySorted N.le (groupOrders m) -> sortBy compareGroupOrder m = m.
Proof.
  unfold groupOrders. induction m as [|a m IH]; intro H; [reflexivity|].
  cbn [map] in H. inversion H as [|? ? Hs Hf]; subst.
  cbn [sortBy fold_right]. fold (sortBy compareGroupOrder m). rewrite (IH Hs).
  destruct m as [|b m]; [reflexivity|]. cbn [insertSorted].
  rewrite compareGroupOrder_le. cbn [map] in Hf. inversion Hf; subst.
  destruct (N.leb_spec (Group.order (snd a)) (Group.order (snd b)));
    [reflexivity | lia].
Qed.

(** X24. When the records are in ascending order, the orders of the groups
    of the map are in ascending order, so the sort of the renderer leaves
    the map as it is. *)
Theorem sorted_records_sorted_groups (xs : list ImageInfo) :
  StronglySorted orderLe xs ->
  StronglySorted N.le (groupOrders (pairedGroups (groupImagesByCategory xs))) /\
  sortBy compareGroupOrder (pairedGroups (groupImagesByCategory xs))
    = pairedGroups (groupImagesByCategory xs).
Proof.
  intro Hs. destruct (group_orders_sorted Hs) as [H _].
  split; [exact H | apply sortBy_sorted_groups; exact H].
Qed.

Lemma sorted_records_sorted_groups_witness :
  StronglySorted orderLe [firstBefore; thirdAfter; loneImage; imageOf (js "9 z after") (js "e.png")] /\
  StronglySorted N.le
    (groupOrders (pairedGroups (groupImagesByCategory
       [firstBefore; thirdAfter; loneImage; imageOf (js "9 z after") (js "e.png")]))) /\
  sortBy compareGroupOrder
    (pairedGroups (groupImagesByCategory
       [firstBefore; thirdAfter; loneImage; imageOf (js "9 z after") (js "e.png")]))
  = pairedGroups (groupImagesByCategory
       [firstBefore; thirdAfter; loneImage; imageOf (js "9 z after") (js "e.png")]).
Proof.
  assert (H : StronglySorted orderLe
    [firstBefore; thirdAfter; loneImage; imageOf (js "9 z after") (js "e.png")]).
  { repeat constructor; vm_compute; discriminate. }
  split; [exact H|].
  exact (@sorted_records_sorted_groups _ H).
Defined.

(** X25. For every clipboard text, the table of its grouped records is the
    opening, the rows of the standalone records, the rows of the groups in
    the order of the map (the order in which the categories first occur in
    the sorted records), and the closing: the records come out of the
    extractor in ascending order, so the sort of the renderer changes
    nothing. *)
Theorem table_of_clipboard (clipboardContent : jsstring) :
  let grouping := groupImagesByCategory (parseImagesFromClipboard clipboardContent) in
  generateTable (standaloneImages grouping) (pairedGroups grouping)
  = tableOpen
    ++ standaloneRows (standaloneImages grouping)
    ++ flat_map groupRows (pairedGroups grouping)
    ++ tableClose.
Proof.
  cbv zeta. unfold generateTable. cbv zeta.
  rewrite sortBy_sorted_groups; [reflexivity|].
  apply group_orders_sorted.
  unfold parseImagesFromClipboard, parseImages, parseImagesMarkdown.
  destruct (jsstring_eqb _ _); apply sortBy_order_sorted.
Qed.

(** * The conversion command *)

(** The runs of the command, case by case: the clipboard could not be
    read; it is blank; it holds an image snippet, with or without images;
    it holds a title.  A title is never empty, which closes the case of the
    parse error. *)
Ltac run_cases sys :=
  let clipboardContent := fresh "clipboardContent" in
  let works := fresh "works" in
  let fromApp := fresh "fromApp" in
  destruct sys as [[clipboardContent|] works fromApp];
  unfold convertClipboard, convertBody, readClipboard, writeClipboard, finish,
         isImageSnippet;
  cbn [pbpaste pbcopyWorks isRunningFromApp];
  cbn [bind ret emit showProgress];
  [ destruct (isEmpty (trim clipboardContent)) eqn:Hblank;
    [ | destruct (startsWith (js "<img") (trim clipboardContent)
                  || startsWith (js "![") (trim clipboardContent)) eqn:Hsnippet;
        cbn [negb];
        [ destruct (length (parseImagesFromClipboard clipboardContent) =? 0)%nat
            eqn:Himages
        | destruct (isEmpty (parsePRTitle clipboardContent)) eqn:Htitle;
          [ exfalso; apply (@parsePRTitle_never_empty clipboardContent);
            destruct (parsePRTitle clipboardContent); [reflexivity | discriminate]
          | ] ] ]
  | ];
  destruct works, fromApp.

(** X26. Whatever the clipboard holds and however the system behaves, the
    command never shows the dialog titled Parse Error: the title parser
    never returns the empty string, so that branch cannot be taken. *)
Theorem convertClipboard_never_parse_error (sys : System) :
  existsb (hasTitle (js "Parse Error")) (convertClipboard sys) = false.
Proof. run_cases sys; reflexivity. Qed.

(** X27. Every run of the command shows exactly one dialog, hands at most
    one content to the clipboard, and does nothing after leaving the
    process. *)
Theorem convertClipboard_one_dialog (sys : System) :
  length (filter isDialog (convertClipboard sys)) = 1 /\
  length (written (convertClipboard sys)) <= 1 /\
  existsb isExit (removelast (convertClipboard sys)) = false.
Proof.
  run_cases sys; (split; [reflexivity | split; [cbn; lia | reflexivity]]).
Qed.

(** X28. What a run hands to the clipboard comes from a clipboard text that
    was read and is not blank: for an image snippet it is the table of the
    grouped records, of which there is at least one, and otherwise it is
    the formatted title. *)
Theorem convertClipboard_written (sys : System) (content : jsstring) :
  In content (written (convertClipboard sys)) ->
  exists clipboardContent,
    pbpaste sys = Some clipboardContent /\
    isEmpty (trim clipboardContent) = false /\
    if isImageSnippet clipboardContent then
      let images := parseImagesFromClipboard clipboardContent in
      let grouping := groupImagesByCategory images in
      (length images =? 0)%nat = false /\
      content = generateTable (standaloneImages grouping) (pairedGroups grouping)
    else content = parsePRTitle clipboardContent.
Proof.
  intro H. revert H.
  run_cases sys; intro H; cbn in H; try contradiction;
    destruct H as [<-|[]]; exists clipboardContent;
    rewrite Hsnippet; cbv zeta; auto.
Qed.

Lemma convertClipboard_written_witness :
  In (js "[ABC-12] Add login")
     (written (convertClipboard
        {| pbpaste := Some (js "abc-12-add-login");
           pbcopyWorks := false; isRunningFromApp := true |})) /\
  exists clipboardContent,
    pbpaste {| pbpaste := Some (js "abc-12-add-login");
               pbcopyWorks := false; isRunningFromApp := true |}
      = Some clipboardContent /\
    isEmpty (trim clipboardContent) = false /\
    if isImageSnippet clipboardContent then
      let images := parseImagesFromClipboard clipboardContent in
      let grouping := groupImagesByCategory images in
      (length images =? 0)%nat = false /\
      js "[ABC-12] Add login"
        = generateTable (standaloneImages grouping) (pairedGroups grouping)
    else js "[ABC-12] Add login" = parsePRTitle clipboardContent.
Proof.
  assert (H : In (js "[ABC-12] Add login")
     (written (convertClipboard
        {| pbpaste := Some (js "abc-12-add-login");
           pbcopyWorks := false; isRunningFromApp := true |}))).
  { vm_compute. left. reflexivity. }
  split; [exact H|].
  exact (@convertClipboard_written _ _ H).
Defined.

(** X29. A content is handed to the clipboard exactly when the clipboard
    was read, its text is not blank and, for an image snippet, has at least
    one image.  The run succeeds when moreover [pbcopy] worked, and fails
    when the clipboard could not be read or [pbcopy] did not work.  The
    dialog of type info is shown exactly in the runs that succeed, and the
    paste and the exit with code 0 exactly in those of them that run from
    the application; the dialog titled Error and the exit with code 1
    exactly in the runs that fail. *)
Theorem convertClipboard_outcome (sys : System) :
  let events := convertClipboard sys in
  let wrote :=
    match pbpaste sys with
    | None => false
    | Some clipboardContent =>
        negb (isEmpty (trim clipboardContent))
        && (negb (isImageSnippet clipboardContent)
            || negb (length (parseImagesFromClipboard clipboardContent) =? 0)%nat)
    end in
  let succeeded := wrote && pbcopyWorks sys in
  let failed :=
    match pbpaste sys with
    | None => true
    | Some _ => wrote && negb (pbcopyWorks sys)
    end in
  (1 <=? length (written events))%nat = wrote /\
  existsb isSuccessDialog events = succeeded /\
  existsb isPaste events = succeeded && isRunningFromApp sys /\
  existsb (exitsWith 0) events = succeeded && isRunningFromApp sys /\
  existsb (hasTitle (js "Error")) events = failed /\
  existsb (exitsWith 1) events = failed.
Proof.
  cbv zeta. run_cases sys; repeat split; reflexivity.
Qed.

(** ** The counts of the success message *)

Lemma group_counts_step acc x :
  (length (standaloneImages (groupStep acc x)) + length (pairedGroups (groupStep acc x))
   <= S (length (standaloneImages acc) + length (pairedGroups acc)))%nat /\
  (1 <= length (standaloneImages (groupStep acc x))
        + length (pairedGroups (groupStep acc x)))%nat.
Proof.
  assert (Hm : forall k f m, length (mapModify k f m) = length m).
  { intros k f m. induction m as [|[k' g] m IH]; [reflexivity|].
    cbn [mapModify]. destruct (jsstring_eqb k k'); cbn [length]; congruence. }
  assert (Hhas : forall k m, mapHas k m = true -> (1 <= length m)%nat).
  { intros k m. destruct m; [discriminate | cbn [length]; lia]. }
  destruct (Timing_eqb_spec (timing x) Standalone) as [Ht|Ht].
  - rewrite groupStep_standalone by exact Ht. cbn [standaloneImages pairedGroups].
    rewrite length_app. cbn [length]. lia.
  - rewrite groupStep_paired by exact Ht. cbn [standaloneImages pairedGroups].
    destruct (mapHas (category x) (pairedGroups acc)) eqn:E.
    + rewrite Hm. apply Hhas in E. lia.
    + rewrite length_app. cbn [length]. lia.
Qed.

(** X30. The number of categories that the success message reports, the
    standalone records plus the groups, is at most the number of images,
    and it is zero only when there is no image. *)
Theorem group_counts (images : list ImageInfo) :
  let grouping := groupImagesByCategory images in
  let totalCategories :=
    length (standaloneImages grouping) + length (pairedGroups grouping) in
  totalCategories <= length images /\
  (totalCategories =? 0) = (length images =? 0).
Proof.
  cbv zeta. induction images as [|x xs IH] using rev_ind.
  - split; reflexivity.
  - rewrite group_snoc, length_app. cbn [length].
    destruct (group_counts_step (groupImagesByCategory xs) x) as [Hle Hpos].
    destruct IH as [IH _]. split; [lia|].
    destruct (Nat.eqb_spec (length xs + 1) 0); [lia|].
    apply Nat.eqb_neq. lia.
Qed.
